(** * QuNetSim: the [Network] control singleton ([components/network.py])

    A shallow embedding of the [Network] class: the ARP table, the
    topology graph, the routing call, the relay encoder, the entanglement
    swap chain and the packet-processing loop, followed by the properties
    established about them.

    Python objects become records and inductive types; dictionaries become
    finite maps; methods become computations in a small state-and-exception
    monad whose state is the [Network] object ([self]) together with the
    chronological record of every call the network makes on its
    collaborators (hosts, the CQC backend of a host, the logger). *)

From Stdlib Require Import ZArith QArith.QArith_base Lia.
From stdpp Require Import gmap strings list fin_maps.

Set Warnings "-clear-no-such-hyp".

Local Open Scope Z_scope.
Local Open Scope string_scope.
Local Open Scope list_scope.
Local Open Scope nat_scope.

(** ** Exceptions

    The classes of exception the code can meet.  All of them derive from
    Python's [Exception].  [PeerError] stands for whatever a host or a
    backend call raises. *)

Inductive exn : Type :=
| NodeNotFound        (* networkx: an endpoint is not a node of the graph *)
| NetworkXNoPath      (* networkx: no path between the endpoints *)
| NetworkXError       (* networkx: removing a node that is not there *)
| ValueError          (* list.index on an absent element *)
| KeyError            (* dict subscript with an absent key *)
| IndexError          (* list subscript out of range *)
| TypeError           (* subscripting None, iterating None, ... *)
| AttributeError      (* attribute access on None *)
| PlainException      (* a bare [raise Exception] *)
| PeerError (msg : string).

Global Instance exn_eq_dec : EqDecision exn.
Proof. solve_decision. Defined.

(** [str(e)], reduced to what the model keeps of an exception. *)
Definition str_exn (e : exn) : string :=
  match e with
  | NodeNotFound => "NodeNotFound"
  | NetworkXNoPath => "NetworkXNoPath"
  | NetworkXError => "NetworkXError"
  | ValueError => "ValueError"
  | KeyError => "KeyError"
  | IndexError => "IndexError"
  | TypeError => "TypeError"
  | AttributeError => "AttributeError"
  | PlainException => EmptyString
  | PeerError msg => msg
  end.

(** ** Packets

    [protocols.RELAY], [protocols.REC_EPR], [protocols.SEND_TELEPORT] and
    the payload types [protocols.QUANTUM], [protocols.SIGNAL] are
    constants of [components/protocols.py]; they are kept as distinct tags,
    every other tag travels in [OtherProtocol] / [OtherPayloadType]. *)

Inductive protocol_tag : Type :=
| RELAY
| REC_EPR
| SEND_TELEPORT
| OtherProtocol (name : string).

Inductive payload_tag : Type :=
| QUANTUM
| SIGNAL
| CLASSICAL
| OtherPayloadType (name : string).

Global Instance protocol_tag_eq_dec : EqDecision protocol_tag.
Proof. solve_decision. Defined.

Global Instance payload_tag_eq_dec : EqDecision payload_tag.
Proof. solve_decision. Defined.

(** A qubit handle of the backend: opaque to the network. *)
Definition qubit : Type := N.

(** The Python values that cross the boundary between the network and
    its hosts, and that sit in the small dictionaries the network builds
    or reads ([{'q_id': ...}], the teleport data of a swap).  [VEprPair]
    is the dictionary [{'q': ..., 'q_id': ...}] a host keeps for an EPR
    pair; [VEPR] is the constant [protocols.EPR]. *)
Inductive value : Type :=
| VNone
| VBool (b : bool)
| VStr (s : string)
| VQubit (q : qubit)
| VEprPair (q : qubit) (q_id : string)
| VEPR.

Global Instance value_eq_dec : EqDecision value.
Proof. solve_decision. Defined.

(** One entry of a QUANTUM payload: [{'q': ..., 'q_id': ..., 'blocked': ...}]. *)
Record qubit_entry : Type := QubitEntry {
  qe_q : value;
  qe_q_id : string;
  qe_blocked : bool
}.

(** A packet is a Python dict.  The five fields every packet has are
    mandatory here; ['TTL'] and ['route'] exist on relay packets only, so
    they are optional.  The payload is any Python object the code can
    meet there. *)
Inductive body : Type :=
| BNone
| BStr (s : string)
| BDict (d : gmap string value)
| BQubits (qs : list qubit_entry)
| BPacket (p : packet_dict)
with packet_dict : Type :=
| Packet (sender receiver : string) (protocol : protocol_tag)
         (payload_type : payload_tag) (payload : body)
         (TTL : option Z) (route : option (list string)).

Definition packet_sender (p : packet_dict) : string :=
  match p with Packet s _ _ _ _ _ _ => s end.
Definition packet_receiver (p : packet_dict) : string :=
  match p with Packet _ r _ _ _ _ _ => r end.
Definition packet_protocol (p : packet_dict) : protocol_tag :=
  match p with Packet _ _ pr _ _ _ _ => pr end.
Definition packet_payload_type (p : packet_dict) : payload_tag :=
  match p with Packet _ _ _ pt _ _ _ => pt end.
Definition packet_payload (p : packet_dict) : body :=
  match p with Packet _ _ _ _ b _ _ => b end.
Definition packet_TTL (p : packet_dict) : option Z :=
  match p with Packet _ _ _ _ _ t _ => t end.
Definition packet_route (p : packet_dict) : option (list string) :=
  match p with Packet _ _ _ _ _ _ r => r end.

(** [packet['payload'] = b] *)
Definition set_payload (b : body) (p : packet_dict) : packet_dict :=
  match p with Packet s r pr pt _ t ro => Packet s r pr pt b t ro end.

(** ** Hosts

    What the network reads of a [Host] object: its id, its declared
    connections and the name of its backend connection ([host.cqc.name]).
    The methods of a host are calls on the outside world, see [Peers]. *)
Record Host : Type := mkHost {
  host_id : string;
  connections : list string;
  cqc_name : string
}.

(** ** The topology: [networkx.DiGraph]

    The successor dictionary of the graph: every node is a key, and the
    value under [u] maps each successor [v] of [u] to the weight of the
    edge [(u, v)]. *)
Abbreviation DiGraph := (gmap string (gmap string Z)).

Definition has_node (g : DiGraph) (n : string) : bool :=
  bool_decide (is_Some (g !! n)).

Definition has_edge (g : DiGraph) (u v : string) : bool :=
  match g !! u with
  | Some nbrs => bool_decide (is_Some (nbrs !! v))
  | None => false
  end.

Definition edge_weight (g : DiGraph) (u v : string) : option Z :=
  g !! u ≫= λ nbrs, nbrs !! v.

Definition add_node (n : string) (g : DiGraph) : DiGraph :=
  match g !! n with
  | Some _ => g
  | None => <[n := ∅]> g
  end.

(** [G.add_edges_from([(u, v, {'weight': w})])] *)
Definition add_edge (u v : string) (w : Z) (g : DiGraph) : DiGraph :=
  let g := add_node v (add_node u g) in
  <[u := <[v := w]> (default ∅ (g !! u))]> g.

(** [G.remove_node(n)]: the node, its out-edges and its in-edges. *)
Definition remove_node (n : string) (g : DiGraph) : exn + DiGraph :=
  match g !! n with
  | None => inl NetworkXError
  | Some _ => inr (delete n <$> delete n g)
  end.

(** The edges of the graph, as [G.edges] lists them. *)
Definition edges (g : DiGraph) : list (string * string) :=
  map_to_list g ≫= λ entry, (λ v, (entry.1, v)) <$> (map_to_list entry.2).*1.

(** ** The calls the network makes on its collaborators

    The [Host] class, the CQC backend behind [host.cqc], the logger and
    [DaemonThread] are not part of the network.  Every call on them is
    recorded, with what it returned, in the order the calls happen. *)

Inductive call : Type :=
| Host_send_epr (partner : string) (q_id : value) (await_ack : bool)
| Host_get_epr (partner : string)
| Host_add_epr (partner : string) (q : value) (q_id : option value)
| Host_shares_epr (partner : string)
| Host_rec_packet (p : body)
| Host_add_data_qubit (origin : string) (q : value) (q_id : string)
| cqc_createEPR (name : option string)
| cqc_sendQubit (q : value) (name : option string)
| cqc_recvQubit.

Inductive reply : Type :=
| Returned (v : value)
| Raised (e : exn).

Inductive log_level : Type := DEBUG | LOG | ERROR.

Inductive event : Type :=
| HostCall (h : Host) (c : call) (r : reply)
| Logger (lvl : log_level) (msg : string)
| Sleep (seconds : Q)
| DaemonThread_entanglement_swap
    (sender receiver : string) (route : list string) (q_id : value)
| DaemonThread_process_queue.

(** The hosts' side of the boundary: what a call returns, given
    everything that happened before it.  Python is dynamically typed, so
    a reply is any value, or an exception. *)
Definition Peers : Type := list event → Host → call → reply.

(** ** The [Network] object *)

Record Network : Type := mkNetwork {
  ARP : gmap string Host;
  network : DiGraph;
  routing_algo : DiGraph → string → string → exn + list string;
  use_hop_by_hop : bool;
  _packet_queue : list packet_dict;
  _stop_thread : bool;
  _queue_processor_thread : bool;
  delay : Q
}.

Definition set_ARP (f : gmap string Host → gmap string Host) (n : Network) :=
  mkNetwork (f (ARP n)) (network n) (routing_algo n) (use_hop_by_hop n)
            (_packet_queue n) (_stop_thread n) (_queue_processor_thread n)
            (delay n).

Definition set_network (f : DiGraph → DiGraph) (n : Network) :=
  mkNetwork (ARP n) (f (network n)) (routing_algo n) (use_hop_by_hop n)
            (_packet_queue n) (_stop_thread n) (_queue_processor_thread n)
            (delay n).

Definition set_routing_algo_field
    (a : DiGraph → string → string → exn + list string) (n : Network) :=
  mkNetwork (ARP n) (network n) a (use_hop_by_hop n)
            (_packet_queue n) (_stop_thread n) (_queue_processor_thread n)
            (delay n).

Definition set_packet_queue (q : list packet_dict) (n : Network) :=
  mkNetwork (ARP n) (network n) (routing_algo n) (use_hop_by_hop n)
            q (_stop_thread n) (_queue_processor_thread n) (delay n).

Definition set_stop_thread (b : bool) (n : Network) :=
  mkNetwork (ARP n) (network n) (routing_algo n) (use_hop_by_hop n)
            (_packet_queue n) b (_queue_processor_thread n) (delay n).

Definition set_queue_processor_thread (b : bool) (n : Network) :=
  mkNetwork (ARP n) (network n) (routing_algo n) (use_hop_by_hop n)
            (_packet_queue n) (_stop_thread n) b (delay n).

Definition set_delay_field (d : Q) (n : Network) :=
  mkNetwork (ARP n) (network n) (routing_algo n) (use_hop_by_hop n)
            (_packet_queue n) (_stop_thread n) (_queue_processor_thread n) d.

(** ** The monad of the methods

    A method runs on the network object and on the record of calls made
    so far.  It returns, raises, or is still turning in a loop when the
    fuel given to that loop is spent ([Spin]).  Changes made before an
    exception stay, as in Python. *)

Inductive outcome (A : Type) : Type :=
| Ok (a : A)
| Raise (e : exn)
| Spin.
Arguments Ok {A} a.
Arguments Raise {A} e.
Arguments Spin {A}.

Record state : Type := mkState {
  self : Network;
  calls : list event
}.

Definition M (A : Type) : Type := state → outcome A * state.

Definition ret {A} (a : A) : M A := λ st, (Ok a, st).

Definition bind {A B} (m : M A) (k : A → M B) : M B := λ st,
  match m st with
  | (Ok a, st') => k a st'
  | (Raise e, st') => (Raise e, st')
  | (Spin, st') => (Spin, st')
  end.

Definition raise {A} (e : exn) : M A := λ st, (Raise e, st).

(** [try: body except Exception as e: handler e] *)
Definition try_except {A} (body : M A) (handler : exn → M A) : M A := λ st,
  match body st with
  | (Raise e, st') => handler e st'
  | r => r
  end.

Definition get_self : M Network := λ st, (Ok (self st), st).

Definition modify_self (f : Network → Network) : M unit := λ st,
  (Ok tt, mkState (f (self st)) (calls st)).

Definition emit (e : event) : M unit := λ st,
  (Ok tt, mkState (self st) (calls st ++ [e])).

Definition lift {A} (r : exn + A) : M A :=
  match r with
  | inl e => raise e
  | inr a => ret a
  end.

Declare Scope net_scope.
Delimit Scope net_scope with net.
Notation "'let*' x := m 'in' k" := (bind m (λ x, k))
  (at level 10, x name, m at level 100, k at level 200) : net_scope.
Notation "m ;;; k" := (bind m (λ _, k))
  (at level 100, k at level 200, right associativity) : net_scope.
Local Open Scope net_scope.

(** [for x in xs: body x] *)
Fixpoint for_each {A} (xs : list A) (body : A → M unit) : M unit :=
  match xs with
  | [] => ret tt
  | x :: xs' => body x ;;; for_each xs' body
  end.

(** [xs[i]] for a non-negative [i] *)
Definition subscript {A} (xs : list A) (i : nat) : M A :=
  match xs !! i with
  | Some x => ret x
  | None => raise IndexError
  end.

(** [xs[-1]] *)
Definition subscript_last {A} (xs : list A) : M A :=
  match last xs with
  | Some x => ret x
  | None => raise IndexError
  end.

(** [xs.index(x)] *)
Fixpoint list_index (x : string) (xs : list string) : option nat :=
  match xs with
  | [] => None
  | y :: ys => if decide (y = x) then Some 0 else S <$> list_index x ys
  end.

(** ** The default routing algorithm: [networkx.shortest_path] *)

Definition successors (g : DiGraph) (v : string) : list string :=
  match g !! v with
  | Some nbrs => (map_to_list nbrs).*1
  | None => []
  end.

(** Every name that occurs in the graph, as a node or as the head of an
    edge. *)
Definition vertices (g : DiGraph) : gset string :=
  dom g ∪ ⋃ (dom <$> (map_to_list g).*2).

(** [if w not in paths: paths[w] = paths[v] + [w]; nextlevel.append(w)] *)
Definition visit (pv : list string)
    (st : gmap string (list string) * list string) (w : string)
    : gmap string (list string) * list string :=
  match st.1 !! w with
  | Some _ => st
  | None => (<[w := pv ++ [w]]> st.1, st.2 ++ [w])
  end.

(** [for w in adj[v]: ...] *)
Definition expand (g : DiGraph)
    (st : gmap string (list string) * list string) (v : string)
    : gmap string (list string) * list string :=
  match st.1 !! v with
  | Some pv => foldl (visit pv) st (successors g v)
  | None => st
  end.

(** [while nextlevel: thislevel = nextlevel; nextlevel = []; for v in
    thislevel: ...].  The fuel bounds the number of levels; the number of
    names in the graph is always enough. *)
Fixpoint levels (fuel : nat) (g : DiGraph)
    (paths : gmap string (list string)) (thislevel : list string)
    : gmap string (list string) :=
  match fuel, thislevel with
  | S fuel', _ :: _ =>
      let st := foldl (expand g) (paths, []) thislevel in
      levels fuel' g st.1 st.2
  | _, _ => paths
  end.

(** Modelled from the spec: [networkx.shortest_path], the default value of
    [routing_algo], is not under the sources.  The spec gives its
    contract: the default router is the unweighted shortest path; it
    fails when either endpoint is absent from the topology
    ([NodeNotFound]) or when no path exists ([NetworkXNoPath]).  The model
    is a breadth-first search by levels from [source] that records, for
    every node it reaches, the path by which it was first reached; that
    it finds a route whenever there is one, and a shortest one, is proved
    below. *)
Definition shortest_path (g : DiGraph) (source target : string)
    : exn + list string :=
  if negb (has_node g source) || negb (has_node g target) then
    inl NodeNotFound
  else
    match levels (size (vertices g)) g {[source := [source]]} [source]
            !! target with
    | Some p => inr p
    | None => inl NetworkXNoPath
    end.

(** Modelled from the spec: [protocols.encode] is not under the sources.
    The spec gives the shape of a packet: the five mandatory fields
    sender, receiver, protocol, payload type and payload; route and TTL
    are present on relay envelopes only. *)
Definition protocols_encode (sender receiver : string)
    (protocol : protocol_tag) (payload : body) (payload_type : payload_tag)
    : packet_dict :=
  Packet sender receiver protocol payload_type payload None None.

(** ** The methods of [Network] *)

(** [Network.__init__] (the singleton bookkeeping is left out). *)
Definition Network_init : Network := {|
  ARP := ∅;
  network := ∅;
  routing_algo := shortest_path;
  use_hop_by_hop := true;
  _packet_queue := [];
  _stop_thread := false;
  _queue_processor_thread := false;
  delay := (1 # 2)%Q
|}.

(** Truth value of a Python value, for [and]. *)
Definition truthy (v : value) : bool :=
  match v with
  | VNone => false
  | VBool b => b
  | VStr s => negb (String.eqb s EmptyString)
  | VQubit _ | VEprPair _ _ | VEPR => true
  end.

(** [v[key]] on a value a host returned. *)
Definition getitem (v : value) (key : string) : M value :=
  match v with
  | VEprPair q q_id =>
      if decide (key = "q") then ret (VQubit q)
      else if decide (key = "q_id") then ret (VStr q_id)
      else raise KeyError
  | _ => raise TypeError
  end.

(** [b['q_id']] on a payload. *)
Definition payload_q_id (b : body) : M value :=
  match b with
  | BDict d =>
      match d !! "q_id" with
      | Some v => ret v
      | None => raise KeyError
      end
  | BPacket _ => raise KeyError
  | BNone | BStr _ | BQubits _ => raise TypeError
  end.

(** [o.method], [o.cqc]: attribute access on what [get_host] returned. *)
Definition attribute (o : option Host) : M Host :=
  match o with
  | Some h => ret h
  | None => raise AttributeError
  end.

(** [while q is None: q = attempt()] *)
Fixpoint while_None (fuel : nat) (attempt : M value) : M value :=
  match fuel with
  | 0 => λ st, (Spin, st)
  | S fuel' =>
      let* q := attempt in
      match q with
      | VNone => while_None fuel' attempt
      | _ => ret q
      end
  end.

Section Methods.

Context (peers : Peers).

(** A call on a host, or on the backend connection of a host. *)
Definition host_call (h : Host) (c : call) : M value := λ st,
  let r := peers (calls st) h c in
  let st' := mkState (self st) (calls st ++ [HostCall h c r]) in
  match r with
  | Returned v => (Ok v, st')
  | Raised e => (Raise e, st')
  end.

Definition set_routing_algo
    (algorithm : DiGraph → string → string → exn + list string) : M unit :=
  modify_self (set_routing_algo_field algorithm).

Definition set_delay (d : Q) : M unit :=
  modify_self (set_delay_field d).

(** One turn of the loop over [host.connections]. *)
Definition connect (h : string) (g : DiGraph) (connection : string)
    : DiGraph :=
  let g := if has_edge g h connection then g
           else add_edge h connection 1 g in
  if has_edge g connection h then g
  else add_edge connection h 1 g.

Definition update_graph (host : Host) (g : DiGraph) : DiGraph :=
  foldl (connect (host_id host)) (add_node (host_id host) g)
        (connections host).

Definition _update_network_graph (host : Host) : M unit :=
  modify_self (set_network (update_graph host)).

Definition add_host (host : Host) : M unit :=
  emit (Logger DEBUG ("host added: " +:+ host_id host)) ;;;
  modify_self (set_ARP <[host_id host := host]>) ;;;
  _update_network_graph host.

Definition remove_host (host : Host) : M unit :=
  let* net := get_self in
  if decide (is_Some (ARP net !! host_id host)) then
    modify_self (set_ARP (delete (host_id host)))
  else ret tt.

Definition _remove_network_node (host : Host) : M unit :=
  let* net := get_self in
  match remove_node (host_id host) (network net) with
  | inr g => modify_self (set_network (λ _, g))
  | inl NetworkXError =>
      emit (Logger ERROR
              "attempted to remove a non-exiting node from network")
  | inl e => raise e
  end.

Definition get_host (host_id : string) : M (option Host) :=
  let* net := get_self in
  ret (ARP net !! host_id).

Definition get_ARP : M (gmap string Host) :=
  let* net := get_self in
  ret (ARP net).

Definition get_host_name (host_id : string) : M (option string) :=
  let* net := get_self in
  ret (cqc_name <$> ARP net !! host_id).

(** [self.ARP[k]] *)
Definition ARP_subscript (k : string) : M Host :=
  let* net := get_self in
  match ARP net !! k with
  | Some h => ret h
  | None => raise KeyError
  end.

Definition shares_epr (sender receiver : string) : M value :=
  let* host_sender := get_host sender in
  let* host_receiver := get_host receiver in
  let* hs := attribute host_sender in
  let* left := host_call hs (Host_shares_epr receiver) in
  if truthy left then
    let* hr := attribute host_receiver in
    host_call hr (Host_shares_epr sender)
  else ret left.

Definition get_route (source dest : string) : M (list string) :=
  let* net := get_self in
  lift (routing_algo net (network net) source dest).

(** The body of the first loop of [_entanglement_swap]. *)
Definition swap_create (route : list string) (q_id : value) (i : nat)
    : M unit :=
  let* ri := subscript route i in
  let* host := get_host ri in
  let* h := attribute host in
  let* ri1 := subscript route (i + 1) in
  let* _ := host_call h (Host_send_epr ri1 q_id true) in
  ret tt.

(** The body of the second loop of [_entanglement_swap]. *)
Definition swap_transfer (fuel : nat) (sender receiver : string)
    (route : list string) (i : nat) : M unit :=
  let* q := while_None fuel (
    let* ri1 := subscript route (i + 1) in
    let* host := get_host ri1 in
    let* h := attribute host in
    let* r0 := subscript route 0 in
    host_call h (Host_get_epr r0)) in
  let* qq := getitem q "q" in
  let* qid := getitem q "q_id" in
  let data := BDict (<["q" := qq]> (<["q_id" := qid]>
                (<["node" := VStr sender]> {["type" := VEPR]}))) in
  let* ri1 := subscript route (i + 1) in
  let* ri2 := subscript route (i + 2) in
  let packet := protocols_encode ri1 ri2 SEND_TELEPORT data SIGNAL in
  emit (Logger LOG (sender +:+ " sends EPR to " +:+ receiver)) ;;;
  let* ri1 := subscript route (i + 1) in
  let* host := get_host ri1 in
  let* h := attribute host in
  let* _ := host_call h (Host_rec_packet (BPacket packet)) in
  ret tt.

Definition _entanglement_swap (fuel : nat) (sender receiver : string)
    (route : list string) (q_id : value) : M unit :=
  let* host_sender := get_host sender in
  for_each (seq 0 (length route - 1)) (swap_create route q_id) ;;;
  for_each (seq 0 (length route - 2))
           (swap_transfer fuel sender receiver route) ;;;
  let* hs := attribute host_sender in
  let* r1 := subscript route 1 in
  let* q2 := host_call hs (Host_get_epr r1) in
  let* q2q := getitem q2 "q" in
  let* q2id := getitem q2 "q_id" in
  let* _ := host_call hs (Host_add_epr receiver q2q (Some q2id)) in
  ret tt.

(** [transfer_qubits], the closure of [_route_quantum_info].  The list
    [qubits] is updated in place by the code; here the updated payload is
    returned.  A payload that is not a list of qubit entries fails where
    Python fails: at [enumerate] for [None], at [qubits[index]] or
    [qubits[index]['q_id']] for a string or a dictionary that is not
    empty. *)
Definition transfer_qubit (s r : string) (store : bool)
    (original_sender : option string) (q : qubit_entry) : M qubit_entry :=
  emit (Logger LOG ("transfer qubits - sending qubit " +:+ qe_q_id q)) ;;;
  let* hs := ARP_subscript s in
  let* name := get_host_name r in
  let* _ := host_call hs (cqc_sendQubit (qe_q q) name) in
  emit (Logger LOG ("transfer qubits - waiting to receive " +:+ qe_q_id q)) ;;;
  let* hr := ARP_subscript r in
  let* q' := host_call hr cqc_recvQubit in
  emit (Logger LOG ("transfer qubits - received " +:+ qe_q_id q)) ;;;
  let entry := QubitEntry q' (qe_q_id q) false in
  match store, original_sender with
  | true, Some origin =>
      let* hr := ARP_subscript r in
      let* _ := host_call hr (Host_add_data_qubit origin q' (qe_q_id q)) in
      ret entry
  | _, _ => ret entry
  end.

Fixpoint transfer_entries (s r : string) (store : bool)
    (original_sender : option string) (qs : list qubit_entry)
    : M (list qubit_entry) :=
  match qs with
  | [] => ret []
  | q :: qs' =>
      let* q' := transfer_qubit s r store original_sender q in
      let* rest := transfer_entries s r store original_sender qs' in
      ret (q' :: rest)
  end.

Definition transfer_qubits (s r : string) (store : bool)
    (original_sender : option string) (qubits : body) : M body :=
  match qubits with
  | BQubits qs =>
      let* qs' := transfer_entries s r store original_sender qs in
      ret (BQubits qs')
  | BNone => raise TypeError
  | BStr str => if decide (str = EmptyString) then ret qubits
                else raise TypeError
  | BDict d => if decide (d = ∅) then ret qubits else raise KeyError
  | BPacket _ => raise KeyError
  end.

(** [while i < len(route) - 1: ...; i += 1] *)
Fixpoint hops (route : list string) (indices : list nat) (qubits : body)
    : M body :=
  match indices with
  | [] => ret qubits
  | i :: rest =>
      let* ri := subscript route i in
      let* ri1 := subscript route (i + 1) in
      emit (Logger LOG ("sending qubits from " +:+ ri +:+ " to " +:+ ri1)) ;;;
      let* qubits' :=
        if decide (length (drop i route) ≠ 2) then
          let* ri := subscript route i in
          let* ri1 := subscript route (i + 1) in
          transfer_qubits ri ri1 false None qubits
        else
          let* ri := subscript route i in
          let* ri1 := subscript route (i + 1) in
          let* r0 := subscript route 0 in
          transfer_qubits ri ri1 true (Some r0) qubits in
      hops route rest qubits'
  end.

Definition _route_quantum_info (sender receiver : string) (qubits : body)
    : M body :=
  let* route := get_route sender receiver in
  hops route (seq 0 (length route - 1)) qubits.

Definition _encode (route : list string) (payload : body)
    (ttl : option Z) : M packet_dict :=
  let ttl := default 10%Z ttl in
  let* r1 := subscript route 1 in
  let* net := get_self in
  let* receiver :=
    if use_hop_by_hop net then subscript_last route
    else subscript route 2 in
  ret (Packet r1 receiver RELAY SIGNAL payload (Some ttl) (Some route)).

(** The first statement of the [try] block: the route of the packet. *)
Definition resolve_route (packet : packet_dict) : M (list string) :=
  let sender := packet_sender packet in
  let receiver := packet_receiver packet in
  let* net := get_self in
  if use_hop_by_hop net then get_route sender receiver
  else if decide (packet_protocol packet = RELAY) then
    let* full_route :=
      match packet_route packet with
      | Some r => ret r
      | None => raise KeyError
      end in
    match list_index sender full_route with
    | Some i => ret (drop i full_route)
    | None => raise ValueError
    end
  else get_route sender receiver.

(** The rest of the [try] block: what is done with the packet, given its
    route. *)
Definition dispatch (packet : packet_dict) (route : list string) : M unit :=
  let sender := packet_sender packet in
  let receiver := packet_receiver packet in
  if decide (length route < 2) then raise PlainException
  else if decide (length route = 2) then
    if decide (packet_protocol packet ≠ RELAY) then
      let* packet :=
        if decide (packet_protocol packet = REC_EPR) then
          let* host_sender := get_host sender in
          let* receiver_name := get_host_name receiver in
          let* hs := attribute host_sender in
          let* q := host_call hs (cqc_createEPR receiver_name) in
          let* q_id :=
            match packet_payload packet with
            | BNone => host_call hs (Host_add_epr receiver q None)
            | b =>
                let* given := payload_q_id b in
                host_call hs (Host_add_epr receiver q (Some given))
            end in
          ret (set_payload (BDict {["q_id" := q_id]}) packet)
        else ret packet in
      let* hr := ARP_subscript receiver in
      let* _ := host_call hr (Host_rec_packet (BPacket packet)) in
      ret tt
    else
      let* hr := ARP_subscript receiver in
      let* _ := host_call hr (Host_rec_packet (packet_payload packet)) in
      ret tt
  else
    if decide (packet_protocol packet = REC_EPR) then
      let* q_id := payload_q_id (packet_payload packet) in
      emit (DaemonThread_entanglement_swap sender receiver route q_id)
    else
      let* network_packet := _encode route (BPacket packet) None in
      let* r1 := subscript route 1 in
      let* h := ARP_subscript r1 in
      let* _ := host_call h (Host_rec_packet (BPacket network_packet)) in
      ret tt.

(** The three [except] clauses. *)
Definition handler (e : exn) : M unit :=
  match e with
  | NodeNotFound =>
      emit (Logger ERROR "route couldn't be calculated, node doesn't exist")
  | ValueError =>
      emit (Logger ERROR "route couldn't be calculated, value error")
  | e => emit (Logger ERROR ("Error in network: " +:+ str_exn e))
  end.

(** The statement before the [try] block: the qubits of a QUANTUM payload
    are moved along the route first. *)
Definition quantum_prepass (packet : packet_dict) : M packet_dict :=
  if decide (packet_payload_type packet = QUANTUM) then
    let* qubits := _route_quantum_info (packet_sender packet)
                     (packet_receiver packet) (packet_payload packet) in
    ret (set_payload qubits packet)
  else ret packet.

(** What one turn of the loop does with the packet it took from the
    queue. *)
Definition process_packet (packet : packet_dict) : M unit :=
  let* packet := quantum_prepass packet in
  try_except
    (let* route := resolve_route packet in dispatch packet route)
    handler.

(** [while True: ...].  One unit of fuel per turn; a turn that finds the
    queue empty does nothing. *)
Fixpoint _process_queue (fuel : nat) : M unit :=
  match fuel with
  | 0 => λ st, (Spin, st)
  | S fuel' =>
      let* net := get_self in
      if _stop_thread net then ret tt
      else
        match _packet_queue net with
        | [] => _process_queue fuel'
        | packet :: rest =>
            emit (Sleep (delay net)) ;;;
            modify_self (set_packet_queue rest) ;;;
            process_packet packet ;;;
            _process_queue fuel'
        end
  end.

Definition send (packet : packet_dict) : M unit :=
  modify_self (λ n, set_packet_queue (_packet_queue n ++ [packet]) n).

Definition stop : M unit :=
  emit (Logger LOG "Network stopped") ;;;
  modify_self (set_stop_thread true).

Definition start : M unit :=
  emit DaemonThread_process_queue ;;;
  modify_self (set_queue_processor_thread true).

End Methods.

(** ** A small network, used in the examples

    Three hosts on a line, Alice - Bob - Charlie, and hosts that answer
    every call: an EPR pair is reported as soon as it is asked for by
    Alice, and after a few polls by everyone else. *)

Definition Alice : Host := mkHost "Alice" ["Bob"] "alice-cqc".
Definition Bob : Host := mkHost "Bob" ["Alice"; "Charlie"] "bob-cqc".
Definition Charlie : Host := mkHost "Charlie" ["Bob"] "charlie-cqc".

Definition obliging : Peers := λ history h c,
  match c with
  | Host_get_epr _ =>
      if decide (host_id h = "Alice") then Returned (VEprPair 1%N "q-7")
      else if decide (8 ≤ length history) then Returned (VEprPair 2%N "q-7")
      else Returned VNone
  | Host_add_epr _ _ (Some q_id) => Returned q_id
  | Host_add_epr _ _ None => Returned (VStr "minted")
  | Host_shares_epr _ => Returned (VBool false)
  | cqc_createEPR _ => Returned (VQubit 5%N)
  | cqc_recvQubit => Returned (VQubit 6%N)
  | _ => Returned VNone
  end.

Definition fresh : state := mkState Network_init [].

Definition registered (hosts : list Host) : state :=
  (for_each hosts add_host fresh).2.

Definition line : state := registered [Alice; Bob; Charlie].

Definition pair : state := registered [Alice; Bob].


(** ** Vocabulary of the statements *)

(** A call that hands something to a host's inbound handler, or that
    starts a swap on behalf of a packet. *)
Definition is_delivery (e : event) : bool :=
  match e with
  | HostCall _ (Host_rec_packet _) _ => true
  | DaemonThread_entanglement_swap _ _ _ _ => true
  | _ => false
  end.

(** A computation is [tame] when, from every state, it comes back (it
    never spins), leaves the network object as it found it, only adds
    calls that satisfy [P] to the record, and returns, when it returns, a
    result that satisfies [Q]. *)
Definition tame {A} (P : event → Prop) (Q : A → Prop) (m : M A) : Prop :=
  ∀ st,
    (m st).1 ≠ Spin
    ∧ self (m st).2 = self st
    ∧ (∃ new, calls (m st).2 = calls st ++ new ∧ Forall P new)
    ∧ (∀ a, (m st).1 = Ok a → Q a).

Abbreviation any := (λ _, True).

(** The state of the loop right after it took the head of the queue. *)
Definition dequeued (st : state) (rest : list packet_dict) : state :=
  mkState (set_packet_queue rest (self st))
          (calls st ++ [Sleep (delay (self st))]).


(** What [dispatch] may hand to the inbound handler of a host when it
    works on [packet]: the packet itself, its payload possibly replaced by
    [{'q_id': ...}]; the payload of a relay packet; or a relay envelope
    that the encoder built around the packet, called without [ttl]. *)
Inductive handed (packet : packet_dict) : body → Prop :=
| handed_packet pl :
    handed packet (BPacket (set_payload pl packet))
| handed_payload :
    packet_protocol packet = RELAY →
    handed packet (packet_payload packet)
| handed_envelope route st envelope :
    _encode route (BPacket packet) None st = (Ok envelope, st) →
    handed packet (BPacket envelope).

(** The calls recorded by [after] and not yet by [before]. *)
Definition new_calls (before after : state) : list event :=
  drop (length (calls before)) (calls after).


(** What the quantum mover can return for a payload [b]: [b] itself, or a
    list of qubit entries. *)
Definition moved (b : body) : body → Prop :=
  λ b', b' = b ∨ ∃ qs, b' = BQubits qs.

(** The state [st] with the packets [ps] waiting in the queue. *)
Definition queued (st : state) (ps : list packet_dict) : state :=
  mkState (set_packet_queue ps (self st)) (calls st).

(** Packets of the examples. *)
Definition greeting : packet_dict :=
  Packet "Alice" "Bob" (OtherProtocol "send_classical") CLASSICAL
         (BStr "hello") None None.

Definition stray_greeting : packet_dict :=
  Packet "Zed" "Bob" (OtherProtocol "send_classical") CLASSICAL
         (BStr "hello") None None.

Definition stray_qubits : packet_dict :=
  Packet "Zed" "Bob" (OtherProtocol "send_qubit") QUANTUM
         (BQubits [QubitEntry (VQubit 3%N) "q-1" false]) None None.

Definition epr_request : packet_dict :=
  Packet "Alice" "Bob" REC_EPR SIGNAL
         (BDict {["q_id" := VStr "q-42"]}) None None.


Definition to_self : packet_dict :=
  Packet "Alice" "Alice" (OtherProtocol "send_classical") CLASSICAL
         (BStr "note") None None.


(** A relay envelope inside a relay packet, as it travels on a line of
    four or more hosts: the inner envelope is one hop older, and a
    forwarding host has counted its TTL down to 9. *)
Definition worn_envelope : packet_dict :=
  Packet "Bob" "Charlie" RELAY SIGNAL (BPacket greeting)
         (Some 9%Z) (Some ["Alice"; "Bob"; "Charlie"]).

Definition last_hop : packet_dict :=
  Packet "Bob" "Charlie" RELAY SIGNAL (BPacket worn_envelope)
         (Some 10%Z) (Some ["Bob"; "Charlie"]).

(** The fields of a packet other than its TTL, at every depth. *)
Fixpoint forget_TTL (p : packet_dict) : packet_dict :=
  match p with
  | Packet s r pr pt b _ ro => Packet s r pr pt (forget_TTL_body b) None ro
  end
with forget_TTL_body (b : body) : body :=
  match b with
  | BPacket p => BPacket (forget_TTL p)
  | b => b
  end.

Definition forget_TTL_call (c : call) : call :=
  match c with
  | Host_rec_packet b => Host_rec_packet (forget_TTL_body b)
  | c => c
  end.

Definition forget_TTL_event (e : event) : event :=
  match e with
  | HostCall h c r => HostCall h (forget_TTL_call c) r
  | e => e
  end.

(** Hosts whose replies do not depend on the TTL fields of what they are
    handed. *)
Definition TTL_blind (peers : Peers) : Prop :=
  ∀ history history' h c c',
    forget_TTL_event <$> history = forget_TTL_event <$> history' →
    forget_TTL_call c = forget_TTL_call c' →
    peers history h c = peers history' h c'.

(** Two computations that, from states that agree up to TTL fields, do the
    same thing up to TTL fields. *)
Definition outcome_rel {A} (R : A → A → Prop) (o o' : outcome A) : Prop :=
  match o, o' with
  | Ok a, Ok a' => R a a'
  | Raise e, Raise e' => e = e'
  | Spin, Spin => True
  | _, _ => False
  end.

Definition state_rel (st st' : state) : Prop :=
  self st = self st'
  ∧ forget_TTL_event <$> calls st = forget_TTL_event <$> calls st'.

Definition TTL_alike {A} (R : A → A → Prop) (m m' : M A) : Prop :=
  ∀ st st', state_rel st st' →
    outcome_rel R (m st).1 (m' st').1 ∧ state_rel (m st).2 (m' st').2.


Definition body_alike (b b' : body) : Prop :=
  forget_TTL_body b = forget_TTL_body b'.

Definition packet_alike (p p' : packet_dict) : Prop :=
  forget_TTL p = forget_TTL p'.

(** *** Hosts that cooperate with a swap *)

(** The host always returns from the call. *)
Definition answers (peers : Peers) (h : Host) (c : call) : Prop :=
  ∀ history, ∃ v, peers history h c = Returned v.

(** The host takes requests to create a pair, packets, and pairs to
    file. *)
Definition accepts (peers : Peers) (h : Host) : Prop :=
  ∀ c,
    match c with
    | Host_send_epr _ _ _ | Host_rec_packet _ | Host_add_epr _ _ _ =>
        answers peers h c
    | _ => True
    end.

(** Asked for its pair with [partner], the host says [None] a number of
    times and then returns the pair. *)
Definition eventually_holds (peers : Peers) (h : Host) (partner : string)
    : Prop :=
  ∀ history, ∃ k q q_id,
    let none := HostCall h (Host_get_epr partner) (Returned VNone) in
    (∀ j, j < k →
       peers (history ++ repeat none j) h (Host_get_epr partner)
       = Returned VNone)
    ∧ peers (history ++ repeat none k) h (Host_get_epr partner)
      = Returned (VEprPair q q_id).

(** The host returns its pair with [partner] whenever it is asked. *)
Definition holds (peers : Peers) (h : Host) (partner : string) : Prop :=
  ∀ history, ∃ q q_id,
    peers history h (Host_get_epr partner) = Returned (VEprPair q q_id).

(** *** The calls of a swap *)

(** The [i]-th call of the first loop: the host of [route[i]] is asked to
    create a pair with [route[i + 1]], under the id of the swap. *)
Definition creation (st : state) (route : list string) (q_id : value)
    (i : nat) (e : event) : Prop :=
  ∃ ri ri1 h v,
    route !! i = Some ri ∧ route !! (i + 1) = Some ri1
    ∧ ARP (self st) !! ri = Some h
    ∧ e = HostCall h (Host_send_epr ri1 q_id true) (Returned v).

(** The data a hop is handed in the second loop. *)
Definition teleport_data (sender : string) (q : qubit) (q_id : string)
    : body :=
  BDict (<["q" := VQubit q]> (<["q_id" := VStr q_id]>
           (<["node" := VStr sender]> {["type" := VEPR]}))).

(** The [i]-th turn of the second loop: the host of [route[i + 1]] is
    polled for its pair with [route[0]] until it returns one, and is then
    handed a SEND_TELEPORT packet of payload type SIGNAL, addressed to
    [route[i + 2]], that carries this pair. *)
Definition transfer (st : state) (route : list string)
    (sender receiver : string) (i : nat) (group : list event) : Prop :=
  ∃ r0 ri1 ri2 h k q q_id v,
    route !! 0 = Some r0 ∧ route !! (i + 1) = Some ri1
    ∧ route !! (i + 2) = Some ri2
    ∧ ARP (self st) !! ri1 = Some h
    ∧ group =
        repeat (HostCall h (Host_get_epr r0) (Returned VNone)) k
        ++ [HostCall h (Host_get_epr r0) (Returned (VEprPair q q_id));
            Logger LOG (sender +:+ " sends EPR to " +:+ receiver);
            HostCall h
              (Host_rec_packet
                 (BPacket (protocols_encode ri1 ri2 SEND_TELEPORT
                             (teleport_data sender q q_id) SIGNAL)))
              (Returned v)].


(** The calls of a whole swap, in order: the creations, one per
    consecutive pair of the route; the transfers, one per interior host;
    then the sender's host is asked for its pair with [route[1]] and files
    it again as a pair with the receiver. *)
Definition swap_calls (st : state) (sender receiver : string)
    (route : list string) (q_id : value) (new : list event) : Prop :=
  ∃ hs r1 created groups q2 q2_id v,
    ARP (self st) !! sender = Some hs
    ∧ route !! 1 = Some r1
    ∧ length created = length route - 1
    ∧ Forall2 (creation st route q_id) (seq 0 (length route - 1)) created
    ∧ length groups = length route - 2
    ∧ Forall2 (transfer st route sender receiver)
              (seq 0 (length route - 2)) groups
    ∧ new = created ++ concat groups
            ++ [HostCall hs (Host_get_epr r1) (Returned (VEprPair q2 q2_id));
                HostCall hs
                  (Host_add_epr receiver (VQubit q2) (Some (VStr q2_id)))
                  (Returned v)].

(** *** Routes *)

(** Every two consecutive names of [p] are joined by an edge of [g]. *)
Definition walk (g : DiGraph) (p : list string) : Prop :=
  ∀ i u v, p !! i = Some u → p !! (S i) = Some v → has_edge g u v = true.

(** [p] leads from [source] to [target] along edges of [g]. *)
Definition leads (g : DiGraph) (source target : string) (p : list string)
    : Prop :=
  head p = Some source ∧ last p = Some target ∧ walk g p.

(** [target] can be reached from [source] along edges of [g]. *)
Definition connected (g : DiGraph) (source target : string) : Prop :=
  rtc (λ u v, has_edge g u v = true) source target.

(** What holds of the search between two levels: every recorded path
    leads from the source to its node, and a node that was reached is
    either waiting in the next level or has all its successors reached. *)
Record searching (g : DiGraph) (source : string)
    (paths : gmap string (list string)) (level : list string) : Prop := {
  searching_source : is_Some (paths !! source);
  searching_sound : ∀ v p, paths !! v = Some p → leads g source v p;
  searching_level : ∀ v, v ∈ level → is_Some (paths !! v);
  searching_closed :
    ∀ v, is_Some (paths !! v) →
      v ∈ level ∨ ∀ w, has_edge g v w = true → is_Some (paths !! w);
  searching_bound : dom paths ⊆ vertices g
}.

(** What holds inside a level that started from the paths [before]: the
    paths recorded before are still there, and a new one is the path of a
    node of the level with one more name. *)
Record expanding (g : DiGraph) (source : string)
    (before : gmap string (list string)) (level : list string)
    (st : gmap string (list string) * list string) : Prop := {
  expanding_mono : before ⊆ st.1;
  expanding_sound : ∀ v p, st.1 !! v = Some p → leads g source v p;
  expanding_fresh :
    ∀ w, w ∈ st.2 → is_Some (st.1 !! w) ∧ before !! w = None;
  expanding_old :
    ∀ v, is_Some (st.1 !! v) → is_Some (before !! v) ∨ v ∈ st.2;
  expanding_bound : dom st.1 ⊆ vertices g;
  expanding_origin :
    ∀ w p, st.1 !! w = Some p →
      before !! w = Some p
      ∨ (before !! w = None
         ∧ ∃ v pv, v ∈ level ∧ before !! v = Some pv ∧ p = pv ++ [w])
}.

(** What holds of the lengths at level [k]: the nodes of the level are
    those whose path has [k + 1] names, no path is longer, and every node
    that some walk of at most [k + 1] names reaches has a path that is
    not longer than that walk. *)
Record measured (g : DiGraph) (source : string) (k : nat)
    (paths : gmap string (list string)) (level : list string) : Prop := {
  measured_length : ∀ v p, paths !! v = Some p → length p ≤ S k;
  measured_level :
    ∀ v, v ∈ level ↔ ∃ p, paths !! v = Some p ∧ length p = S k;
  measured_least :
    ∀ v q, leads g source v q → length q ≤ S k →
      ∃ p, paths !! v = Some p ∧ length p ≤ length q
}.

(** ** The network in use *)

(** [follows peers st0 st]: the state [st] is what the state [st0] has
    become after some sequence of calls of the methods of the network, each
    run to its end (or to the exception it raises) before the next. *)
Inductive follows (peers : Peers) (st0 : state) : state → Prop :=
| follows_refl : follows peers st0 st0
| follows_set_routing_algo st algorithm :
    follows peers st0 st →
    follows peers st0 (set_routing_algo algorithm st).2
| follows_set_delay st d :
    follows peers st0 st → follows peers st0 (set_delay d st).2
| follows_add_host st host :
    follows peers st0 st → follows peers st0 (add_host host st).2
| follows_remove_host st host :
    follows peers st0 st → follows peers st0 (remove_host host st).2
| follows_remove_network_node st host :
    follows peers st0 st →
    follows peers st0 (_remove_network_node host st).2
| follows_shares_epr st sender receiver :
    follows peers st0 st →
    follows peers st0 (shares_epr peers sender receiver st).2
| follows_get_host st k :
    follows peers st0 st → follows peers st0 (get_host k st).2
| follows_get_ARP st :
    follows peers st0 st → follows peers st0 (get_ARP st).2
| follows_get_host_name st k :
    follows peers st0 st → follows peers st0 (get_host_name k st).2
| follows_get_route st source dest :
    follows peers st0 st → follows peers st0 (get_route source dest st).2
| follows_entanglement_swap st fuel sender receiver route q_id :
    follows peers st0 st →
    follows peers st0
      (_entanglement_swap peers fuel sender receiver route q_id st).2
| follows_route_quantum_info st sender receiver qubits :
    follows peers st0 st →
    follows peers st0 (_route_quantum_info peers sender receiver qubits st).2
| follows_process_queue st fuel :
    follows peers st0 st → follows peers st0 (_process_queue peers fuel st).2
| follows_send st packet :
    follows peers st0 st → follows peers st0 (send packet st).2
| follows_stop st :
    follows peers st0 st → follows peers st0 (stop st).2
| follows_start st :
    follows peers st0 st → follows peers st0 (start st).2
| follows_encode st route payload ttl :
    follows peers st0 st → follows peers st0 (_encode route payload ttl st).2.

(** A computation that leaves the network object as it found it. *)
Definition steady {A} (m : M A) : Prop := ∀ st, self (m st).2 = self st.


(** What the [try] statement adds to the record after a call on a host
    that replied [r]: nothing when the call returned, one logged error
    when it raised. *)
Definition caught (r : reply) (tail : list event) : Prop :=
  match r with
  | Returned _ => tail = []
  | Raised _ => ∃ msg, tail = [Logger ERROR msg]
  end.

(** Packets for a host two hops away. *)
Definition far_greeting : packet_dict :=
  Packet "Alice" "Charlie" (OtherProtocol "send_classical") CLASSICAL
         (BStr "hello") None None.

Definition far_epr_request : packet_dict :=
  Packet "Alice" "Charlie" REC_EPR SIGNAL
         (BDict {["q_id" := VStr "q-42"]}) None None.

(** Alice on her own: Bob is a node of the graph, as a connection she
    declares, and no host is registered under his name. *)
Definition alone : state := registered [Alice].

Definition epr_request_back : packet_dict :=
  Packet "Bob" "Alice" REC_EPR SIGNAL
         (BDict {["q_id" := VStr "q-43"]}) None None.

(** A relay packet that records a route, as the sender of the second
    host of that route. *)
Definition recorded : packet_dict :=
  Packet "Bob" "Charlie" RELAY SIGNAL (BPacket far_greeting)
         (Some 10%Z) (Some ["Alice"; "Bob"; "Charlie"]).

(** The network of the three hosts when it does not route hop by hop;
    no method sets this, the field is assigned from outside. *)
Definition source_routed : state :=
  mkState
    (mkNetwork (ARP (self line)) (network (self line))
       (routing_algo (self line)) false (_packet_queue (self line))
       (_stop_thread (self line)) (_queue_processor_thread (self line))
       (delay (self line)))
    (calls line).

(** *** The calls of the quantum mover *)

(** One qubit over one hop, from the host of [s] to the host of [r]: the
    backend of the first is told to send the qubit to the backend name of
    the second, the backend of the second is asked for what it received,
    and the entry now holds that qubit and is not blocked.  With [store],
    the host of [r] is also told to keep the qubit as a data qubit from
    [origin]. *)
Definition qubit_hop (net : Network) (s r : string) (store : option string)
    (q q' : qubit_entry) (group : list event) : Prop :=
  ∃ hs hr sent got tail,
    ARP net !! s = Some hs
    ∧ ARP net !! r = Some hr
    ∧ q' = QubitEntry got (qe_q_id q) false
    ∧ group =
        [Logger LOG ("transfer qubits - sending qubit " +:+ qe_q_id q);
         HostCall hs (cqc_sendQubit (qe_q q) (Some (cqc_name hr)))
           (Returned sent);
         Logger LOG ("transfer qubits - waiting to receive " +:+ qe_q_id q);
         HostCall hr cqc_recvQubit (Returned got);
         Logger LOG ("transfer qubits - received " +:+ qe_q_id q)]
        ++ tail
    ∧ match store with
      | Some origin =>
          ∃ v, tail = [HostCall hr
                         (Host_add_data_qubit origin got (qe_q_id q))
                         (Returned v)]
      | None => tail = []
      end.

(** All the qubits of the payload over one hop, one after the other. *)
Inductive hop_qubits (net : Network) (s r : string) (store : option string)
    : list qubit_entry → list qubit_entry → list event → Prop :=
| hop_qubits_nil : hop_qubits net s r store [] [] []
| hop_qubits_cons q q' group qs qs' new :
    qubit_hop net s r store q q' group →
    hop_qubits net s r store qs qs' new →
    hop_qubits net s r store (q :: qs) (q' :: qs') (group ++ new).

(** The hops of the indices [indices] of the route, in that order: each
    is announced in the log and moves the whole payload one host further;
    the hop that has exactly two hosts of the route left stores the
    qubits, as data qubits from the first host of the route. *)
Inductive relayed (net : Network) (route : list string)
    : list nat → list qubit_entry → list qubit_entry → list event → Prop :=
| relayed_nil qs : relayed net route [] qs qs []
| relayed_cons i rest ri ri1 qs qs1 qs2 new1 new2 :
    route !! i = Some ri →
    route !! (i + 1) = Some ri1 →
    hop_qubits net ri ri1
      (if decide (length (drop i route) = 2) then route !! 0 else None)
      qs qs1 new1 →
    relayed net route rest qs1 qs2 new2 →
    relayed net route (i :: rest) qs qs2
      (Logger LOG ("sending qubits from " +:+ ri +:+ " to " +:+ ri1)
       :: new1 ++ new2).

(** The backend of the host sends and receives qubits, and the host
    stores data qubits, whenever asked. *)
Definition carries (peers : Peers) (h : Host) : Prop :=
  ∀ c,
    match c with
    | cqc_sendQubit _ _ | cqc_recvQubit | Host_add_data_qubit _ _ _ =>
        answers peers h c
    | _ => True
    end.

(** The data qubit a call stores, with the host that stores it and the
    host it is said to come from. *)
Definition stored (e : event) : option (Host * string * value * string) :=
  match e with
  | HostCall h (Host_add_data_qubit origin q q_id) _ =>
      Some (h, origin, q, q_id)
  | _ => None
  end.

(** A qubit in Alice's hands, blocked while it waits to be sent. *)
Definition held_qubit : qubit_entry := QubitEntry (VQubit 3%N) "q-1" true.

(** A packet that carries a qubit from Alice to Bob. *)
Definition qubit_packet : packet_dict :=
  Packet "Alice" "Bob" (OtherProtocol "send_qubit") QUANTUM
         (BQubits [held_qubit]) None None.



(** * Properties *)

(** ** The topology graph *)

Section Graph.

Implicit Types (g : DiGraph) (u v h c : string).

Lemma has_edge_weight g u v :
  has_edge g u v = bool_decide (is_Some (edge_weight g u v)).
Proof.
  unfold has_edge, edge_weight. by destruct (g !! u).
Qed.

Lemma has_edge_true g u v :
  has_edge g u v = true ↔ is_Some (edge_weight g u v).
Proof. rewrite has_edge_weight. apply bool_decide_eq_true. Qed.

Lemma has_edge_false g u v :
  has_edge g u v = false ↔ edge_weight g u v = None.
Proof.
  rewrite has_edge_weight, bool_decide_eq_false.
  rewrite <- eq_None_not_Some. done.
Qed.

Lemma has_node_true g u : has_node g u = true ↔ is_Some (g !! u).
Proof. apply bool_decide_eq_true. Qed.

Lemma add_node_lookup n g u :
  add_node n g !! u =
    if decide (u = n) then Some (default ∅ (g !! n)) else g !! u.
Proof.
  unfold add_node. destruct (g !! n) as [nb|] eqn:E.
  - case_decide; subst; simpl; done.
  - case_decide; subst; simpl.
    + by rewrite lookup_insert_eq.
    + by rewrite lookup_insert_ne.
Qed.

Lemma add_edge_lookup a b w g u :
  add_edge a b w g !! u =
    if decide (u = a) then Some (<[b := w]> (default ∅ (g !! a)))
    else if decide (u = b) then Some (default ∅ (g !! b))
    else g !! u.
Proof.
  unfold add_edge.
  destruct (decide (u = a)) as [->|Hua].
  - rewrite lookup_insert_eq. f_equal. f_equal.
    rewrite !add_node_lookup.
    repeat case_decide; simplify_eq/=; done.
  - rewrite lookup_insert_ne by done.
    rewrite !add_node_lookup.
    repeat case_decide; simplify_eq/=; done.
Qed.

Lemma edge_weight_None_default g (a v : string) :
  default ∅ (g !! a) !! v = edge_weight g a v.
Proof.
  unfold edge_weight. destruct (g !! a); simpl; [done|apply lookup_empty].
Qed.

Lemma edge_weight_add_edge a b w g u v :
  edge_weight (add_edge a b w g) u v =
    if decide (u = a ∧ v = b) then Some w else edge_weight g u v.
Proof.
  unfold edge_weight at 1. rewrite add_edge_lookup.
  repeat case_decide; destruct_and?; simplify_eq/=;
    rewrite ?lookup_insert_eq, ?edge_weight_None_default; try done.
  all: try (rewrite lookup_insert_ne by naive_solver;
            apply edge_weight_None_default).
  all: try naive_solver.
Qed.

Lemma edge_weight_connect h g c u v :
  edge_weight (connect h g c) u v =
    if decide ((u = h ∧ v = c) ∨ (u = c ∧ v = h))
    then Some (default 1%Z (edge_weight g u v))
    else edge_weight g u v.
Proof.
  unfold connect.
  destruct (has_edge g h c) eqn:E1;
    [apply has_edge_true in E1 as [w1 E1]|apply has_edge_false in E1];
  (destruct (has_edge _ c h) eqn:E2;
    [apply has_edge_true in E2 as [w2 E2]|apply has_edge_false in E2]);
  rewrite ?edge_weight_add_edge in *;
  repeat case_decide; destruct_and?; destruct_or?; destruct_and?;
    simplify_eq/=; rewrite ?E1, ?E2; try done; try naive_solver.
Qed.

Lemma add_node_id n g : is_Some (g !! n) → add_node n g = g.
Proof. intros [nb E]. unfold add_node. by rewrite E. Qed.

Lemma add_node_has_node n g : has_node (add_node n g) n = true.
Proof.
  apply has_node_true. rewrite add_node_lookup.
  by rewrite decide_True.
Qed.

Lemma edge_weight_add_node n g u v :
  edge_weight (add_node n g) u v = edge_weight g u v.
Proof.
  unfold edge_weight at 1. rewrite add_node_lookup.
  case_decide; [subst; simpl|done]. apply edge_weight_None_default.
Qed.

Lemma dom_add_node n g : dom (add_node n g) = {[n]} ∪ dom g.
Proof.
  unfold add_node. destruct (g !! n) as [nb|] eqn:E.
  - apply elem_of_dom_2 in E. set_solver.
  - by rewrite dom_insert_L.
Qed.

Lemma dom_add_edge a b w g : dom (add_edge a b w g) = {[a; b]} ∪ dom g.
Proof.
  unfold add_edge. rewrite dom_insert_L, !dom_add_node. set_solver.
Qed.

Lemma connect_id h g c :
  has_edge g h c = true → has_edge g c h = true → connect h g c = g.
Proof. intros E1 E2. unfold connect. by rewrite E1, E2. Qed.

Lemma dom_connect h g c : dom g ⊆ dom (connect h g c).
Proof.
  unfold connect.
  destruct (has_edge g h c); destruct (has_edge _ c h);
    rewrite ?dom_add_edge; set_solver.
Qed.

Lemma dom_foldl_connect h cs g : dom g ⊆ dom (foldl (connect h) g cs).
Proof.
  revert g. induction cs as [|c cs IH]; intros g; simpl; [done|].
  etrans; [apply (dom_connect h g c)|apply IH].
Qed.

Lemma edge_weight_foldl_connect h cs g u v :
  edge_weight (foldl (connect h) g cs) u v =
    if decide ((u = h ∧ v ∈ cs) ∨ (v = h ∧ u ∈ cs))
    then Some (default 1%Z (edge_weight g u v))
    else edge_weight g u v.
Proof.
  revert g. induction cs as [|c cs IH]; intros g; simpl.
  - case_decide as H; [|done].
    destruct H as [[_ H]|[_ H]]; by apply not_elem_of_nil in H.
  - rewrite IH, edge_weight_connect.
    repeat case_decide; try done.
    all: try (exfalso; set_solver).
Qed.

Lemma edge_weight_update_graph host g u v :
  edge_weight (update_graph host g) u v =
    if decide ((u = host_id host ∧ v ∈ connections host)
               ∨ (v = host_id host ∧ u ∈ connections host))
    then Some (default 1%Z (edge_weight g u v))
    else edge_weight g u v.
Proof.
  unfold update_graph.
  rewrite edge_weight_foldl_connect, edge_weight_add_node. done.
Qed.

Lemma has_node_update_graph host g :
  has_node (update_graph host g) (host_id host) = true.
Proof.
  apply has_node_true, elem_of_dom. unfold update_graph.
  apply dom_foldl_connect, elem_of_dom, has_node_true, add_node_has_node.
Qed.

Lemma foldl_connect_id h cs g :
  (∀ c, c ∈ cs → has_edge g h c = true ∧ has_edge g c h = true) →
  foldl (connect h) g cs = g.
Proof.
  induction cs as [|c cs IH]; intros H; simpl; [done|].
  destruct (H c) as [E1 E2]; [apply list_elem_of_here|].
  rewrite connect_id by done.
  apply IH. intros c' Hc'. apply H. by apply list_elem_of_further.
Qed.

(** Once the edges of a host are in the graph, registering it again
    leaves the graph as it is. *)
Lemma update_graph_idempotent host g :
  update_graph host (update_graph host g) = update_graph host g.
Proof.
  unfold update_graph at 1.
  rewrite add_node_id
    by (apply has_node_true, has_node_update_graph).
  apply foldl_connect_id. intros c Hc.
  split; apply has_edge_true; rewrite edge_weight_update_graph;
    (case_decide as H; [done|]); exfalso; apply H; auto.
Qed.

(** Registering a host never removes an edge. *)
Lemma has_edge_update_graph_mono host g u v :
  has_edge g u v = true → has_edge (update_graph host g) u v = true.
Proof.
  rewrite !has_edge_true, edge_weight_update_graph.
  intros [w E]. rewrite E. by case_decide.
Qed.

(** The graph has at most one edge from one node to another. *)
Lemma edges_NoDup g : NoDup (edges g).
Proof.
  unfold edges.
  pose proof (NoDup_fst_map_to_list g) as Hkeys.
  induction (map_to_list g) as [|[u nbrs] l IH]; simpl; [constructor|].
  apply NoDup_cons in Hkeys as [Hu Hl].
  apply NoDup_app. split_and!.
  - apply NoDup_fmap_2_strong; [|apply NoDup_fst_map_to_list].
    by intros ?? _ _ [= ->].
  - intros [a b] Hin Hin'.
    apply list_elem_of_fmap in Hin as (v & [= -> ->] & _).
    apply list_elem_of_bind in Hin' as ([u' nbrs'] & Hin' & Hl').
    apply list_elem_of_fmap in Hin' as (v' & [= -> ->] & _).
    apply Hu, list_elem_of_fmap. by exists (u', nbrs').
  - by apply IH.
Qed.

Lemma elem_of_edges g u v : (u, v) ∈ edges g ↔ has_edge g u v = true.
Proof.
  unfold edges, has_edge. rewrite list_elem_of_bind. split.
  - intros ([u' nbrs] & Hv & Hin).
    apply elem_of_map_to_list in Hin.
    apply list_elem_of_fmap in Hv as (v' & [= -> ->] & Hv).
    simpl in *. rewrite Hin. apply bool_decide_eq_true.
    apply list_elem_of_fmap in Hv as ([v'' w] & -> & Hv).
    apply elem_of_map_to_list in Hv. eauto.
  - destruct (g !! u) as [nbrs|] eqn:Hu; [|done].
    rewrite bool_decide_eq_true. intros [w Hw].
    exists (u, nbrs). split.
    + apply list_elem_of_fmap. exists v. split; [done|].
      apply list_elem_of_fmap. exists (v, w). split; [done|].
      by apply elem_of_map_to_list.
    + by apply elem_of_map_to_list.
Qed.

End Graph.

(** ** Registration: [add_host], [remove_host] *)

Lemma add_host_run host st :
  add_host host st =
    (Ok tt,
     mkState (set_network (update_graph host)
                (set_ARP <[host_id host := host]> (self st)))
             (calls st ++ [Logger DEBUG ("host added: " +:+ host_id host)])).
Proof. reflexivity. Qed.

(** C5.  [add_host] registers the host in the ARP table, adds its node to
    the graph and, for every declared connection, makes sure that both
    directed edges exist: a direction that is already there is left as it
    is (it keeps its weight), a missing one is added with weight 1, and no
    other edge changes.  Registering the same host again therefore leaves
    graph and ARP table as they are (the list of edges is the same, and
    it never holds an edge twice), and once a host that declares
    [other] as a connection is registered, both edges between the two
    exist, whichever of the two was registered first. *)
Theorem C5_add_host (host other : Host) (st : state) :
  let g := network (self st) in
  let st1 := (add_host host st).2 in
  (add_host host st).1 = Ok tt
  ∧ ARP (self st1) = <[host_id host := host]> (ARP (self st))
  ∧ has_node (network (self st1)) (host_id host) = true
  ∧ (∀ u v,
       edge_weight (network (self st1)) u v =
         if decide ((u = host_id host ∧ v ∈ connections host)
                    ∨ (v = host_id host ∧ u ∈ connections host))
         then Some (default 1%Z (edge_weight g u v))
         else edge_weight g u v)
  ∧ (let st2 := (add_host host st1).2 in
     network (self st2) = network (self st1)
     ∧ edges (network (self st2)) = edges (network (self st1))
     ∧ NoDup (edges (network (self st2)))
     ∧ ARP (self st2) = ARP (self st1))
  ∧ (host_id other ∈ connections host →
     ∀ st', st' = (add_host other st1).2
            ∨ st' = (add_host host (add_host other st).2).2 →
       has_edge (network (self st')) (host_id host) (host_id other) = true
       ∧ has_edge (network (self st')) (host_id other) (host_id host)
         = true).
Proof.
  cbv zeta. rewrite !add_host_run. simpl.
  split_and!; try done.
  - apply has_node_update_graph.
  - apply edge_weight_update_graph.
  - apply update_graph_idempotent.
  - by rewrite update_graph_idempotent.
  - apply edges_NoDup.
  - apply insert_insert_eq.
  - intros Hin st' [->| ->]; rewrite ?add_host_run; simpl.
    + split; apply has_edge_update_graph_mono, has_edge_true;
        rewrite edge_weight_update_graph;
        (case_decide as H; [done|]); exfalso; apply H; auto.
    + split; apply has_edge_true;
        rewrite edge_weight_update_graph;
        (case_decide as H; [done|]); exfalso; apply H; auto.
Qed.

Lemma C5_add_host_witness :
  let first_alice := (add_host Bob (add_host Alice fresh).2).2 in
  let first_bob := (add_host Alice (add_host Bob fresh).2).2 in
  (has_edge (network (self first_alice)) "Alice" "Bob" = true
   ∧ has_edge (network (self first_alice)) "Bob" "Alice" = true)
  ∧ (has_edge (network (self first_bob)) "Alice" "Bob" = true
     ∧ has_edge (network (self first_bob)) "Bob" "Alice" = true).
Proof.
  destruct (C5_add_host Alice Bob fresh) as (_ & _ & _ & _ & _ & H).
  assert (host_id Bob ∈ connections Alice) as Hin
    by (simpl; apply list_elem_of_here).
  split; apply (H Hin); [left|right]; reflexivity.
Defined.

(** C7.  [remove_host] deletes the entry of the host from the ARP table
    and nothing else: the graph keeps every node and every edge, every
    other entry of the table stays, nothing is logged and nothing is
    raised; for a host that is not in the table the network is left
    exactly as it was. *)
Theorem C7_remove_host (host : Host) (st : state) :
  let st' := (remove_host host st).2 in
  (remove_host host st).1 = Ok tt
  ∧ network (self st') = network (self st)
  ∧ ARP (self st') = delete (host_id host) (ARP (self st))
  ∧ (∀ k, k ≠ host_id host → ARP (self st') !! k = ARP (self st) !! k)
  ∧ calls st' = calls st
  ∧ (ARP (self st) !! host_id host = None → st' = st).
Proof.
  unfold remove_host, bind, get_self. simpl.
  destruct (decide (is_Some (ARP (self st) !! host_id host))) as [Hin|Hout];
    simpl.
  - split_and!; try done.
    + intros k Hk. by rewrite lookup_delete_ne.
    + intros E. rewrite E in Hin. by destruct Hin.
  - apply eq_None_not_Some in Hout.
    split_and!; try done.
    + by rewrite delete_id.
Qed.

Lemma C7_remove_host_witness :
  (remove_host Charlie pair).2 = pair
  ∧ ARP (self (remove_host Alice pair).2) !! "Bob" = Some Bob.
Proof.
  destruct (C7_remove_host Charlie pair) as (_ & _ & _ & _ & _ & H).
  destruct (C7_remove_host Alice pair) as (_ & _ & _ & H' & _).
  split.
  - apply H. reflexivity.
  - rewrite (H' "Bob"); [reflexivity|discriminate].
Defined.

(** ** The relay encoder *)

(** C2.  For a route of at least three hosts, [_encode] returns, without
    touching the network, the relay packet whose sender is [route[1]],
    whose payload is the packet it was given, whose protocol is RELAY,
    whose payload type is SIGNAL, whose route is the route it was given,
    whose TTL is the [ttl] argument (10 when it is left out), and whose
    receiver is [route[-1]] in hop-by-hop mode and [route[2]] otherwise. *)
Theorem C2_encode (route : list string) (inner : packet_dict)
    (ttl : option Z) (st : state) :
  3 ≤ length route →
  ∃ r1 r2 r_last,
    route !! 1 = Some r1 ∧ route !! 2 = Some r2 ∧ last route = Some r_last
    ∧ _encode route (BPacket inner) ttl st =
        (Ok (Packet r1
               (if use_hop_by_hop (self st) then r_last else r2)
               RELAY SIGNAL (BPacket inner)
               (Some (match ttl with Some t => t | None => 10%Z end))
               (Some route)),
         st).
Proof.
  intros Hlen.
  destruct route as [|r0 [|r1 [|r2 rest]]]; simpl in Hlen; try lia.
  destruct (last (r0 :: r1 :: r2 :: rest)) as [r_last|] eqn:El.
  2:{ apply last_None in El. discriminate. }
  exists r1, r2, r_last. split_and!; try done.
  unfold _encode, bind, subscript, subscript_last, get_self, ret.
  cbn [lookup list_lookup]. rewrite El.
  destruct ttl; by destruct (use_hop_by_hop (self st)).
Qed.

Lemma C2_encode_witness :
  _encode ["Alice"; "Bob"; "Charlie"]
          (BPacket (Packet "Alice" "Charlie" (OtherProtocol "send_classical")
                      CLASSICAL (BStr "hello") None None))
          None line =
    (Ok (Packet "Bob" "Charlie" RELAY SIGNAL
           (BPacket (Packet "Alice" "Charlie"
                       (OtherProtocol "send_classical")
                       CLASSICAL (BStr "hello") None None))
           (Some 10%Z) (Some ["Alice"; "Bob"; "Charlie"])),
     line).
Proof.
  destruct (C2_encode ["Alice"; "Bob"; "Charlie"]
              (Packet "Alice" "Charlie" (OtherProtocol "send_classical")
                 CLASSICAL (BStr "hello") None None)
              None line) as (r1 & r2 & rl & E1 & E2 & El & E).
  - simpl. lia.
  - injection E1 as <-. injection E2 as <-. injection El as <-. exact E.
Defined.

(** ** [shares_epr] *)

(** C10, as the code has it.  [shares_epr] asks the sender's host first.
    When the sender is not in the ARP table the call fails (attribute
    access on [None]) before any host is asked.  When the sender's host
    answers with a false value, that value is returned and the receiver
    is never looked at: it need not be registered.  Only when the
    sender's host answers with a true value is the receiver's host asked,
    and then an unregistered receiver makes the call fail. *)
Theorem C10_shares_epr (peers : Peers) (sender receiver : string)
    (st : state) :
  (ARP (self st) !! sender = None →
     shares_epr peers sender receiver st = (Raise AttributeError, st))
  ∧ (∀ hs v,
       ARP (self st) !! sender = Some hs →
       peers (calls st) hs (Host_shares_epr receiver) = Returned v →
       let asked := HostCall hs (Host_shares_epr receiver) (Returned v) in
       let st1 := mkState (self st) (calls st ++ [asked]) in
       (truthy v = false →
          shares_epr peers sender receiver st = (Ok v, st1))
       ∧ (truthy v = true → ARP (self st) !! receiver = None →
          shares_epr peers sender receiver st = (Raise AttributeError, st1))
       ∧ (truthy v = true →
          ∀ hr, ARP (self st) !! receiver = Some hr →
          shares_epr peers sender receiver st =
            host_call peers hr (Host_shares_epr sender) st1)).
Proof.
  unfold shares_epr, bind, get_host, get_self, ret. simpl.
  split.
  - intros ->. reflexivity.
  - intros hs v -> Hv. simpl. unfold host_call at 1 3 5. rewrite Hv. simpl.
    split_and!.
    + intros ->. reflexivity.
    + intros -> ->. reflexivity.
    + intros -> hr ->. reflexivity.
Qed.

Lemma C10_shares_epr_witness :
  shares_epr obliging "Alice" "Dave" pair =
    (Ok (VBool false),
     mkState (self pair)
       (calls pair
        ++ [HostCall Alice (Host_shares_epr "Dave") (Returned (VBool false))])).
Proof.
  destruct (C10_shares_epr obliging "Alice" "Dave" pair) as [_ H].
  destruct (H Alice (VBool false)) as (H1 & _ & _);
    [reflexivity|reflexivity|].
  apply H1. reflexivity.
Defined.

(** The statement of the specification fails for a registered sender
    whose host reports no shared pair: the query returns [False] although
    the receiver is not in the ARP table. *)
Lemma C10_counterexample :
  ARP (self pair) !! "Dave" = None
  ∧ (shares_epr obliging "Alice" "Dave" pair).1 = Ok (VBool false).
Proof. split; reflexivity. Qed.

(** ** Tame computations *)

Section Tame.

Context (peers : Peers) (P : event → Prop).

Lemma tame_ret {A} (Q : A → Prop) (a : A) : Q a → tame P Q (ret a).
Proof.
  intros Ha st. simpl. split_and!; try done.
  - exists []. by rewrite app_nil_r.
  - by intros ? [= <-].
Qed.

Lemma tame_raise {A} (Q : A → Prop) (e : exn) : tame P Q (raise e).
Proof.
  intros st. simpl. split_and!; try done.
  exists []. by rewrite app_nil_r.
Qed.

Lemma tame_get_self : tame P any get_self.
Proof.
  intros st. simpl. split_and!; try done.
  exists []. by rewrite app_nil_r.
Qed.

Lemma tame_emit e : P e → tame P any (emit e).
Proof.
  intros He st. simpl. split_and!; try done.
  exists [e]. split; [done|]. by apply Forall_singleton.
Qed.

Lemma tame_host_call h c :
  (∀ history, P (HostCall h c (peers history h c))) →
  tame P any (host_call peers h c).
Proof.
  intros Hc st. unfold host_call.
  assert (∃ new, calls st ++ [HostCall h c (peers (calls st) h c)]
                 = calls st ++ new ∧ Forall P new) as Hnew.
  { eexists. split; [done|]. apply Forall_singleton, Hc. }
  destruct (peers (calls st) h c); simpl; split_and!; done.
Qed.

Lemma tame_bind_post {A B} (Q : A → Prop) (R : B → Prop)
    (m : M A) (k : A → M B) :
  tame P Q m → (∀ a, Q a → tame P R (k a)) → tame P R (bind m k).
Proof.
  intros Hm Hk st. unfold bind.
  destruct (Hm st) as (Hs & Hself & (new & Hcalls & Hnew) & Hq).
  destruct (m st) as [[a|e|] st1]; simpl in *;
    [|split_and!; [done|done|eauto|done]|done].
  destruct (Hk a (Hq a eq_refl) st1)
    as (Hs' & Hself' & (new' & Hcalls' & Hnew') & Hr).
  split_and!; [done|congruence| |done].
  exists (new ++ new'). split.
  - rewrite Hcalls', Hcalls. by rewrite app_assoc.
  - by apply Forall_app.
Qed.

Lemma tame_bind {A B} (R : B → Prop) (m : M A) (k : A → M B) :
  tame P any m → (∀ a, tame P R (k a)) → tame P R (bind m k).
Proof. intros Hm Hk. apply (tame_bind_post any); auto. Qed.

Lemma tame_try_except {A} (Q : A → Prop) (m : M A) (h : exn → M A) :
  tame P Q m → (∀ e, tame P Q (h e)) → tame P Q (try_except m h).
Proof.
  intros Hm Hh st. unfold try_except.
  destruct (Hm st) as (Hs & Hself & (new & Hcalls & Hnew) & Hq).
  destruct (m st) as [[a|e|] st1]; simpl in *;
    [split_and!; [done|done|eauto|done]| |done].
  destruct (Hh e st1) as (Hs' & Hself' & (new' & Hcalls' & Hnew') & Hr).
  split_and!; [done|congruence| |done].
  exists (new ++ new'). split.
  - rewrite Hcalls', Hcalls. by rewrite app_assoc.
  - by apply Forall_app.
Qed.

Lemma tame_weaken {A} (P' : event → Prop) (Q Q' : A → Prop) (m : M A) :
  (∀ e, P' e → P e) → (∀ a, Q a → Q' a) → tame P' Q m → tame P Q' m.
Proof.
  intros HP HQ Hm st.
  destruct (Hm st) as (Hs & Hself & (new & Hcalls & Hnew) & Hq).
  split_and!; try done.
  - exists new. split; [done|]. eapply Forall_impl; eauto.
  - auto.
Qed.

Lemma tame_lift {A} (r : exn + A) : tame P any (lift r).
Proof. destruct r; [apply tame_raise|by apply tame_ret]. Qed.

Lemma tame_subscript {A} (xs : list A) i : tame P any (subscript xs i).
Proof.
  unfold subscript.
  destruct (xs !! i); [by apply tame_ret|apply tame_raise].
Qed.

Lemma tame_subscript_last {A} (xs : list A) :
  tame P any (subscript_last xs).
Proof.
  unfold subscript_last.
  destruct (last xs); [by apply tame_ret|apply tame_raise].
Qed.

Lemma tame_attribute o : tame P any (attribute o).
Proof. destruct o; [by apply tame_ret|apply tame_raise]. Qed.

Lemma tame_payload_q_id b : tame P any (payload_q_id b).
Proof.
  destruct b; simpl; try apply tame_raise.
  destruct (_ !! _); [by apply tame_ret|apply tame_raise].
Qed.

Lemma tame_get_host k : tame P any (get_host k).
Proof. apply tame_bind; [apply tame_get_self|intros; by apply tame_ret]. Qed.

Lemma tame_get_host_name k : tame P any (get_host_name k).
Proof. apply tame_bind; [apply tame_get_self|intros; by apply tame_ret]. Qed.

Lemma tame_ARP_subscript k : tame P any (ARP_subscript k).
Proof.
  apply tame_bind; [apply tame_get_self|intros net].
  destruct (_ !! _); [by apply tame_ret|apply tame_raise].
Qed.

Lemma tame_get_route s d : tame P any (get_route s d).
Proof. apply tame_bind; [apply tame_get_self|intros; apply tame_lift]. Qed.

Lemma tame_encode route b ttl : tame P any (_encode route b ttl).
Proof.
  unfold _encode.
  apply tame_bind; [apply tame_subscript|intros r1].
  apply tame_bind; [apply tame_get_self|intros net].
  apply tame_bind; [|intros; by apply tame_ret].
  destruct (use_hop_by_hop net);
    [apply tame_subscript_last|apply tame_subscript].
Qed.

Lemma tame_resolve_route packet : tame P any (resolve_route packet).
Proof.
  unfold resolve_route.
  apply tame_bind; [apply tame_get_self|intros net].
  destruct (use_hop_by_hop net); [apply tame_get_route|].
  case_decide; [|apply tame_get_route].
  apply tame_bind.
  - destruct (packet_route packet); [by apply tame_ret|apply tame_raise].
  - intros full.
    destruct (list_index _ _); [by apply tame_ret|apply tame_raise].
Qed.

Lemma tame_handler e :
  (∀ lvl msg, P (Logger lvl msg)) → tame P any (handler e).
Proof. intros Hlog. destruct e; simpl; by apply tame_emit. Qed.

(** The quantum mover only talks to the backends and to the logger, and
    what it returns is the payload it was given or a list of qubit
    entries. *)
Section Mover.

Context (Hlog : ∀ lvl msg, P (Logger lvl msg)).
Context (Hsend : ∀ h q name r, P (HostCall h (cqc_sendQubit q name) r)).
Context (Hrecv : ∀ h r, P (HostCall h cqc_recvQubit r)).
Context (Hdata : ∀ h o q i r, P (HostCall h (Host_add_data_qubit o q i) r)).

Lemma tame_transfer_qubit s r store origin q :
  tame P any (transfer_qubit peers s r store origin q).
Proof using Hlog Hsend Hrecv Hdata.
  unfold transfer_qubit.
  apply tame_bind; [by apply tame_emit|intros _].
  apply tame_bind; [apply tame_ARP_subscript|intros hs].
  apply tame_bind; [apply tame_get_host_name|intros name].
  apply tame_bind; [by apply tame_host_call|intros _].
  apply tame_bind; [by apply tame_emit|intros _].
  apply tame_bind; [apply tame_ARP_subscript|intros hr].
  apply tame_bind; [by apply tame_host_call|intros q'].
  apply tame_bind; [by apply tame_emit|intros _].
  destruct store, origin; try by apply tame_ret.
  apply tame_bind; [apply tame_ARP_subscript|intros hr'].
  apply tame_bind; [by apply tame_host_call|intros _].
  by apply tame_ret.
Qed.

Lemma tame_transfer_entries s r store origin qs :
  tame P any (transfer_entries peers s r store origin qs).
Proof using Hlog Hsend Hrecv Hdata.
  induction qs as [|q qs IH]; simpl; [by apply tame_ret|].
  apply tame_bind; [apply tame_transfer_qubit|intros q'].
  apply tame_bind; [apply IH|intros rest]. by apply tame_ret.
Qed.

Lemma tame_transfer_qubits s r store origin b :
  tame P (moved b) (transfer_qubits peers s r store origin b).
Proof using Hlog Hsend Hrecv Hdata.
  destruct b; simpl; try apply tame_raise.
  - case_decide; [apply tame_ret; by left|apply tame_raise].
  - case_decide; [apply tame_ret; by left|apply tame_raise].
  - apply tame_bind; [apply tame_transfer_entries|intros qs'].
    apply tame_ret. right. eauto.
Qed.

Lemma tame_hops route indices b :
  tame P (moved b) (hops peers route indices b).
Proof using Hlog Hsend Hrecv Hdata.
  revert b. induction indices as [|i rest IH]; intros b; simpl;
    [apply tame_ret; by left|].
  apply tame_bind; [apply tame_subscript|intros ri].
  apply tame_bind; [apply tame_subscript|intros ri1].
  apply tame_bind; [by apply tame_emit|intros _].
  apply (tame_bind_post (moved b)).
  - case_decide.
    + apply tame_bind; [apply tame_subscript|intros ?].
      apply tame_bind; [apply tame_subscript|intros ?].
      apply tame_transfer_qubits.
    + apply tame_bind; [apply tame_subscript|intros ?].
      apply tame_bind; [apply tame_subscript|intros ?].
      apply tame_bind; [apply tame_subscript|intros ?].
      apply tame_transfer_qubits.
  - intros b' Hb'. eapply tame_weaken; [by eauto| |apply IH].
    intros b'' [->|?]; [done|by right].
Qed.

Lemma tame_quantum_prepass packet :
  tame P (λ packet', ∃ b, moved (packet_payload packet) b
                          ∧ packet' = set_payload b packet)
       (quantum_prepass peers packet).
Proof using Hlog Hsend Hrecv Hdata.
  unfold quantum_prepass. case_decide.
  - eapply tame_bind_post.
    + apply tame_bind; [apply tame_get_route|intros route]. apply tame_hops.
    + intros b Hb. apply tame_ret. eauto.
  - apply tame_ret. exists (packet_payload packet).
    split; [by left|by destruct packet].
Qed.

End Mover.

Lemma encode_silent route b ttl st : (_encode route b ttl st).2 = st.
Proof using Type.
  unfold _encode, bind, subscript, subscript_last, get_self, ret, raise.
  destruct (route !! 1); simpl; [|done].
  destruct (use_hop_by_hop (self st)).
  - by destruct (last route).
  - by destruct (route !! 2).
Qed.

Lemma tame_encode_post route b ttl :
  tame P (λ e, ∃ st, _encode route b ttl st = (Ok e, st))
       (_encode route b ttl).
Proof.
  intros st.
  destruct (tame_encode route b ttl st) as (H1 & H2 & H3 & _).
  split_and!; try done.
  intros e He. exists st.
  pose proof (encode_silent route b ttl st) as Hst.
  destruct (_encode route b ttl st) as [o st']. simpl in *. congruence.
Qed.

Lemma tame_dispatch packet route :
  (∀ lvl msg, P (Logger lvl msg)) →
  (∀ h name r, P (HostCall h (cqc_createEPR name) r)) →
  (∀ h partner q i r, P (HostCall h (Host_add_epr partner q i) r)) →
  (∀ s r ro q, P (DaemonThread_entanglement_swap s r ro q)) →
  (∀ h b r, handed packet b → P (HostCall h (Host_rec_packet b) r)) →
  tame P any (dispatch peers packet route).
Proof.
  intros Hlog Hcreate Hadd Hthread Hrec. unfold dispatch.
  case_decide; [apply tame_raise|].
  case_decide.
  - case_decide.
    + apply (tame_bind_post (λ p', ∃ pl, p' = set_payload pl packet)).
      * case_decide.
        -- apply tame_bind; [apply tame_get_host|intros hs].
           apply tame_bind; [apply tame_get_host_name|intros name].
           apply tame_bind; [apply tame_attribute|intros h].
           apply tame_bind; [by apply tame_host_call|intros q].
           apply tame_bind; [|intros; apply tame_ret; eauto].
           destruct (packet_payload packet);
             try (apply tame_bind; [apply tame_payload_q_id|intros ?]);
             by apply tame_host_call.
        -- apply tame_ret. exists (packet_payload packet).
           by destruct packet.
      * intros packet' [pl ->].
        apply tame_bind; [apply tame_ARP_subscript|intros hr].
        apply tame_bind; [|intros; by apply tame_ret].
        apply tame_host_call. intros. apply Hrec. constructor.
    + apply tame_bind; [apply tame_ARP_subscript|intros hr].
      apply tame_bind; [|intros; by apply tame_ret].
      apply tame_host_call. intros. apply Hrec.
      apply handed_payload.
      by destruct (decide (packet_protocol packet = RELAY)).
  - case_decide.
    + apply tame_bind; [apply tame_payload_q_id|intros q_id].
      by apply tame_emit.
    + eapply tame_bind_post; [apply tame_encode_post|].
      intros e [st He].
      apply tame_bind; [apply tame_subscript|intros r1].
      apply tame_bind; [apply tame_ARP_subscript|intros h].
      apply tame_bind; [|intros; by apply tame_ret].
      apply tame_host_call. intros. apply Hrec. by econstructor.
Qed.

End Tame.

Lemma tame_silent {A} (Q : A → Prop) (m : M A) st :
  tame (λ _, False) Q m → (m st).2 = st.
Proof.
  intros Hm. destruct (Hm st) as (_ & Hself & (new & Hcalls & Hnew) & _).
  destruct new as [|e new]; [|by inversion Hnew].
  rewrite app_nil_r in Hcalls.
  destruct (m st).2, st; simpl in *; congruence.
Qed.

Lemma resolve_route_silent packet st : (resolve_route packet st).2 = st.
Proof. eapply tame_silent, tame_resolve_route. Qed.

Lemma resolve_route_run packet st route :
  (resolve_route packet st).1 = Ok route →
  resolve_route packet st = (Ok route, st).
Proof.
  intros H. pose proof (resolve_route_silent packet st) as H'.
  destruct (resolve_route packet st). simpl in *. congruence.
Qed.

(** ** The packet-processing loop *)

(** Whatever happens inside the [try] block, the statement comes back. *)
Lemma guarded_returns peers packet st :
  (try_except
     (let* route := resolve_route packet in dispatch peers packet route)
     handler st).1 = Ok tt.
Proof.
  assert (tame (λ _, True) any
            (let* route := resolve_route packet in
             dispatch peers packet route)) as Hbody.
  { apply tame_bind; [apply tame_resolve_route|intros route].
    by apply tame_dispatch. }
  unfold try_except. destruct (Hbody st) as (Hs & _).
  destruct (bind _ _ st) as [[[]|e|] st1]; simpl in *; [done| |done].
  by destruct e.
Qed.

Lemma process_packet_returns peers packet st :
  packet_payload_type packet ≠ QUANTUM →
  (process_packet peers packet st).1 = Ok tt.
Proof.
  intros Hq. unfold process_packet, quantum_prepass, bind at 1.
  rewrite decide_False by done. simpl. apply guarded_returns.
Qed.

Lemma process_queue_step peers fuel st packet rest st2 :
  _stop_thread (self st) = false →
  _packet_queue (self st) = packet :: rest →
  process_packet peers packet (dequeued st rest) = (Ok tt, st2) →
  _process_queue peers (S fuel) st = _process_queue peers fuel st2.
Proof.
  intros Hstop Hq Hp. simpl. unfold bind at 1, get_self. simpl.
  rewrite Hstop, Hq. unfold bind, emit, modify_self. simpl.
  unfold dequeued in Hp. by rewrite Hp.
Qed.

Lemma process_packet_self peers packet st :
  self (process_packet peers packet st).2 = self st.
Proof.
  assert (tame (λ _, True) any (process_packet peers packet)) as Ht.
  { unfold process_packet.
    eapply tame_bind_post; [by apply tame_quantum_prepass|].
    intros packet' _.
    apply tame_try_except; [|intros e; by apply tame_handler].
    apply tame_bind; [apply tame_resolve_route|intros route].
    by apply tame_dispatch. }
  apply Ht.
Qed.

(** Outside the quantum pre-pass the loop holds: as long as no packet of
    the queue has a QUANTUM payload, no exception leaves
    [_process_queue]. *)
Lemma process_queue_survives peers fuel :
  ∀ st,
    Forall (λ p, packet_payload_type p ≠ QUANTUM) (_packet_queue (self st)) →
    ∀ e, (_process_queue peers fuel st).1 ≠ Raise e.
Proof.
  induction fuel as [|fuel IH]; intros st Hqueue e; [done|].
  simpl. unfold bind at 1, get_self. simpl.
  destruct (_stop_thread (self st)); [done|].
  destruct (_packet_queue (self st)) as [|packet rest] eqn:Hq;
    [apply IH; by rewrite Hq|].
  apply Forall_cons in Hqueue as [Hp Hrest].
  unfold bind, emit, modify_self. simpl.
  pose proof (process_packet_returns peers packet
                (dequeued st rest) Hp) as Hok.
  pose proof (process_packet_self peers packet (dequeued st rest)) as Hself.
  unfold dequeued in Hok, Hself.
  destruct (process_packet peers packet _) as [o st2]. simpl in *.
  subst o. apply IH. by rewrite Hself.
Qed.

(** C6.  When the route computed for the packet that was taken from the
    queue has fewer than two hosts, the [try] block raises, the error is
    logged, and the turn of the loop ends there: nothing is handed to any
    host, no relay envelope is built, no swap is started, and the loop
    goes on with the rest of the queue. *)
Theorem C6_short_route_dropped (peers : Peers) (packet : packet_dict)
    (rest : list packet_dict) (st : state)
    (packet' : packet_dict) (st1 : state) (route : list string) :
  _stop_thread (self st) = false →
  _packet_queue (self st) = packet :: rest →
  quantum_prepass peers packet (dequeued st rest) = (Ok packet', st1) →
  (resolve_route packet' st1).1 = Ok route →
  length route < 2 →
  let st2 := mkState (self st1)
               (calls st1 ++ [Logger ERROR "Error in network: "]) in
  process_packet peers packet (dequeued st rest) = (Ok tt, st2)
  ∧ Forall (λ e, is_delivery e = false) (new_calls st st2)
  ∧ ∀ fuel, _process_queue peers (S fuel) st = _process_queue peers fuel st2.
Proof.
  intros Hstop Hq Hpre Hroute Hlen st2.
  assert (process_packet peers packet (dequeued st rest) = (Ok tt, st2))
    as Hrun.
  { unfold process_packet, bind at 1. rewrite Hpre.
    unfold try_except, bind. rewrite (resolve_route_run _ _ _ Hroute).
    unfold dispatch. rewrite decide_True by done. reflexivity. }
  split_and!; [done| |intros; by eapply process_queue_step].
  destruct (tame_quantum_prepass peers (λ e, is_delivery e = false))
    with (packet := packet) (st := dequeued st rest)
    as (_ & _ & (new & Hcalls & Hnew) & _); try done.
  rewrite Hpre in Hcalls. simpl in Hcalls.
  unfold new_calls, st2. simpl. rewrite Hcalls, <- !app_assoc.
  rewrite drop_app_length.
  apply Forall_app. split; [by apply Forall_singleton|].
  apply Forall_app. split; [done|by apply Forall_singleton].
Qed.

Lemma C6_short_route_dropped_witness :
  let st := queued pair [to_self; greeting] in
  let st2 := mkState (self (dequeued st [greeting]))
               (calls (dequeued st [greeting])
                ++ [Logger ERROR "Error in network: "]) in
  process_packet obliging to_self (dequeued st [greeting]) = (Ok tt, st2)
  ∧ Forall (λ e, is_delivery e = false) (new_calls st st2)
  ∧ ∀ fuel,
      _process_queue obliging (S fuel) st = _process_queue obliging fuel st2.
Proof.
  apply (C6_short_route_dropped obliging to_self [greeting]
           (queued pair [to_self; greeting]) to_self
           (dequeued (queued pair [to_self; greeting]) [greeting])
           ["Alice"]).
  - reflexivity.
  - reflexivity.
  - reflexivity.
  - reflexivity.
  - simpl. lia.
Defined.

(** C1, at the input where the code departs from it.  The queue holds a
    QUANTUM packet whose sender is not a node of the graph, then a
    greeting from Alice to Bob.  The quantum mover runs before the [try]
    block, so the [NodeNotFound] of its route computation is not caught:
    it leaves [_process_queue], the greeting stays in the queue and is
    never handed to Bob.  With the same unknown sender and a CLASSICAL
    payload the route computation inside the [try] block raises the same
    exception; there it is caught and logged, and the next turn of the loop
    hands the greeting to Bob. *)
Theorem C1_quantum_fault_leaves_loop (fuel : nat) :
  let st := queued pair [stray_qubits; greeting] in
  let st' := queued pair [stray_greeting; greeting] in
  (_process_queue obliging (S fuel) st).1 = Raise NodeNotFound
  ∧ _packet_queue (self (_process_queue obliging (S fuel) st).2) = [greeting]
  ∧ Forall (λ e, is_delivery e = false)
           (new_calls st (_process_queue obliging (S fuel) st).2)
  ∧ new_calls st' (_process_queue obliging 2 st').2 =
      [Sleep (delay (self pair));
       Logger ERROR "route couldn't be calculated, node doesn't exist";
       Sleep (delay (self pair));
       HostCall Bob (Host_rec_packet (BPacket greeting)) (Returned VNone)].
Proof.
  split_and!.
  - reflexivity.
  - reflexivity.
  - vm_compute. repeat constructor.
  - vm_compute. reflexivity.
Qed.

Ltac run_monad :=
  cbv beta iota zeta delta
    [bind ret raise get_self emit lift attribute get_host get_host_name
     ARP_subscript host_call payload_q_id subscript subscript_last
     get_route];
  cbn [self calls fst snd fmap option_fmap option_map].



(** ** The TTL of relay envelopes *)

Lemma packet_TTL_set_payload pl p :
  packet_TTL (set_payload pl p) = packet_TTL p.
Proof. by destruct p. Qed.

Lemma set_payload_twice pl pl' p :
  set_payload pl' (set_payload pl p) = set_payload pl' p.
Proof. by destruct p. Qed.

Lemma encode_default_ttl route b st envelope :
  _encode route b None st = (Ok envelope, st) →
  packet_TTL envelope = Some 10%Z ∧ packet_payload envelope = b
  ∧ packet_protocol envelope = RELAY.
Proof.
  unfold _encode, bind, subscript, subscript_last, get_self, ret, raise.
  destruct (route !! 1); simpl; [|done].
  destruct (use_hop_by_hop (self st)).
  - destruct (last route); [|done]. by intros [= <-].
  - destruct (route !! 2); [|done]. by intros [= <-].
Qed.

(** What the loop hands to inbound handlers while it works on [packet]. *)
Lemma process_packet_hands peers packet :
  tame (λ e, ∀ h b r, e = HostCall h (Host_rec_packet b) r →
             ∃ pl, moved (packet_payload packet) pl
                   ∧ handed (set_payload pl packet) b)
       any (process_packet peers packet).
Proof.
  unfold process_packet.
  eapply tame_bind_post; [by apply tame_quantum_prepass|].
  intros packet' (pl & Hpl & ->).
  apply tame_try_except; [|intros e; by apply tame_handler].
  apply tame_bind; [apply tame_resolve_route|intros route].
  apply tame_dispatch; try done.
  intros h b r Hb h' b' r' [= -> -> ->]. eauto.
Qed.

(** *** Nothing the network does depends on a TTL *)

Section Blind.

Context (peers : Peers) (Hblind : TTL_blind peers).

Lemma state_rel_emit st st' e e' :
  state_rel st st' → forget_TTL_event e = forget_TTL_event e' →
  state_rel (mkState (self st) (calls st ++ [e]))
            (mkState (self st') (calls st' ++ [e'])).
Proof.
  intros [Hs Hc] He. split; simpl; [done|].
  rewrite !fmap_app. simpl. by rewrite Hc, He.
Qed.

Lemma alike_ret {A} (R : A → A → Prop) a a' :
  R a a' → TTL_alike R (ret a) (ret a').
Proof. intros Ha st st' Hst. by split. Qed.

Lemma alike_raise {A} (R : A → A → Prop) e :
  TTL_alike R (raise e) (raise e).
Proof. intros st st' Hst. by split. Qed.

Lemma alike_bind {A B} (R : A → A → Prop) (S : B → B → Prop)
    (m m' : M A) (k k' : A → M B) :
  TTL_alike R m m' →
  (∀ a a', R a a' → TTL_alike S (k a) (k' a')) →
  TTL_alike S (bind m k) (bind m' k').
Proof.
  intros Hm Hk st st' Hst. unfold bind.
  destruct (Hm st st' Hst) as [Ho Hst1].
  destruct (m st) as [[a|e|] st1], (m' st') as [[a'|e'|] st1'];
    simpl in *; try done.
  by apply Hk.
Qed.

Lemma alike_try_except {A} (R : A → A → Prop) (m m' : M A)
    (h h' : exn → M A) :
  TTL_alike R m m' → (∀ e, TTL_alike R (h e) (h' e)) →
  TTL_alike R (try_except m h) (try_except m' h').
Proof.
  intros Hm Hh st st' Hst. unfold try_except.
  destruct (Hm st st' Hst) as [Ho Hst1].
  destruct (m st) as [[a|e|] st1], (m' st') as [[a'|e'|] st1'];
    simpl in *; try done.
  subst e'. by apply Hh.
Qed.

Lemma alike_get_self : TTL_alike eq get_self get_self.
Proof. intros st st' Hst. split; [apply Hst|done]. Qed.

Lemma alike_emit e e' :
  forget_TTL_event e = forget_TTL_event e' →
  TTL_alike eq (emit e) (emit e').
Proof. intros He st st' Hst. split; [done|by apply state_rel_emit]. Qed.

Lemma alike_host_call h c c' :
  forget_TTL_call c = forget_TTL_call c' →
  TTL_alike eq (host_call peers h c) (host_call peers h c').
Proof using Hblind.
  intros Hc st st' Hst. unfold host_call.
  rewrite (Hblind (calls st) (calls st') h c c') by (done || apply Hst).
  assert (state_rel
            (mkState (self st)
               (calls st ++ [HostCall h c (peers (calls st') h c')]))
            (mkState (self st')
               (calls st' ++ [HostCall h c' (peers (calls st') h c')])))
    by (apply state_rel_emit; [done|simpl; by rewrite Hc]).
  by destruct (peers (calls st') h c').
Qed.

(** A computation that only reads the network object. *)
Lemma alike_reader {A} (f : Network → outcome A) :
  TTL_alike eq (λ st, (f (self st), st)) (λ st, (f (self st), st)).
Proof.
  intros st st' Hst. simpl. split; [|done].
  destruct Hst as [-> _]. by destruct (f (self st')).
Qed.

Lemma alike_lift {A} (r : exn + A) : TTL_alike eq (lift r) (lift r).
Proof. destruct r; [apply alike_raise|by apply alike_ret]. Qed.

Lemma alike_subscript {A} (xs : list A) i :
  TTL_alike eq (subscript xs i) (subscript xs i).
Proof.
  unfold subscript. destruct (xs !! i); [by apply alike_ret|apply alike_raise].
Qed.

Lemma alike_subscript_last {A} (xs : list A) :
  TTL_alike eq (subscript_last xs) (subscript_last xs).
Proof.
  unfold subscript_last.
  destruct (last xs); [by apply alike_ret|apply alike_raise].
Qed.

Lemma alike_attribute o : TTL_alike eq (attribute o) (attribute o).
Proof. destruct o; [by apply alike_ret|apply alike_raise]. Qed.

Lemma alike_get_host k : TTL_alike eq (get_host k) (get_host k).
Proof.
  eapply alike_bind; [apply alike_get_self|intros ? ? <-].
  by apply alike_ret.
Qed.

Lemma alike_get_host_name k :
  TTL_alike eq (get_host_name k) (get_host_name k).
Proof.
  eapply alike_bind; [apply alike_get_self|intros ? ? <-].
  by apply alike_ret.
Qed.

Lemma alike_ARP_subscript k :
  TTL_alike eq (ARP_subscript k) (ARP_subscript k).
Proof.
  eapply alike_bind; [apply alike_get_self|intros net ? <-].
  destruct (_ !! _); [by apply alike_ret|apply alike_raise].
Qed.

Lemma alike_get_route s d : TTL_alike eq (get_route s d) (get_route s d).
Proof.
  eapply alike_bind; [apply alike_get_self|intros net ? <-].
  apply alike_lift.
Qed.

Lemma alike_payload_q_id b b' :
  forget_TTL_body b = forget_TTL_body b' →
  TTL_alike eq (payload_q_id b) (payload_q_id b').
Proof.
  intros Hb. destruct b, b'; simpl in Hb; try discriminate;
    simpl; try apply alike_raise.
  injection Hb as <-.
  destruct (_ !! _); [by apply alike_ret|apply alike_raise].
Qed.

Lemma alike_transfer_qubit s r store origin q :
  TTL_alike eq (transfer_qubit peers s r store origin q)
               (transfer_qubit peers s r store origin q).
Proof using Hblind.
  unfold transfer_qubit.
  eapply alike_bind; [by apply alike_emit|intros _ _ _].
  eapply alike_bind; [apply alike_ARP_subscript|intros hs ? <-].
  eapply alike_bind; [apply alike_get_host_name|intros name ? <-].
  eapply alike_bind; [by apply alike_host_call|intros _ _ _].
  eapply alike_bind; [by apply alike_emit|intros _ _ _].
  eapply alike_bind; [apply alike_ARP_subscript|intros hr ? <-].
  eapply alike_bind; [by apply alike_host_call|intros q' ? <-].
  eapply alike_bind; [by apply alike_emit|intros _ _ _].
  destruct store, origin; try by apply alike_ret.
  eapply alike_bind; [apply alike_ARP_subscript|intros hr' ? <-].
  eapply alike_bind; [by apply alike_host_call|intros _ _ _].
  by apply alike_ret.
Qed.

Lemma alike_transfer_entries s r store origin qs :
  TTL_alike eq (transfer_entries peers s r store origin qs)
               (transfer_entries peers s r store origin qs).
Proof using Hblind.
  induction qs as [|q qs IH]; simpl; [by apply alike_ret|].
  eapply alike_bind; [apply alike_transfer_qubit|intros q' ? <-].
  eapply alike_bind; [apply IH|intros rest ? <-]. by apply alike_ret.
Qed.

Lemma alike_transfer_qubits s r store origin b b' :
  body_alike b b' →
  TTL_alike body_alike (transfer_qubits peers s r store origin b)
                       (transfer_qubits peers s r store origin b').
Proof using Hblind.
  unfold body_alike.
  intros Hb. destruct b, b'; simpl in Hb; try discriminate;
    simpl; try apply alike_raise.
  - injection Hb as <-. case_decide; [by apply alike_ret|apply alike_raise].
  - injection Hb as <-. case_decide; [by apply alike_ret|apply alike_raise].
  - injection Hb as <-.
    eapply alike_bind; [apply alike_transfer_entries|intros qs' ? <-].
    by apply alike_ret.
Qed.

Lemma alike_hops route indices b b' :
  body_alike b b' →
  TTL_alike body_alike (hops peers route indices b)
                       (hops peers route indices b').
Proof using Hblind.
  revert b b'. induction indices as [|i rest IH]; intros b b' Hb; simpl;
    [by apply alike_ret|].
  eapply alike_bind; [apply alike_subscript|intros ri ? <-].
  eapply alike_bind; [apply alike_subscript|intros ri1 ? <-].
  eapply alike_bind; [by apply alike_emit|intros _ _ _].
  eapply alike_bind; [|intros b1 b1' Hb1; by apply IH].
  case_decide.
  - eapply alike_bind; [apply alike_subscript|intros ? ? <-].
    eapply alike_bind; [apply alike_subscript|intros ? ? <-].
    by apply alike_transfer_qubits.
  - eapply alike_bind; [apply alike_subscript|intros ? ? <-].
    eapply alike_bind; [apply alike_subscript|intros ? ? <-].
    eapply alike_bind; [apply alike_subscript|intros ? ? <-].
    by apply alike_transfer_qubits.
Qed.

Lemma packet_alike_fields p p' :
  packet_alike p p' →
  packet_sender p = packet_sender p'
  ∧ packet_receiver p = packet_receiver p'
  ∧ packet_protocol p = packet_protocol p'
  ∧ packet_payload_type p = packet_payload_type p'
  ∧ body_alike (packet_payload p) (packet_payload p')
  ∧ packet_route p = packet_route p'.
Proof. destruct p, p'. intros [= -> -> -> -> ? ->]. by split_and!. Qed.

Lemma packet_alike_set_payload p p' b b' :
  packet_alike p p' → body_alike b b' →
  packet_alike (set_payload b p) (set_payload b' p').
Proof.
  destruct p, p'. unfold packet_alike, body_alike. simpl.
  intros [= -> -> -> -> ? ->] ->. done.
Qed.

Lemma alike_quantum_prepass p p' :
  packet_alike p p' →
  TTL_alike packet_alike (quantum_prepass peers p) (quantum_prepass peers p').
Proof using Hblind.
  intros Hp. destruct (packet_alike_fields p p' Hp)
    as (Hs & Hr & Hpr & Hpt & Hb & Hro).
  unfold quantum_prepass. rewrite <- Hpt, <- Hs, <- Hr.
  case_decide; [|by apply alike_ret].
  eapply alike_bind.
  - eapply alike_bind; [apply alike_get_route|intros route ? <-].
    by apply alike_hops.
  - intros b b' Hbb. apply alike_ret. by apply packet_alike_set_payload.
Qed.

Lemma alike_encode route b b' ttl :
  body_alike b b' →
  TTL_alike packet_alike (_encode route b ttl) (_encode route b' ttl).
Proof.
  intros Hb. unfold _encode.
  eapply alike_bind; [apply alike_subscript|intros r1 ? <-].
  eapply alike_bind; [apply alike_get_self|intros net ? <-].
  eapply alike_bind.
  - destruct (use_hop_by_hop net);
      [apply alike_subscript_last|apply alike_subscript].
  - intros rcv ? <-. apply alike_ret.
    unfold packet_alike, body_alike in *. simpl. by rewrite Hb.
Qed.

Lemma alike_resolve_route p p' :
  packet_alike p p' →
  TTL_alike eq (resolve_route p) (resolve_route p').
Proof.
  intros Hp. destruct (packet_alike_fields p p' Hp)
    as (Hs & Hr & Hpr & Hpt & Hb & Hro).
  unfold resolve_route. rewrite <- Hs, <- Hr, <- Hpr, <- Hro.
  eapply alike_bind; [apply alike_get_self|intros net ? <-].
  destruct (use_hop_by_hop net); [apply alike_get_route|].
  case_decide; [|apply alike_get_route].
  eapply (alike_bind eq).
  - destruct (packet_route p); [by apply alike_ret|apply alike_raise].
  - intros full ? <-.
    destruct (list_index _ _); [by apply alike_ret|apply alike_raise].
Qed.

Lemma alike_handler e : TTL_alike eq (handler e) (handler e).
Proof. destruct e; by apply alike_emit. Qed.

Lemma alike_dispatch p p' route :
  packet_alike p p' →
  TTL_alike eq (dispatch peers p route) (dispatch peers p' route).
Proof using Hblind.
  intros Hp. destruct (packet_alike_fields p p' Hp)
    as (Hs & Hr & Hpr & Hpt & Hb & Hro).
  unfold dispatch. rewrite <- Hs, <- Hr, <- Hpr.
  case_decide; [apply alike_raise|].
  case_decide.
  - case_decide.
    + eapply (alike_bind packet_alike).
      * case_decide; [|by apply alike_ret].
        eapply alike_bind; [apply alike_get_host|intros hs ? <-].
        eapply alike_bind; [apply alike_get_host_name|intros name ? <-].
        eapply alike_bind; [apply alike_attribute|intros h ? <-].
        eapply alike_bind; [by apply alike_host_call|intros q ? <-].
        eapply alike_bind.
        -- unfold body_alike in Hb.
           destruct (packet_payload p), (packet_payload p');
             simpl in Hb; try discriminate;
             try (by apply alike_host_call);
             (eapply alike_bind;
              [by apply alike_payload_q_id|intros ? ? <-]);
             by apply alike_host_call.
        -- intros q_id ? <-. apply alike_ret.
           by apply packet_alike_set_payload.
      * intros p1 p1' Hp1.
        eapply alike_bind; [apply alike_ARP_subscript|intros hr ? <-].
        eapply alike_bind; [|intros; by apply alike_ret].
        apply alike_host_call. simpl. by rewrite Hp1.
    + eapply alike_bind; [apply alike_ARP_subscript|intros hr ? <-].
      eapply alike_bind; [|intros; by apply alike_ret].
      apply alike_host_call. simpl. by rewrite Hb.
  - case_decide.
    + eapply alike_bind; [by apply alike_payload_q_id|intros q_id ? <-].
      by apply alike_emit.
    + eapply alike_bind.
      * apply alike_encode with (b := BPacket p) (b' := BPacket p').
        unfold body_alike. simpl. by rewrite Hp.
      * intros e e' He.
        eapply alike_bind; [apply alike_subscript|intros r1 ? <-].
        eapply alike_bind; [apply alike_ARP_subscript|intros h ? <-].
        eapply alike_bind; [|intros; by apply alike_ret].
        apply alike_host_call. simpl. by rewrite He.
Qed.

Lemma alike_process_packet p p' :
  packet_alike p p' →
  TTL_alike eq (process_packet peers p) (process_packet peers p').
Proof using Hblind.
  intros Hp. unfold process_packet.
  eapply alike_bind; [by apply alike_quantum_prepass|intros p1 p1' Hp1].
  apply alike_try_except; [|apply alike_handler].
  eapply alike_bind; [by apply alike_resolve_route|intros route ? <-].
  by apply alike_dispatch.
Qed.

End Blind.

Lemma obliging_TTL_blind : TTL_blind obliging.
Proof.
  intros history history' h c c' Hh Hc.
  apply (f_equal length) in Hh. rewrite !length_fmap in Hh.
  destruct c, c'; simpl in Hc; try discriminate; simplify_eq/=;
    try done.
  unfold obliging. by rewrite Hh.
Qed.

(** C9, as the code has it.  While the loop works on a packet, what it
    hands to an inbound handler is one of three things: the packet itself
    (its payload possibly replaced), with the TTL it came with; the
    payload of a relay packet, as it is; or a relay envelope that the
    encoder just built around the packet, and that envelope has TTL 10,
    the default of the encoder.  So a relay envelope that the loop builds
    always carries TTL 10, and one that it passes on keeps whatever TTL it
    has.  Besides, no TTL is ever read: with hosts whose replies do not
    depend on TTL fields, two packets that differ in TTL fields only are
    treated alike, so no packet is dropped because of its TTL. *)
Theorem C9_relay_ttl (peers : Peers) (packet : packet_dict) (st : state) :
  (∀ h b r,
     HostCall h (Host_rec_packet b) r
       ∈ new_calls st (process_packet peers packet st).2 →
     (∃ pl, b = BPacket (set_payload pl packet)
            ∧ packet_TTL (set_payload pl packet) = packet_TTL packet)
     ∨ (packet_protocol packet = RELAY ∧ moved (packet_payload packet) b)
     ∨ (∃ envelope pl,
          b = BPacket envelope
          ∧ packet_protocol envelope = RELAY
          ∧ packet_TTL envelope = Some 10%Z
          ∧ packet_payload envelope = BPacket (set_payload pl packet)))
  ∧ (TTL_blind peers →
     ∀ packet', forget_TTL packet' = forget_TTL packet →
       (process_packet peers packet' st).1
         = (process_packet peers packet st).1
       ∧ forget_TTL_event <$> calls (process_packet peers packet' st).2
         = forget_TTL_event <$> calls (process_packet peers packet st).2).
Proof.
  split.
  - intros h b r Hin.
    destruct (process_packet_hands peers packet st)
      as (_ & _ & (new & Hcalls & Hnew) & _).
    unfold new_calls in Hin. rewrite Hcalls, drop_app_length in Hin.
    rewrite Forall_forall in Hnew.
    destruct (Hnew _ Hin h b r eq_refl) as (pl & Hpl & Hb).
    inversion Hb as [pl'|Hrelay Heq|route st' envelope Henc]; subst.
    + left. exists pl'. rewrite set_payload_twice.
      split; [done|apply packet_TTL_set_payload].
    + right; left. destruct packet; simpl in *. done.
    + right; right. exists envelope, pl.
      destruct (encode_default_ttl _ _ _ _ Henc) as (? & ? & ?). done.
  - intros Hblind packet' Hp.
    destruct (alike_process_packet peers Hblind packet' packet Hp st st)
      as [Ho [_ Hc]]; [done|].
    split; [|done].
    destruct (process_packet peers packet' st).1 as [[]| |],
             (process_packet peers packet st).1 as [[]| |];
      simpl in Ho; by subst.
Qed.

Lemma C9_relay_ttl_witness :
  ((∃ pl, BPacket worn_envelope = BPacket (set_payload pl last_hop)
          ∧ packet_TTL (set_payload pl last_hop) = packet_TTL last_hop)
   ∨ (packet_protocol last_hop = RELAY
      ∧ moved (packet_payload last_hop) (BPacket worn_envelope))
   ∨ (∃ envelope pl,
        BPacket worn_envelope = BPacket envelope
        ∧ packet_protocol envelope = RELAY
        ∧ packet_TTL envelope = Some 10%Z
        ∧ packet_payload envelope = BPacket (set_payload pl last_hop)))
  ∧ (process_packet obliging
       (Packet "Bob" "Charlie" RELAY SIGNAL (BPacket greeting)
          (Some 0%Z) (Some ["Alice"; "Bob"; "Charlie"])) line).1
    = (process_packet obliging worn_envelope line).1.
Proof.
  destruct (C9_relay_ttl obliging last_hop line) as [H1 _].
  destruct (C9_relay_ttl obliging worn_envelope line) as [_ H2].
  split.
  - apply (H1 Charlie (BPacket worn_envelope) (Returned VNone)).
    vm_compute. apply list_elem_of_here.
  - apply H2; [apply obliging_TTL_blind|reflexivity].
Defined.

(** The loop hands Charlie a relay envelope whose TTL is 9. *)
Lemma C9_counterexample :
  HostCall Charlie (Host_rec_packet (BPacket worn_envelope)) (Returned VNone)
    ∈ new_calls line (process_packet obliging last_hop line).2
  ∧ packet_protocol worn_envelope = RELAY
  ∧ packet_TTL worn_envelope = Some 9%Z.
Proof.
  split_and!; [|done|done].
  vm_compute. apply list_elem_of_here.
Qed.

(** ** The entanglement swap *)

Lemma while_None_answered peers (attempt : M value) h c k q q_id :
  ∀ st fuel,
    (∀ st', self st' = self st → attempt st' = host_call peers h c st') →
    (∀ j, j < k →
       peers (calls st ++ repeat (HostCall h c (Returned VNone)) j) h c
       = Returned VNone) →
    peers (calls st ++ repeat (HostCall h c (Returned VNone)) k) h c
      = Returned (VEprPair q q_id) →
    k < fuel →
    while_None fuel attempt st =
      (Ok (VEprPair q q_id),
       mkState (self st)
         (calls st ++ repeat (HostCall h c (Returned VNone)) k
          ++ [HostCall h c (Returned (VEprPair q q_id))])).
Proof.
  induction k as [|k IH]; intros st fuel Hatt Hnone Hpair Hfuel;
    (destruct fuel as [|fuel]; [lia|]); simpl; unfold bind.
  - rewrite Hatt by done. unfold host_call.
    simpl in Hpair. rewrite app_nil_r in Hpair. by rewrite Hpair.
  - rewrite Hatt by done. unfold host_call.
    pose proof (Hnone 0 ltac:(lia)) as H0. simpl in H0.
    rewrite app_nil_r in H0. rewrite H0.
    rewrite IH.
    + simpl. by rewrite <- app_assoc.
    + intros st' Hst'. by apply Hatt.
    + intros j Hj. simpl. rewrite <- app_assoc. apply (Hnone (S j)). lia.
    + simpl. rewrite <- app_assoc. apply Hpair.
    + lia.
Qed.

Lemma for_each_groups {A} (body : nat → A → M unit)
    (Rel : A → list event → Prop) (xs : list A) :
  ∀ st,
    (∀ x st', x ∈ xs → self st' = self st →
       ∃ f new, Rel x new
         ∧ ∀ f', f ≤ f' →
             body f' x st' = (Ok tt, mkState (self st') (calls st' ++ new))) →
    ∃ f groups,
      Forall2 Rel xs groups
      ∧ ∀ f', f ≤ f' →
          for_each xs (body f') st
          = (Ok tt, mkState (self st) (calls st ++ concat groups)).
Proof.
  induction xs as [|x xs IH]; intros st Hbody.
  - exists 0, []. split; [constructor|]. intros f' _. simpl.
    rewrite app_nil_r. by destruct st.
  - destruct (Hbody x st) as (f1 & new & Hrel & Hrun);
      [apply list_elem_of_here|done|].
    destruct (IH (mkState (self st) (calls st ++ new)))
      as (f2 & groups & Hrels & Hruns).
    { intros y st' Hy Hst'. apply Hbody; [by apply list_elem_of_further|done]. }
    exists (f1 `max` f2), (new :: groups). split; [by constructor|].
    intros f' Hf'. simpl. unfold bind.
    rewrite Hrun by lia. rewrite Hruns by lia. simpl.
    by rewrite <- app_assoc.
Qed.

Lemma Forall2_singletons {A B} (P : A → B → Prop) xs (groups : list (list B)) :
  Forall2 (λ x g, ∃ e, g = [e] ∧ P x e) xs groups →
  Forall2 P xs (concat groups).
Proof.
  induction 1 as [|x g xs groups (e & -> & He) _ IH]; simpl;
    [constructor|by constructor].
Qed.

Lemma while_None_returned peers (attempt : M value) h c fuel :
  ∀ st st' q,
    (∀ st1, self st1 = self st → attempt st1 = host_call peers h c st1) →
    while_None fuel attempt st = (Ok q, st') →
    ∃ k,
      q ≠ VNone
      ∧ st' = mkState (self st)
                (calls st ++ repeat (HostCall h c (Returned VNone)) k
                 ++ [HostCall h c (Returned q)]).
Proof.
  induction fuel as [|fuel IH]; intros st st' q Hatt Hrun; [done|].
  simpl in Hrun. unfold bind in Hrun. rewrite Hatt in Hrun by done.
  unfold host_call in Hrun.
  destruct (peers (calls st) h c) as [v|e] eqn:Hv; simpl in Hrun; [|done].
  destruct (decide (v = VNone)) as [->|Hne].
  - apply IH in Hrun as (k & Hq & ->).
    + exists (S k). split; [done|]. simpl. by rewrite <- app_assoc.
    + intros st1 Hst1. by apply Hatt.
  - exists 0. assert (q = v ∧ st' = mkState (self st)
                       (calls st ++ [HostCall h c (Returned v)])) as [-> ->].
    { destruct v; try done; unfold ret in Hrun; by simplify_eq/=. }
    done.
Qed.

Lemma for_each_returned {A} (body : A → M unit)
    (Rel : A → list event → Prop) (xs : list A) :
  ∀ st st',
    (∀ x st1 st2, x ∈ xs → self st1 = self st →
       body x st1 = (Ok tt, st2) →
       ∃ new, Rel x new ∧ st2 = mkState (self st1) (calls st1 ++ new)) →
    for_each xs body st = (Ok tt, st') →
    ∃ groups,
      Forall2 Rel xs groups
      ∧ st' = mkState (self st) (calls st ++ concat groups).
Proof.
  induction xs as [|x xs IH]; intros st st' Hbody Hrun; simpl in Hrun.
  - injection Hrun as <-. exists []. split; [constructor|].
    simpl. rewrite app_nil_r. by destruct st.
  - unfold bind in Hrun.
    destruct (body x st) as [[[]|e|] st1] eqn:Hx; try done.
    destruct (Hbody x st st1) as (new & Hrel & ->);
      [apply list_elem_of_here|done|done|].
    apply IH in Hrun as (groups & Hrels & ->).
    + exists (new :: groups). split; [by constructor|].
      simpl. by rewrite <- app_assoc.
    + intros y st2 st3 Hy Hst2. apply Hbody; [by apply list_elem_of_further|].
      by rewrite Hst2.
Qed.


Section Swap.

Context (peers : Peers) (sender receiver : string) (route : list string)
        (q_id : value) (st : state) (r0 : string).
Context (Hr0 : route !! 0 = Some r0).
Context (Hreg : ∀ x, x ∈ route →
                  ∃ h, ARP (self st) !! x = Some h ∧ accepts peers h
                       ∧ eventually_holds peers h r0).

Lemma swap_create_run i st' :
  i < length route - 1 → self st' = self st →
  ∃ e, creation st route q_id i e
       ∧ swap_create peers route q_id i st'
         = (Ok tt, mkState (self st') (calls st' ++ [e])).
Proof using Hreg.
  intros Hi Hst'.
  destruct (lookup_lt_is_Some_2 route i) as [ri Hri]; [lia|].
  destruct (lookup_lt_is_Some_2 route (i + 1)) as [ri1 Hri1]; [lia|].
  destruct (Hreg ri) as (h & Hh & Hacc & _);
    [by eapply list_elem_of_lookup_2|].
  destruct (Hacc (Host_send_epr ri1 q_id true) (calls st')) as [v Hv].
  exists (HostCall h (Host_send_epr ri1 q_id true) (Returned v)). split.
  - by exists ri, ri1, h, v.
  - rewrite <- Hst' in Hh.
    unfold swap_create. run_monad. rewrite Hri. run_monad.
    rewrite Hh. run_monad. rewrite Hri1. run_monad.
    by rewrite Hv.
Qed.

Lemma swap_transfer_run i st' :
  i < length route - 2 → self st' = self st →
  ∃ f group,
    transfer st route sender receiver i group
    ∧ ∀ f', f ≤ f' →
        swap_transfer peers f' sender receiver route i st'
        = (Ok tt, mkState (self st') (calls st' ++ group)).
Proof using Hr0 Hreg.
  intros Hi Hst'.
  destruct (lookup_lt_is_Some_2 route (i + 1)) as [ri1 Hri1]; [lia|].
  destruct (lookup_lt_is_Some_2 route (i + 2)) as [ri2 Hri2]; [lia|].
  destruct (Hreg ri1) as (h & Hh & Hacc & Hev);
    [by eapply list_elem_of_lookup_2|].
  destruct (Hev (calls st')) as (k & q & id & Hnone & Hpair).
  set (polls := repeat (HostCall h (Host_get_epr r0) (Returned VNone)) k
                ++ [HostCall h (Host_get_epr r0)
                      (Returned (VEprPair q id))]).
  set (packet := BPacket (protocols_encode ri1 ri2 SEND_TELEPORT
                            (teleport_data sender q id) SIGNAL)).
  destruct (Hacc (Host_rec_packet packet)
              (calls st' ++ polls
               ++ [Logger LOG (sender +:+ " sends EPR to " +:+ receiver)]))
    as [v Hv].
  exists (S k),
    (polls ++ [Logger LOG (sender +:+ " sends EPR to " +:+ receiver);
               HostCall h (Host_rec_packet packet) (Returned v)]).
  split.
  - exists r0, ri1, ri2, h, k, q, id, v. split_and!; try done.
    unfold polls. by rewrite <- app_assoc.
  - intros f' Hf'. rewrite <- Hst' in Hh.
    unfold swap_transfer. unfold bind at 1.
    erewrite (while_None_answered peers _ h (Host_get_epr r0) k q id);
      [|intros st'' Hst''; rewrite <- Hst'' in Hh;
        run_monad; rewrite Hri1; run_monad;
        rewrite Hh; run_monad; rewrite Hr0; by run_monad
       |done|done|lia].
    fold polls. simpl. run_monad. rewrite Hri1, Hri2. run_monad.
    rewrite Hh. run_monad.
    fold (teleport_data sender q id). fold packet.
    rewrite <- !app_assoc. by rewrite Hv.
Qed.

End Swap.

Section Returned.

Context (peers : Peers) (sender receiver : string) (route : list string)
        (q_id : value) (st : state).

Lemma swap_create_returned i st1 st2 :
  self st1 = self st →
  swap_create peers route q_id i st1 = (Ok tt, st2) →
  ∃ new, (∃ e, new = [e] ∧ creation st route q_id i e)
         ∧ st2 = mkState (self st1) (calls st1 ++ new).
Proof.
  intros Hst1. unfold swap_create. run_monad.
  destruct (route !! i) as [ri|] eqn:Hri; [|done]. run_monad.
  rewrite Hst1.
  destruct (ARP (self st) !! ri) as [h|] eqn:Hh; [|done]. run_monad.
  destruct (route !! (i + 1)) as [ri1|] eqn:Hri1; [|done]. run_monad.
  destruct (peers (calls st1) h _) as [v|e] eqn:Hv; [|done].
  intros [= <-]. eexists. split; [|by rewrite Hst1].
  eexists. split; [done|]. by exists ri, ri1, h, v.
Qed.

Lemma swap_transfer_returned fuel i st1 st2 :
  self st1 = self st →
  swap_transfer peers fuel sender receiver route i st1 = (Ok tt, st2) →
  ∃ group, transfer st route sender receiver i group
           ∧ st2 = mkState (self st1) (calls st1 ++ group).
Proof.
  intros Hst1. unfold swap_transfer. unfold bind at 1.
  destruct (route !! (i + 1)) as [ri1|] eqn:Hri1.
  2:{ destruct fuel; [done|]. simpl. run_monad. by rewrite Hri1. }
  destruct (ARP (self st) !! ri1) as [h|] eqn:Hh.
  2:{ destruct fuel; [done|]. simpl. run_monad. rewrite Hri1. run_monad.
      by rewrite Hst1, Hh. }
  destruct (route !! 0) as [r0|] eqn:Hr0.
  2:{ destruct fuel; [done|]. simpl. run_monad. rewrite Hri1. run_monad.
      rewrite Hst1, Hh. run_monad. by rewrite Hr0. }
  destruct (while_None fuel _ st1) as [[q| |] st1'] eqn:Hpoll; try done.
  apply (while_None_returned peers _ h (Host_get_epr r0)) in Hpoll
    as (k & Hq & ->).
  2:{ intros st' Hst'. run_monad. rewrite Hri1. run_monad.
      rewrite Hst', Hst1, Hh. run_monad. rewrite Hr0. run_monad.
      by rewrite <- Hst1, <- Hst'. }
  destruct q as [| | | |q0 id0|]; try done.
  simpl. run_monad. rewrite Hri1. run_monad.
  destruct (route !! (i + 2)) as [ri2|] eqn:Hri2; [|done]. run_monad.
  rewrite Hst1, Hh. run_monad.
  destruct (peers _ h (Host_rec_packet _)) as [v|e] eqn:Hv; [|done].
  intros [= <-]. rewrite <- Hst1. eexists. split.
  - exists r0, ri1, ri2, h, k, q0, id0, v. split_and!; try done.
  - f_equal. rewrite <- !app_assoc. simpl. done.
Qed.

End Returned.


(** A swap that returns has made the calls of a swap, whatever the hosts
    are. *)
Lemma swap_returned peers fuel sender receiver route q_id st st' :
  _entanglement_swap peers fuel sender receiver route q_id st = (Ok tt, st') →
  self st' = self st
  ∧ ∃ new, calls st' = calls st ++ new
           ∧ swap_calls st sender receiver route q_id new.
Proof.
  unfold _entanglement_swap. unfold bind at 1, get_host, bind at 1, get_self,
    ret. simpl. unfold bind at 1.
  destruct (for_each _ (swap_create peers route q_id) st)
    as [[[]| |] st1] eqn:Hrun1; try done.
  apply (for_each_returned _
           (λ i g, ∃ e, g = [e] ∧ creation st route q_id i e)) in Hrun1
    as (singles & Hcreated & ->).
  2:{ intros i st1' st2' _. apply swap_create_returned. }
  apply Forall2_singletons in Hcreated.
  unfold bind at 1.
  destruct (for_each _ (swap_transfer peers fuel sender receiver route) _)
    as [[[]| |] st2] eqn:Hrun2; try done.
  apply (for_each_returned _ (transfer st route sender receiver)) in Hrun2
    as (groups & Hgroups & ->).
  2:{ intros i st1' st2' _ Hself. by apply swap_transfer_returned. }
  simpl. run_monad.
  destruct (ARP (self st) !! sender) as [hs|] eqn:Hhs; [|done]. run_monad.
  destruct (route !! 1) as [r1|] eqn:Hr1; [|done]. run_monad.
  destruct (peers _ hs (Host_get_epr r1)) as [q2|e] eqn:Hq2; [|done].
  destruct q2 as [| | | |q2 q2_id|]; try done. simpl.
  destruct (peers _ hs (Host_add_epr _ _ _)) as [v|e] eqn:Hv; [|done].
  intros [= <-]. split; [done|]. simpl.
  eexists. split; [by rewrite <- !app_assoc|].
  exists hs, r1, (concat singles), groups, q2, q2_id, v.
  split_and!; try done.
  - apply Forall2_length in Hcreated. by rewrite length_seq in Hcreated.
  - apply Forall2_length in Hgroups. by rewrite length_seq in Hgroups.
Qed.

(** With hosts that cooperate, a swap returns once its polling loops
    have turns enough. *)
Lemma swap_completes (peers : Peers) (sender receiver : string)
    (route : list string) (q_id : value) (st : state)
    (hs : Host) (r0 r1 : string) :
  route !! 0 = Some r0 →
  route !! 1 = Some r1 →
  ARP (self st) !! sender = Some hs →
  accepts peers hs →
  holds peers hs r1 →
  (∀ x, x ∈ route →
     ∃ h, ARP (self st) !! x = Some h ∧ accepts peers h
          ∧ eventually_holds peers h r0) →
  ∃ fuel new,
    swap_calls st sender receiver route q_id new
    ∧ ∀ fuel', fuel ≤ fuel' →
        _entanglement_swap peers fuel' sender receiver route q_id st =
          (Ok tt, mkState (self st) (calls st ++ new)).
Proof.
  intros Hr0 Hr1 Hhs Hacc Hheld Hreg.
  destruct (for_each_groups (λ _, swap_create peers route q_id)
              (λ i g, ∃ e, g = [e] ∧ creation st route q_id i e)
              (seq 0 (length route - 1)) st)
    as (f1 & singles & Hcreated & Hrun1).
  { intros i st' Hi Hst'. apply elem_of_seq in Hi.
    destruct (swap_create_run peers route q_id st r0 Hreg i st')
      as (e & He & Hrun); [lia|done|].
    exists 0, [e]. split; [by exists e|]. intros f' _. exact Hrun. }
  apply Forall2_singletons in Hcreated.
  set (created := concat singles) in *.
  set (st1 := mkState (self st) (calls st ++ created)).
  destruct (for_each_groups
              (λ f, swap_transfer peers f sender receiver route)
              (transfer st route sender receiver)
              (seq 0 (length route - 2)) st1)
    as (f2 & groups & Hgroups & Hrun2).
  { intros i st' Hi Hst'. apply elem_of_seq in Hi.
    apply (swap_transfer_run peers sender receiver route st r0 Hr0 Hreg);
      [lia|done]. }
  set (st2 := mkState (self st) (calls st1 ++ concat groups)).
  destruct (Hheld (calls st2)) as (q2 & q2_id & Hq2).
  destruct (Hacc (Host_add_epr receiver (VQubit q2) (Some (VStr q2_id)))
              (calls st2 ++ [HostCall hs (Host_get_epr r1)
                               (Returned (VEprPair q2 q2_id))]))
    as [v Hv].
  exists (f1 `max` f2). eexists. split.
  - exists hs, r1, created, groups, q2, q2_id, v. split_and!; try done.
    + apply Forall2_length in Hcreated. by rewrite length_seq in Hcreated.
    + apply Forall2_length in Hgroups. by rewrite length_seq in Hgroups.
  - intros fuel' Hfuel. unfold _entanglement_swap.
    unfold bind at 1, get_host, bind at 1, get_self, ret. simpl.
    unfold bind at 1. rewrite (Hrun1 fuel') by lia. simpl. fold st1.
    unfold bind at 1. rewrite (Hrun2 fuel') by lia.
    subst st2 st1. simpl in *.
    rewrite Hhs. run_monad. rewrite Hr1. run_monad.
    rewrite Hq2. simpl. rewrite Hv. simpl.
    by rewrite <- !app_assoc.
Qed.


(** C3.  The calls of a swap along a route of N hosts are, in this order:
    N-1 requests to create a pair, one per consecutive pair of hosts of
    the route, all under the id of the swap; N-2 transfers, one per
    interior host, each made of the polls of that host for its pair with
    [route[0]] and of one SEND_TELEPORT packet of payload type SIGNAL that
    carries the pair; and last, the sender's host is asked for its pair
    with [route[1]] and files that pair again as a pair with the receiver.
    Every swap that returns has made exactly these calls; and the swap
    does return, given turns enough for its polling loops, when the hosts
    of the route are registered, accept what they are asked and come to
    hold the pairs they are polled for. *)
Theorem C3_entanglement_swap (peers : Peers) (sender receiver : string)
    (route : list string) (q_id : value) (st : state) :
  (∀ fuel st',
     _entanglement_swap peers fuel sender receiver route q_id st
       = (Ok tt, st') →
     self st' = self st
     ∧ ∃ new, calls st' = calls st ++ new
              ∧ swap_calls st sender receiver route q_id new)
  ∧ (∀ hs r0 r1,
       route !! 0 = Some r0 →
       route !! 1 = Some r1 →
       ARP (self st) !! sender = Some hs →
       accepts peers hs →
       holds peers hs r1 →
       (∀ x, x ∈ route →
          ∃ h, ARP (self st) !! x = Some h ∧ accepts peers h
               ∧ eventually_holds peers h r0) →
       ∃ fuel new,
         swap_calls st sender receiver route q_id new
         ∧ ∀ fuel', fuel ≤ fuel' →
             _entanglement_swap peers fuel' sender receiver route q_id st =
               (Ok tt, mkState (self st) (calls st ++ new))).
Proof.
  split.
  - intros fuel st'. apply swap_returned.
  - intros hs r0 r1. apply swap_completes.
Qed.

Lemma obliging_accepts h : accepts obliging h.
Proof.
  intros c. destruct c as [| |p q [i|]| | | | | |]; try exact I;
    intros history; eexists; reflexivity.
Qed.

Lemma obliging_eventually_holds h partner :
  eventually_holds obliging h partner.
Proof.
  intros history. unfold obliging.
  destruct (decide (host_id h = "Alice")) as [Ha|Ha].
  - exists 0, 1%N, "q-7". split; [intros j Hj; lia|done].
  - exists (8 - length history), 2%N, "q-7". split.
    + intros j Hj. rewrite decide_False; [done|].
      rewrite length_app, repeat_length. lia.
    + rewrite decide_True; [done|].
      rewrite length_app, repeat_length. lia.
Qed.

Lemma C3_entanglement_swap_witness :
  ∃ fuel new,
    swap_calls line "Alice" "Charlie" ["Alice"; "Bob"; "Charlie"]
               (VStr "q-7") new
    ∧ ∀ fuel', fuel ≤ fuel' →
        _entanglement_swap obliging fuel' "Alice" "Charlie"
          ["Alice"; "Bob"; "Charlie"] (VStr "q-7") line =
          (Ok tt, mkState (self line) (calls line ++ new)).
Proof.
  destruct (C3_entanglement_swap obliging "Alice" "Charlie"
              ["Alice"; "Bob"; "Charlie"] (VStr "q-7") line) as [_ H].
  apply (H Alice "Alice" "Bob").
  - reflexivity.
  - reflexivity.
  - reflexivity.
  - apply obliging_accepts.
  - intros history. exists 1%N, "q-7". reflexivity.
  - intros x Hx.
    assert (∃ h, ARP (self line) !! x = Some h) as [h Hh].
    { repeat (apply elem_of_cons in Hx as [->|Hx]);
        [by exists Alice|by exists Bob|by exists Charlie|].
      by apply not_elem_of_nil in Hx. }
    exists h. split_and!;
      [done|apply obliging_accepts|apply obliging_eventually_holds].
Defined.

(** The swap on the line Alice - Bob - Charlie, call by call. *)
Example swap_on_line :
  new_calls line
    (_entanglement_swap obliging 4 "Alice" "Charlie"
       ["Alice"; "Bob"; "Charlie"] (VStr "q-7") line).2 =
  [HostCall Alice (Host_send_epr "Bob" (VStr "q-7") true) (Returned VNone);
   HostCall Bob (Host_send_epr "Charlie" (VStr "q-7") true) (Returned VNone);
   HostCall Bob (Host_get_epr "Alice") (Returned VNone);
   HostCall Bob (Host_get_epr "Alice") (Returned VNone);
   HostCall Bob (Host_get_epr "Alice") (Returned VNone);
   HostCall Bob (Host_get_epr "Alice") (Returned (VEprPair 2%N "q-7"));
   Logger LOG "Alice sends EPR to Charlie";
   HostCall Bob
     (Host_rec_packet
        (BPacket (Packet "Bob" "Charlie" SEND_TELEPORT SIGNAL
                    (teleport_data "Alice" 2%N "q-7") None None)))
     (Returned VNone);
   HostCall Alice (Host_get_epr "Bob") (Returned (VEprPair 1%N "q-7"));
   HostCall Alice
     (Host_add_epr "Charlie" (VQubit 1%N) (Some (VStr "q-7")))
     (Returned (VStr "q-7"))].
Proof. vm_compute. reflexivity. Qed.

(** ** Routing *)

Section Search.

Context (g : DiGraph) (source : string).

Implicit Types (paths before : gmap string (list string))
               (st : gmap string (list string) * list string)
               (level : list string) (u v w : string).

Lemma elem_of_successors v w :
  w ∈ successors g v ↔ has_edge g v w = true.
Proof.
  unfold successors, has_edge. destruct (g !! v) as [nbrs|].
  - rewrite bool_decide_eq_true, list_elem_of_fmap. split.
    + intros ([w' x] & -> & Hin). apply elem_of_map_to_list in Hin. eauto.
    + intros [x Hx]. exists (w, x). split; [done|].
      by apply elem_of_map_to_list.
  - split; [by intros ?%not_elem_of_nil|done].
Qed.

Lemma successor_vertex v w : has_edge g v w = true → w ∈ vertices g.
Proof.
  unfold has_edge, vertices. destruct (g !! v) as [nbrs|] eqn:Hv; [|done].
  rewrite bool_decide_eq_true. intros Hw.
  apply elem_of_union_r, elem_of_union_list.
  exists (dom nbrs). split; [|by apply elem_of_dom].
  apply list_elem_of_fmap. exists nbrs. split; [done|].
  apply list_elem_of_fmap. exists (v, nbrs). split; [done|].
  by apply elem_of_map_to_list.
Qed.

Lemma node_vertex v : has_node g v = true → v ∈ vertices g.
Proof.
  unfold has_node, vertices. rewrite bool_decide_eq_true.
  intros H. by apply elem_of_union_l, elem_of_dom.
Qed.

Lemma leads_start : leads g source source [source].
Proof.
  by split_and!.
Qed.

Lemma leads_step v w p :
  leads g source v p → has_edge g v w = true → leads g source w (p ++ [w]).
Proof.
  intros (Hhead & Hlast & Hwalk) Hedge. split_and!.
  - destruct p; [done|]. simpl in *. done.
  - by rewrite last_snoc.
  - intros i a b Ha Hb.
    destruct (decide (S i < length p)) as [Hlt|Hge].
    + rewrite lookup_app_l in Ha by lia.
      rewrite lookup_app_l in Hb by lia. by eapply Hwalk.
    + assert (S i = length p) as Hi.
      { apply lookup_lt_Some in Hb. rewrite length_app in Hb.
        simpl in Hb. lia. }
      rewrite lookup_app_l in Ha by lia.
      rewrite Hi, lookup_app_r in Hb by lia.
      rewrite Nat.sub_diag in Hb. simpl in Hb. injection Hb as <-.
      rewrite last_lookup in Hlast.
      replace (pred (length p)) with i in Hlast by lia.
      rewrite Hlast in Ha. by injection Ha as <-.
Qed.

(** One successor. *)
Lemma visit_expanding before level st v pv w :
  expanding g source before level st →
  v ∈ level → before !! v = Some pv →
  leads g source v pv → has_edge g v w = true →
  expanding g source before level (visit pv st w)
  ∧ st.1 ⊆ (visit pv st w).1
  ∧ is_Some ((visit pv st w).1 !! w).
Proof.
  intros [Hmono Hsound Hfresh Hold Hbound Horigin] Hv Hbv Hpv Hedge.
  unfold visit.
  destruct (st.1 !! w) as [pw|] eqn:Hw; [by split_and!|].
  assert (before !! w = None) as Hbw.
  { destruct (before !! w) as [p|] eqn:Hb; [|done].
    eapply lookup_weaken in Hb; [|done]. congruence. }
  simpl. split_and!.
  - split; simpl.
    + etrans; [done|]. by apply insert_subseteq.
    + intros x p. rewrite lookup_insert. case_decide as Hx.
      * subst x. intros [= <-]. by eapply leads_step.
      * apply Hsound.
    + intros x Hx. apply elem_of_app in Hx as [Hx|Hx].
      * destruct (Hfresh x Hx) as [[p Hp] Hb]. split; [|done].
        rewrite lookup_insert. case_decide; eauto.
      * apply list_elem_of_singleton in Hx as ->. split; [|done].
        rewrite lookup_insert_eq. eauto.
    + intros x. rewrite lookup_insert. case_decide as Hx.
      * subst x. intros _. right. apply elem_of_app. right.
        by apply list_elem_of_singleton.
      * intros H. destruct (Hold x H) as [?|?]; [by left|right].
        apply elem_of_app. by left.
    + rewrite dom_insert. apply union_least; [|done].
      apply singleton_subseteq_l. by eapply successor_vertex.
    + intros x p. rewrite lookup_insert. case_decide as Hx.
      * subst x. intros [= <-]. right. split; [done|]. by exists v, pv.
      * apply Horigin.
  - by apply insert_subseteq.
  - rewrite lookup_insert_eq. eauto.
Qed.

Lemma visits_expanding before level pv v ws :
  ∀ st,
    expanding g source before level st →
    v ∈ level → before !! v = Some pv →
    leads g source v pv →
    (∀ w, w ∈ ws → has_edge g v w = true) →
    expanding g source before level (foldl (visit pv) st ws)
    ∧ st.1 ⊆ (foldl (visit pv) st ws).1
    ∧ ∀ w, w ∈ ws → is_Some ((foldl (visit pv) st ws).1 !! w).
Proof.
  induction ws as [|w ws IH]; intros st Hst Hv Hbv Hpv Hedges; simpl.
  - split_and!; [done|done|]. by intros w ?%not_elem_of_nil.
  - destruct (visit_expanding before level st v pv w) as (H1 & H2 & H3);
      [done|done|done|done|apply Hedges, list_elem_of_here|].
    destruct (IH (visit pv st w)) as (H1' & H2' & H3');
      [done|done|done|done|..].
    { intros x Hx. apply Hedges. by apply list_elem_of_further. }
    split_and!; [done|by etrans|].
    intros x Hx. apply elem_of_cons in Hx as [->|Hx]; [|by apply H3'].
    destruct H3 as [p Hp]. exists p. by eapply lookup_weaken.
Qed.

(** One node of the level. *)
Lemma expand_expanding before level st v :
  expanding g source before level st →
  v ∈ level → is_Some (before !! v) →
  expanding g source before level (expand g st v)
  ∧ st.1 ⊆ (expand g st v).1
  ∧ ∀ w, has_edge g v w = true → is_Some ((expand g st v).1 !! w).
Proof.
  intros Hst Hv [pv Hbv]. unfold expand.
  assert (st.1 !! v = Some pv) as Hpv
    by (eapply lookup_weaken; [done|apply Hst]).
  rewrite Hpv.
  destruct (visits_expanding before level pv v (successors g v) st)
    as (H1 & H2 & H3); [done|done|done|by eapply expanding_sound|..].
  { intros w. apply elem_of_successors. }
  split_and!; [done|done|]. intros w Hw. by apply H3, elem_of_successors.
Qed.

Lemma expands_expanding before level todo :
  ∀ st,
    expanding g source before level st →
    (∀ v, v ∈ todo → v ∈ level ∧ is_Some (before !! v)) →
    expanding g source before level (foldl (expand g) st todo)
    ∧ st.1 ⊆ (foldl (expand g) st todo).1
    ∧ ∀ v w, v ∈ todo → has_edge g v w = true →
        is_Some ((foldl (expand g) st todo).1 !! w).
Proof.
  induction todo as [|v todo IH]; intros st Hst Htodo; simpl.
  - split_and!; [done|done|]. by intros v w ?%not_elem_of_nil.
  - destruct (Htodo v) as [Hv Hbv]; [apply list_elem_of_here|].
    destruct (expand_expanding before level st v) as (H1 & H2 & H3);
      [done|done|done|].
    destruct (IH (expand g st v)) as (H1' & H2' & H3'); [done|..].
    { intros x Hx. apply Htodo. by apply list_elem_of_further. }
    split_and!; [done|by etrans|].
    intros x w Hx Hw. apply elem_of_cons in Hx as [->|Hx]; [|by eapply H3'].
    destruct (H3 w Hw) as [p Hp]. exists p. by eapply lookup_weaken.
Qed.

(** One level, from the paths and the level it starts with. *)
Lemma level_expanding paths level :
  searching g source paths level →
  let st := foldl (expand g) (paths, []) level in
  expanding g source paths level st
  ∧ ∀ v w, v ∈ level → has_edge g v w = true → is_Some (st.1 !! w).
Proof.
  intros [Hsrc Hsound Hlevel Hclosed Hbound] st.
  destruct (expands_expanding paths level level (paths, []))
    as (Hexp & _ & Hdone); [|by auto|done].
  split; simpl; try done.
  - by intros w ?%not_elem_of_nil.
  - intros v ?. by left.
  - intros w p ?. by left.
Qed.

Lemma level_searching paths level :
  searching g source paths level →
  let st := foldl (expand g) (paths, []) level in
  searching g source st.1 st.2
  ∧ (st.2 ≠ [] → size (dom paths) < size (dom st.1)).
Proof.
  intros Hs st.
  destruct (level_expanding paths level Hs)
    as ([Hmono Hsound' Hfresh Hold Hbound' _] & Hdone).
  destruct Hs as [Hsrc Hsound Hlevel Hclosed Hbound].
  subst st. destruct (foldl (expand g) (paths, []) level) as [paths' next].
  simpl in *. split.
  - split; try done.
    + destruct Hsrc as [p Hp]. exists p. by eapply lookup_weaken.
    + intros v Hv. by apply Hfresh.
    + intros v Hv. destruct (Hold v Hv) as [Hb|Hn]; [|by left].
      right. intros w Hw.
      destruct (Hclosed v Hb) as [Hl|Hc]; [by eapply Hdone|].
      destruct (Hc w Hw) as [p Hp]. exists p. by eapply lookup_weaken.
  - intros Hne. apply subset_size. split.
    + by apply subseteq_dom.
    + destruct next as [|w rest]; [done|].
      destruct (Hfresh w) as [Hin Hout]; [apply list_elem_of_here|].
      intros Hsubset. apply elem_of_dom in Hin. apply Hsubset in Hin.
      apply elem_of_dom in Hin. rewrite Hout in Hin. by destruct Hin.
Qed.

(** A walk of two names or more ends with an edge. *)
Lemma leads_last_edge w q :
  leads g source w q → 2 ≤ length q →
  ∃ q' v, q = q' ++ [w] ∧ leads g source v q' ∧ has_edge g v w = true.
Proof.
  intros (Hhead & Hlast & Hwalk) Hlen.
  apply last_Some in Hlast as [q' ->].
  rewrite length_app in Hlen. simpl in Hlen.
  destruct (last q') as [v|] eqn:Hv.
  2:{ apply last_None in Hv. subst q'. simpl in Hlen. lia. }
  exists q', v. split_and!; [done|split_and!|].
  - destruct q'; [simpl in Hlen; lia|done].
  - done.
  - intros i a b Ha Hb. apply (Hwalk i).
    + by apply lookup_app_l_Some.
    + by apply lookup_app_l_Some.
  - rewrite last_lookup in Hv. apply (Hwalk (pred (length q'))).
    + by apply lookup_app_l_Some.
    + replace (S (pred (length q'))) with (length q') by lia.
      by rewrite list_lookup_middle.
Qed.

Lemma level_measured k paths level :
  searching g source paths level →
  measured g source k paths level →
  let st := foldl (expand g) (paths, []) level in
  measured g source (S k) st.1 st.2.
Proof.
  intros Hs [Hlength Hlevel Hleast] st.
  destruct (level_expanding paths level Hs)
    as ([Hmono Hsound' Hfresh Hold Hbound' Horigin] & Hdone).
  destruct Hs as [Hsrc Hsound Hin Hclosed Hbound].
  subst st. destruct (foldl (expand g) (paths, []) level) as [paths' next].
  simpl in *.
  assert (∀ w p, paths' !! w = Some p →
            (paths !! w = Some p ∧ length p ≤ S k)
            ∨ (paths !! w = None ∧ length p = S (S k))) as Hlen.
  { intros w p Hp. destruct (Horigin w p Hp) as [Hb|(Hb & v & pv & Hv & Hbv & ->)].
    - left. split; [done|]. by eapply Hlength.
    - right. split; [done|].
      apply Hlevel in Hv as (p0 & Hp0 & Hl0).
      rewrite length_app. simpl. rewrite Hbv in Hp0. injection Hp0 as ->. lia. }
  split.
  - intros v p Hp. destruct (Hlen v p Hp) as [[_ ?]|[_ ?]]; lia.
  - intros v. split.
    + intros Hv. destruct (Hfresh v Hv) as [[p Hp] Hb]. exists p.
      split; [done|]. destruct (Hlen v p Hp) as [[? _]|[_ ?]]; [congruence|done].
    + intros (p & Hp & Hl).
      destruct (Hlen v p Hp) as [[_ ?]|[Hb _]]; [lia|].
      destruct (Hold v) as [[? ?]|?]; [by eauto|congruence|done].
  - intros w q Hq Hl.
    destruct (decide (length q ≤ S k)) as [Hshort|Hlong].
    + destruct (Hleast w q Hq Hshort) as (p & Hp & Hpl).
      exists p. split; [by eapply lookup_weaken|done].
    + destruct (leads_last_edge w q Hq) as (q' & v & -> & Hq' & Hedge); [lia|].
      rewrite length_app in Hl, Hlong |- *. simpl in Hl, Hlong |- *.
      destruct (Hleast v q' Hq') as (p' & Hp' & Hpl'); [lia|].
      assert (is_Some (paths' !! w)) as [p Hp].
      { destruct (Hclosed v) as [Hv|Hc]; [by eauto|by eapply Hdone|].
        destruct (Hc w Hedge) as [p Hp]. exists p. by eapply lookup_weaken. }
      exists p. split; [done|].
      destruct (Hlen w p Hp) as [[_ ?]|[_ ?]]; lia.
Qed.

(** All levels: with enough fuel the search stops on an empty level. *)
Lemma levels_closed fuel :
  ∀ paths level,
    searching g source paths level →
    (level ≠ [] → size (vertices g) < size (dom paths) + fuel) →
    searching g source (levels fuel g paths level) [].
Proof.
  induction fuel as [|fuel IH]; intros paths level Hs Hfuel.
  - destruct level as [|v level].
    + simpl. done.
    + exfalso. specialize (Hfuel ltac:(done)).
      pose proof (subseteq_size _ _ (searching_bound _ _ _ _ Hs)). lia.
  - destruct level as [|v level]; [done|].
    cbn [levels].
    destruct (level_searching paths (v :: level) Hs) as (Hs' & Hgrow).
    apply IH; [done|].
    intros Hne. specialize (Hgrow Hne). specialize (Hfuel ltac:(done)). lia.
Qed.

Lemma searching_reaches paths v w :
  searching g source paths [] →
  is_Some (paths !! v) → connected g v w → is_Some (paths !! w).
Proof.
  intros Hs Hv Hvw. induction Hvw as [|x y z Hxy _ IH]; [done|].
  apply IH. destruct (searching_closed _ _ _ _ Hs x Hv) as [Hin|Hc].
  - by apply not_elem_of_nil in Hin.
  - by apply Hc.
Qed.

(** The lengths, at the end of the search. *)
Lemma levels_measured fuel :
  ∀ k paths level,
    searching g source paths level →
    measured g source k paths level →
    (level ≠ [] → size (vertices g) < size (dom paths) + fuel) →
    ∃ k', measured g source k' (levels fuel g paths level) [].
Proof.
  induction fuel as [|fuel IH]; intros k paths level Hs Hm Hfuel.
  - destruct level as [|v level].
    + simpl. by exists k.
    + exfalso. specialize (Hfuel ltac:(done)).
      pose proof (subseteq_size _ _ (searching_bound _ _ _ _ Hs)). lia.
  - destruct level as [|v level]; [by exists k|].
    cbn [levels].
    destruct (level_searching paths (v :: level) Hs) as (Hs' & Hgrow).
    apply (IH (S k)); [done|by apply level_measured|].
    intros Hne. specialize (Hgrow Hne). specialize (Hfuel ltac:(done)). lia.
Qed.

End Search.

Lemma searching_start g source :
  has_node g source = true →
  searching g source {[source := [source]]} [source].
Proof.
  intros Hs. split.
  - rewrite lookup_singleton_eq. eauto.
  - intros v p. rewrite lookup_singleton. case_decide; [|done].
    subst v. intros [= <-]. apply leads_start.
  - intros v ->%list_elem_of_singleton. rewrite lookup_singleton_eq. eauto.
  - intros v. rewrite lookup_singleton. case_decide; [|by intros []].
    subst v. intros _. left. apply list_elem_of_here.
  - rewrite dom_singleton. apply singleton_subseteq_l.
    by apply node_vertex.
Qed.

Lemma measured_start g source :
  measured g source 0 {[source := [source]]} [source].
Proof.
  split.
  - intros v p. rewrite lookup_singleton. case_decide; [|done].
    by intros [= <-].
  - intros v. rewrite list_elem_of_singleton. split.
    + intros ->. exists [source]. by rewrite lookup_singleton_eq.
    + intros (p & Hp & _). rewrite lookup_singleton in Hp.
      by case_decide.
  - intros v q (Hhead & Hlast & _) Hl.
    destruct q as [|x [|y q]]; simpl in *; [done| |lia].
    simplify_eq. eexists. split; [apply lookup_singleton_eq|done].
Qed.

(** The default router finds a route between connected nodes, and what
    it returns always leads from the source to the target. *)
Lemma shortest_path_connected g source target :
  has_node g source = true → has_node g target = true →
  connected g source target →
  ∃ p, shortest_path g source target = inr p ∧ leads g source target p.
Proof.
  intros Hs Ht Hconn. unfold shortest_path. rewrite Hs, Ht. simpl.
  pose proof (searching_start g source Hs) as Hinit.
  assert (searching g source
            (levels (size (vertices g)) g {[source := [source]]} [source]) [])
    as Hend.
  { apply levels_closed; [done|].
    intros _. rewrite dom_singleton_L, size_singleton. lia. }
  destruct (searching_reaches g source _ source target Hend) as [p Hp].
  - by eapply searching_source.
  - done.
  - exists p. rewrite Hp. split; [done|]. by eapply searching_sound.
Qed.

Lemma shortest_path_sound g source target p :
  shortest_path g source target = inr p → leads g source target p.
Proof.
  unfold shortest_path.
  destruct (has_node g source) eqn:Hs; [|done].
  destruct (has_node g target) eqn:Ht; [|done]. simpl.
  destruct (levels _ _ _ _ !! target) as [p'|] eqn:Hp; [|done].
  intros [= <-].
  eapply (searching_sound g source _ []); [|done].
  apply levels_closed; [by apply searching_start|].
  intros _. rewrite dom_singleton_L, size_singleton. lia.
Qed.

(** No walk from the source to the target has fewer names than the route
    of the default router. *)
Lemma shortest_path_shortest g source target p q :
  shortest_path g source target = inr p →
  leads g source target q → length p ≤ length q.
Proof.
  unfold shortest_path.
  destruct (has_node g source) eqn:Hs; [|done].
  destruct (has_node g target) eqn:Ht; [|done]. simpl.
  destruct (levels _ _ _ _ !! target) as [p'|] eqn:Hp; [|done].
  intros [= <-] Hq.
  destruct (levels_measured g source (size (vertices g)) 0
              {[source := [source]]} [source])
    as [k [Hlength Hlevel Hleast]].
  { by apply searching_start. }
  { apply measured_start. }
  { intros _. rewrite dom_singleton_L, size_singleton. lia. }
  destruct (decide (length q ≤ S k)) as [Hshort|Hlong].
  - destruct (Hleast target q Hq Hshort) as (p0 & Hp0 & Hl). congruence.
  - specialize (Hlength target p' Hp). lia.
Qed.

(** C8.  With the default routing algorithm, for two nodes of the graph
    such that the second can be reached from the first along edges,
    [get_route] returns a list that starts with the first node, ends with
    the second, and in which every two consecutive names are joined by an
    edge of the graph. *)
Theorem C8_get_route (source dest : string) (st : state) :
  routing_algo (self st) = shortest_path →
  has_node (network (self st)) source = true →
  has_node (network (self st)) dest = true →
  connected (network (self st)) source dest →
  ∃ p,
    get_route source dest st = (Ok p, st)
    ∧ head p = Some source
    ∧ last p = Some dest
    ∧ ∀ i u v, p !! i = Some u → p !! (S i) = Some v →
        has_edge (network (self st)) u v = true.
Proof.
  intros Halgo Hs Hd Hconn.
  destruct (shortest_path_connected _ _ _ Hs Hd Hconn)
    as (p & Hp & Hhead & Hlast & Hwalk).
  exists p. split_and!; try done.
  unfold get_route, bind, get_self. simpl. rewrite Halgo, Hp. done.
Qed.

Lemma C8_get_route_witness :
  ∃ p,
    get_route "Alice" "Charlie" line = (Ok p, line)
    ∧ head p = Some "Alice"
    ∧ last p = Some "Charlie"
    ∧ ∀ i u v, p !! i = Some u → p !! (S i) = Some v →
        has_edge (network (self line)) u v = true.
Proof.
  apply (C8_get_route "Alice" "Charlie" line).
  - reflexivity.
  - reflexivity.
  - reflexivity.
  - apply (rtc_l _ _ "Bob"); [reflexivity|].
    apply (rtc_l _ _ "Charlie"); [reflexivity|]. apply rtc_refl.
Defined.

(** The routes of the line Alice - Bob - Charlie. *)
Example routes_on_line :
  shortest_path (network (self line)) "Alice" "Charlie"
    = inr ["Alice"; "Bob"; "Charlie"]
  ∧ shortest_path (network (self line)) "Charlie" "Charlie"
    = inr ["Charlie"]
  ∧ shortest_path (network (self line)) "Alice" "Zed" = inl NodeNotFound
  ∧ shortest_path (add_node "Zed" (network (self line))) "Alice" "Zed"
    = inl NetworkXNoPath.
Proof. split_and!; reflexivity. Qed.

(** ** Further properties of the methods *)

(** *** Registration *)

(** X1.  [_remove_network_node] never raises.  When the host is a node of
    the graph, the node goes, and with it every edge that starts or ends
    there; every other node and every other edge stays, with its weight,
    and nothing is logged.  When it is not a node, the graph stays as it
    is and one error is logged.  The ARP table is not touched either
    way. *)
Theorem X1_remove_network_node (host : Host) (st : state) :
  let n := host_id host in
  let g := network (self st) in
  let st' := (_remove_network_node host st).2 in
  (_remove_network_node host st).1 = Ok tt
  ∧ ARP (self st') = ARP (self st)
  ∧ (has_node g n = true →
       (∀ u, has_node (network (self st')) u =
             if decide (u = n) then false else has_node g u)
       ∧ (∀ u v, edge_weight (network (self st')) u v =
                 if decide (u = n ∨ v = n) then None else edge_weight g u v)
       ∧ calls st' = calls st)
  ∧ (has_node g n = false →
       network (self st') = g
       ∧ calls st' =
           calls st ++
           [Logger ERROR
              "attempted to remove a non-exiting node from network"]).
Proof.
  intros n g st'. subst st'.
  unfold _remove_network_node, bind, get_self, remove_node. simpl.
  fold n g. unfold has_node.
  destruct (g !! n) as [nbrs|] eqn:Hn; simpl.
  - split_and!; [done|done| |].
    + intros _. split_and!; [| |done].
      * intros u. rewrite lookup_fmap. case_decide as Hu.
        -- subst u. by rewrite lookup_delete_eq.
        -- rewrite lookup_delete_ne by done. apply bool_decide_ext.
           by rewrite fmap_is_Some.
      * intros u v. unfold edge_weight. rewrite lookup_fmap.
        destruct (decide (u = n)) as [->|Hu].
        -- rewrite lookup_delete_eq. simpl. by rewrite decide_True by auto.
        -- rewrite lookup_delete_ne by done.
           destruct (g !! u) as [nb|] eqn:Hgu; simpl; [|by case_decide].
           destruct (decide (v = n)) as [->|Hv].
           ++ rewrite lookup_delete_eq. by rewrite decide_True by auto.
           ++ rewrite lookup_delete_ne by done.
              by rewrite decide_False by naive_solver.
    + done.
  - split_and!; [done|done| |done].
    done.
Qed.

(** What [remove_host] leaves behind. *)
Lemma remove_host_run host st :
  remove_host host st =
    (Ok tt, mkState (set_ARP (delete (host_id host)) (self st)) (calls st)).
Proof.
  unfold remove_host, bind, get_self. simpl. case_decide as Hin; [done|].
  apply eq_None_not_Some in Hin. unfold ret, set_ARP.
  rewrite delete_id by done. by destruct st as [[] ?].
Qed.

(** X2.  Looking up what was registered.  After [add_host], [get_host]
    returns the host under its id, whatever was registered under that id
    before, and [get_host_name] returns the name of its backend
    connection.  After [remove_host] both return [None]: asking for a
    host that is not in the table is no error.  Under every other id both
    answer as they did before. *)
Theorem X2_registration (host : Host) (k : string) (st : state) :
  let st1 := (add_host host st).2 in
  let st2 := (remove_host host st1).2 in
  get_host (host_id host) st1 = (Ok (Some host), st1)
  ∧ get_host_name (host_id host) st1 = (Ok (Some (cqc_name host)), st1)
  ∧ get_host (host_id host) st2 = (Ok None, st2)
  ∧ get_host_name (host_id host) st2 = (Ok None, st2)
  ∧ (k ≠ host_id host →
       (get_host k st1).1 = (get_host k st).1
       ∧ (get_host k st2).1 = (get_host k st).1
       ∧ (get_host_name k st1).1 = (get_host_name k st).1
       ∧ (get_host_name k st2).1 = (get_host_name k st).1).
Proof.
  intros st1 st2.
  assert (ARP (self st1) = <[host_id host := host]> (ARP (self st))) as H1.
  { unfold st1. by rewrite add_host_run. }
  assert (ARP (self st2) = delete (host_id host) (ARP (self st1))) as H2.
  { unfold st2. by rewrite remove_host_run. }
  unfold get_host, get_host_name, bind, get_self, ret. simpl.
  rewrite H2, H1.
  rewrite lookup_insert_eq, lookup_delete_eq. simpl.
  split_and!; try done.
  intros Hk. rewrite lookup_delete_ne, !lookup_insert_ne by done. done.
Qed.

(** *** What the methods do to the network object *)

Section Steady.

Context (peers : Peers).

Lemma steady_tame {A} (P : event → Prop) (Q : A → Prop) (m : M A) :
  tame P Q m → steady m.
Proof. intros Hm st. apply Hm. Qed.

Lemma steady_ret {A} (a : A) : steady (ret a).
Proof. done. Qed.

Lemma steady_bind {A B} (m : M A) (k : A → M B) :
  steady m → (∀ a, steady (k a)) → steady (bind m k).
Proof.
  intros Hm Hk st. unfold bind. specialize (Hm st).
  destruct (m st) as [[a|e|] st1]; simpl in *; [|done|done].
  by rewrite Hk.
Qed.

Lemma steady_host_call h c : steady (host_call peers h c).
Proof. intros st. unfold host_call. by destruct (peers _ _ _). Qed.

Lemma steady_while_None fuel (attempt : M value) :
  steady attempt → steady (while_None fuel attempt).
Proof.
  intros Ha. induction fuel as [|fuel IH]; [done|]. simpl.
  apply steady_bind; [done|]. intros []; done.
Qed.

Lemma steady_for_each {A} (xs : list A) (body : A → M unit) :
  (∀ x, steady (body x)) → steady (for_each xs body).
Proof.
  intros Hb. induction xs as [|x xs IH]; [done|]. simpl.
  by apply steady_bind.
Qed.

Lemma steady_subscript {A} (xs : list A) i : steady (subscript xs i).
Proof. apply (steady_tame any any), tame_subscript. Qed.

Lemma steady_get_host k : steady (get_host k).
Proof. done. Qed.

Lemma steady_attribute o : steady (attribute o).
Proof. by destruct o. Qed.

Lemma steady_getitem v key : steady (getitem v key).
Proof. destruct v; try done. simpl. by repeat case_decide. Qed.

Lemma steady_emit e : steady (emit e).
Proof. done. Qed.

Lemma steady_entanglement_swap fuel sender receiver route q_id :
  steady (_entanglement_swap peers fuel sender receiver route q_id).
Proof.
  unfold _entanglement_swap.
  apply steady_bind; [apply steady_get_host|intros host_sender].
  apply steady_bind.
  { apply steady_for_each. intros i. unfold swap_create.
    apply steady_bind; [apply steady_subscript|intros ?].
    apply steady_bind; [apply steady_get_host|intros ?].
    apply steady_bind; [apply steady_attribute|intros ?].
    apply steady_bind; [apply steady_subscript|intros ?].
    apply steady_bind; [apply steady_host_call|intros ?]. done. }
  intros _. apply steady_bind.
  { apply steady_for_each. intros i. unfold swap_transfer.
    apply steady_bind.
    { apply steady_while_None.
      apply steady_bind; [apply steady_subscript|intros ?].
      apply steady_bind; [apply steady_get_host|intros ?].
      apply steady_bind; [apply steady_attribute|intros ?].
      apply steady_bind; [apply steady_subscript|intros ?].
      apply steady_host_call. }
    intros q.
    apply steady_bind; [apply steady_getitem|intros ?].
    apply steady_bind; [apply steady_getitem|intros ?].
    apply steady_bind; [apply steady_subscript|intros ?].
    apply steady_bind; [apply steady_subscript|intros ?].
    apply steady_bind; [apply steady_emit|intros ?].
    apply steady_bind; [apply steady_subscript|intros ?].
    apply steady_bind; [apply steady_get_host|intros ?].
    apply steady_bind; [apply steady_attribute|intros ?].
    apply steady_bind; [apply steady_host_call|intros ?]. done. }
  intros _.
  apply steady_bind; [apply steady_attribute|intros ?].
  apply steady_bind; [apply steady_subscript|intros ?].
  apply steady_bind; [apply steady_host_call|intros ?].
  apply steady_bind; [apply steady_getitem|intros ?].
  apply steady_bind; [apply steady_getitem|intros ?].
  apply steady_bind; [apply steady_host_call|intros ?]. done.
Qed.

Lemma steady_shares_epr sender receiver :
  steady (shares_epr peers sender receiver).
Proof.
  unfold shares_epr.
  apply steady_bind; [apply steady_get_host|intros ?].
  apply steady_bind; [apply steady_get_host|intros ?].
  apply steady_bind; [apply steady_attribute|intros ?].
  apply steady_bind; [apply steady_host_call|intros left].
  destruct (truthy left); [|done].
  apply steady_bind; [apply steady_attribute|intros ?].
  apply steady_host_call.
Qed.

Lemma steady_get_route source dest : steady (get_route source dest).
Proof. apply (steady_tame any any), tame_get_route. Qed.

Lemma steady_route_quantum_info sender receiver qubits :
  steady (_route_quantum_info peers sender receiver qubits).
Proof.
  unfold _route_quantum_info.
  apply steady_bind; [apply steady_get_route|intros route].
  by apply (steady_tame any (moved qubits)), tame_hops.
Qed.

Lemma steady_encode route payload ttl : steady (_encode route payload ttl).
Proof. apply (steady_tame any any), tame_encode. Qed.

(** The loop only ever changes the queue of the network object. *)
Lemma process_queue_self fuel st :
  ∃ q, self (_process_queue peers fuel st).2 = set_packet_queue q (self st).
Proof.
  revert st. induction fuel as [|fuel IH]; intros st.
  { exists (_packet_queue (self st)). simpl. by destruct (self st). }
  simpl. unfold bind at 1, get_self. simpl.
  destruct (_stop_thread (self st)).
  { exists (_packet_queue (self st)). simpl. by destruct (self st). }
  destruct (_packet_queue (self st)) as [|packet rest] eqn:Hq; [apply IH|].
  unfold bind, emit, modify_self. simpl.
  pose proof (process_packet_self peers packet (dequeued st rest)) as Hself.
  unfold dequeued in Hself.
  destruct (process_packet peers packet _) as [[[]|e|] st2]; simpl in *.
  - destruct (IH st2) as [q Hq2]. exists q. rewrite Hq2, Hself.
    by destruct (self st).
  - exists rest. by rewrite Hself.
  - exists rest. by rewrite Hself.
Qed.

(** Whatever holds of the network object to begin with, and is kept by
    each of the assignments the methods make to its fields, holds after
    every sequence of calls. *)
Lemma follows_self (I : Network → Prop) st0 :
  I (self st0) →
  (∀ n a, I n → I (set_routing_algo_field a n)) →
  (∀ n d, I n → I (set_delay_field d n)) →
  (∀ n h, I n →
     I (set_network (update_graph h) (set_ARP <[host_id h := h]> n))) →
  (∀ n h, I n → I (set_ARP (delete (host_id h)) n)) →
  (∀ n h g, I n → remove_node (host_id h) (network n) = inr g →
     I (set_network (λ _, g) n)) →
  (∀ n q, I n → I (set_packet_queue q n)) →
  (∀ n, I n → I (set_stop_thread true n)) →
  (∀ n, I n → I (set_queue_processor_thread true n)) →
  ∀ st, follows peers st0 st → I (self st).
Proof.
  intros H0 Halgo Hdelay Hadd Hremove Hnode Hqueue Hstop Hstart st Hst.
  induction Hst as [|st a _ IH|st d _ IH|st h _ IH|st h _ IH|st h _ IH
                    |st s r _ IH|st k _ IH|st _ IH|st k _ IH|st s d _ IH
                    |st fuel s r route q_id _ IH|st s r qubits _ IH
                    |st fuel _ IH|st packet _ IH|st _ IH|st _ IH
                    |st route payload ttl _ IH]; try done.
  - by apply Halgo.
  - by apply Hdelay.
  - rewrite add_host_run. by apply Hadd.
  - rewrite remove_host_run. by apply Hremove.
  - unfold _remove_network_node, bind, get_self. simpl.
    destruct (remove_node _ _) as [e|g] eqn:Hg; simpl.
    + unfold remove_node in Hg. destruct (_ !! _); by simplify_eq.
    + by eapply Hnode.
  - by rewrite steady_shares_epr.
  - by rewrite steady_get_route.
  - by rewrite steady_entanglement_swap.
  - by rewrite steady_route_quantum_info.
  - destruct (process_queue_self fuel st) as [q ->]. by apply Hqueue.
  - by apply Hqueue.
  - by apply Hstop.
  - by apply Hstart.
  - by rewrite steady_encode.
Qed.

End Steady.

(** *** Invariants of the network object *)

(** Every edge of the graph joins two nodes of the graph. *)
Lemma closed_add_node n (g : DiGraph) :
  (∀ u v, has_edge g u v = true → has_node g u = true ∧ has_node g v = true) →
  ∀ u v, has_edge (add_node n g) u v = true →
    has_node (add_node n g) u = true ∧ has_node (add_node n g) v = true.
Proof.
  intros Hg u v Huv.
  assert (∀ x, has_node g x = true → has_node (add_node n g) x = true)
    as Hmono.
  { intros x. rewrite !has_node_true, add_node_lookup.
    case_decide; [eauto|done]. }
  apply has_edge_true in Huv. rewrite edge_weight_add_node in Huv.
  apply has_edge_true, Hg in Huv as [??]. auto.
Qed.

Lemma closed_add_edge a b w (g : DiGraph) :
  (∀ u v, has_edge g u v = true → has_node g u = true ∧ has_node g v = true) →
  ∀ u v, has_edge (add_edge a b w g) u v = true →
    has_node (add_edge a b w g) u = true
    ∧ has_node (add_edge a b w g) v = true.
Proof.
  intros Hg u v Huv.
  assert (∀ x, x = a ∨ x = b ∨ has_node g x = true →
               has_node (add_edge a b w g) x = true) as Hnode.
  { intros x. rewrite !has_node_true, add_edge_lookup.
    repeat case_decide; naive_solver. }
  apply has_edge_true in Huv. rewrite edge_weight_add_edge in Huv.
  case_decide as Hab; [destruct Hab as [-> ->]; auto|].
  apply has_edge_true, Hg in Huv as [??]. auto.
Qed.

Lemma closed_update_graph host (g : DiGraph) :
  (∀ u v, has_edge g u v = true → has_node g u = true ∧ has_node g v = true) →
  ∀ u v, has_edge (update_graph host g) u v = true →
    has_node (update_graph host g) u = true
    ∧ has_node (update_graph host g) v = true.
Proof.
  intros Hg. unfold update_graph.
  pose proof (closed_add_node (host_id host) g Hg) as Hstart.
  generalize dependent (add_node (host_id host) g). clear Hg g.
  induction (connections host) as [|c cs IH]; intros g Hg; simpl; [done|].
  apply IH. unfold connect.
  destruct (has_edge g (host_id host) c).
  - destruct (has_edge g c (host_id host)); [done|by apply closed_add_edge].
  - destruct (has_edge _ c (host_id host)); [by apply closed_add_edge|].
    by apply closed_add_edge, closed_add_edge.
Qed.

Lemma remove_node_weight n (g g' : DiGraph) u v :
  remove_node n g = inr g' →
  edge_weight g' u v =
    if decide (u = n ∨ v = n) then None else edge_weight g u v.
Proof.
  unfold remove_node. destruct (g !! n); [|done]. intros [= <-].
  unfold edge_weight. rewrite lookup_fmap.
  destruct (decide (u = n)) as [->|Hu].
  - rewrite lookup_delete_eq. simpl. by rewrite decide_True by auto.
  - rewrite lookup_delete_ne by done.
    destruct (g !! u) as [nb|] eqn:Hgu; simpl; [|by case_decide].
    destruct (decide (v = n)) as [->|Hv].
    + rewrite lookup_delete_eq. by rewrite decide_True by auto.
    + rewrite lookup_delete_ne by done.
      by rewrite decide_False by naive_solver.
Qed.

Lemma remove_node_has_node n (g g' : DiGraph) u :
  remove_node n g = inr g' →
  has_node g' u = if decide (u = n) then false else has_node g u.
Proof.
  unfold remove_node. destruct (g !! n); [|done]. intros [= <-].
  unfold has_node. rewrite lookup_fmap. case_decide as Hu.
  - subst u. by rewrite lookup_delete_eq.
  - rewrite lookup_delete_ne by done. apply bool_decide_ext.
    by rewrite fmap_is_Some.
Qed.

(** X3.  The graph of a network that started empty and was only changed
    through the methods of the network is, between any two calls,
    symmetric (an edge is there exactly when its reverse is, with the same
    weight), every weight is 1, and every edge joins two nodes of the
    graph.  Neither [add_host] nor [_remove_network_node] can break this,
    and no other method changes the graph. *)
Theorem X3_graph_invariants (peers : Peers) (st : state) (u v : string) :
  follows peers fresh st →
  let g := network (self st) in
  edge_weight g u v = edge_weight g v u
  ∧ (edge_weight g u v = None ∨ edge_weight g u v = Some 1%Z)
  ∧ (has_edge g u v = true → has_node g u = true ∧ has_node g v = true).
Proof.
  intros Hst. simpl. revert u v.
  apply (follows_self peers
    (λ n, ∀ u v,
       edge_weight (network n) u v = edge_weight (network n) v u
       ∧ (edge_weight (network n) u v = None
          ∨ edge_weight (network n) u v = Some 1%Z)
       ∧ (has_edge (network n) u v = true →
          has_node (network n) u = true ∧ has_node (network n) v = true))
    fresh); try done.
  - intros u v. simpl. unfold edge_weight, has_edge.
    rewrite !lookup_empty. simpl. auto.
  - intros n h IH u v. simpl.
    split_and!.
    + rewrite !edge_weight_update_graph.
      destruct (IH u v) as (-> & _).
      repeat case_decide; try done; exfalso; naive_solver.
    + rewrite edge_weight_update_graph.
      destruct (IH u v) as (_ & [->| ->] & _); case_decide; auto.
    + apply closed_update_graph. intros. by apply IH.
  - intros n h g IH Hg u v. simpl.
    rewrite !(remove_node_weight _ _ _ _ _ Hg).
    rewrite has_edge_true, !(remove_node_has_node _ _ _ _ Hg).
    rewrite !(remove_node_weight _ _ _ _ _ Hg).
    destruct (IH u v) as (Hsym & Hunit & Hnodes).
    rewrite has_edge_true in Hnodes.
    split_and!.
    + repeat case_decide; try done; exfalso; naive_solver.
    + case_decide; auto.
    + case_decide as Huv; [by intros [? ?]|].
      rewrite !decide_False by naive_solver. done.
Qed.

Lemma X3_graph_invariants_witness :
  let g := network (self line) in
  edge_weight g "Alice" "Bob" = edge_weight g "Bob" "Alice"
  ∧ (edge_weight g "Alice" "Bob" = None
     ∨ edge_weight g "Alice" "Bob" = Some 1%Z)
  ∧ (has_edge g "Alice" "Bob" = true →
     has_node g "Alice" = true ∧ has_node g "Bob" = true).
Proof.
  apply (X3_graph_invariants obliging line "Alice" "Bob").
  apply (follows_add_host obliging fresh _ Charlie).
  apply (follows_add_host obliging fresh _ Bob).
  apply (follows_add_host obliging fresh _ Alice).
  apply follows_refl.
Defined.

(** X4.  In a network that started empty and was only changed through its
    methods, the host found under an id in the ARP table is a host with
    that id. *)
Theorem X4_ARP_keys (peers : Peers) (st : state) (k : string) (h : Host) :
  follows peers fresh st →
  ARP (self st) !! k = Some h →
  host_id h = k.
Proof.
  intros Hst. revert k h.
  apply (follows_self peers
    (λ n, ∀ k h, ARP n !! k = Some h → host_id h = k) fresh); try done.
  - intros n host IH k h. simpl.
    destruct (decide (k = host_id host)) as [->|Hk].
    + rewrite lookup_insert_eq. by intros [= ->].
    + rewrite lookup_insert_ne by done. apply IH.
  - intros n host IH k h. simpl.
    intros [_ Hk]%lookup_delete_Some. by apply IH.
Qed.

Lemma X4_ARP_keys_witness :
  ARP (self line) !! "Bob" = Some Bob ∧ host_id Bob = "Bob".
Proof.
  split; [reflexivity|].
  apply (X4_ARP_keys obliging line "Bob" Bob); [|reflexivity].
  apply (follows_add_host obliging fresh _ Charlie).
  apply (follows_add_host obliging fresh _ Bob).
  apply (follows_add_host obliging fresh _ Alice).
  apply follows_refl.
Defined.

(** X5.  No method assigns [use_hop_by_hop]: a network stays in the mode
    it was created in, hop by hop.  So, between any two calls of its
    methods, the route of a packet is always computed by the routing
    algorithm from the sender and the receiver of the packet (the route
    recorded in a relay packet is not read), and the receiver of a relay
    envelope is always the last host of the route. *)
Theorem X5_hop_by_hop (peers : Peers) (st : state) :
  follows peers fresh st →
  use_hop_by_hop (self st) = true
  ∧ (∀ packet,
       resolve_route packet st =
         get_route (packet_sender packet) (packet_receiver packet) st)
  ∧ (∀ route payload ttl envelope,
       (_encode route payload ttl st).1 = Ok envelope →
       last route = Some (packet_receiver envelope)).
Proof.
  intros Hst.
  assert (use_hop_by_hop (self st) = true) as Hmode.
  { by apply (follows_self peers (λ n, use_hop_by_hop n = true) fresh). }
  split_and!; [done| |].
  - intros packet. unfold resolve_route, bind at 1, get_self. simpl.
    by rewrite Hmode.
  - intros route payload ttl envelope.
    unfold _encode, bind, subscript, subscript_last, get_self, ret, raise.
    destruct (route !! 1); simpl; [|done]. rewrite Hmode.
    destruct (last route); simpl; [|done]. by intros [= <-].
Qed.

Lemma X5_hop_by_hop_witness :
  use_hop_by_hop (self line) = true
  ∧ (resolve_route last_hop line = get_route "Bob" "Charlie" line)
  ∧ last ["Alice"; "Bob"; "Charlie"] = Some "Charlie".
Proof.
  destruct (X5_hop_by_hop obliging line) as (H1 & H2 & H3).
  - apply (follows_add_host obliging fresh _ Charlie).
    apply (follows_add_host obliging fresh _ Bob).
    apply (follows_add_host obliging fresh _ Alice).
    apply follows_refl.
  - split_and!; [exact H1|exact (H2 last_hop)|reflexivity].
Defined.

(** *** The loop: stopping, idling, order *)

(** X6.  Once [stop] was called, the loop returns at the start of its
    next turn: it takes no packet from the queue and makes no call.  No
    method ever clears the flag, so this stays so whatever is called
    afterwards; a loop started again with [start] ends at once. *)
Theorem X6_stop (peers : Peers) (st st' : state) (fuel : nat) :
  follows peers (stop st).2 st' →
  _stop_thread (self st') = true
  ∧ _process_queue peers (S fuel) st' = (Ok tt, st').
Proof.
  intros Hst.
  assert (_stop_thread (self st') = true) as Hflag.
  { by apply (follows_self peers (λ n, _stop_thread n = true) (stop st).2). }
  split; [done|]. simpl. unfold bind, get_self. simpl. by rewrite Hflag.
Qed.

Lemma X6_stop_witness :
  let st' := (start (send greeting (stop pair).2).2).2 in
  _stop_thread (self st') = true
  ∧ _process_queue obliging 1 st' = (Ok tt, st').
Proof.
  apply (X6_stop obliging pair _ 0).
  apply follows_start, follows_send, follows_refl.
Defined.





(** *** What becomes of a packet *)

(** The [try] statement after a call on a host, the last of its block. *)
Lemma handler_logs e st :
  ∃ msg, handler e st =
           (Ok tt, mkState (self st) (calls st ++ [Logger ERROR msg])).
Proof. destruct e; eexists; reflexivity. Qed.

Lemma guarded_last_call peers h c st :
  let r := peers (calls st) h c in
  ∃ tail,
    try_except (let* _ := host_call peers h c in ret tt) handler st =
      (Ok tt, mkState (self st) (calls st ++ HostCall h c r :: tail))
    ∧ caught r tail.
Proof.
  intros r. unfold try_except, bind, host_call. fold r.
  destruct r as [v|e]; simpl.
  - exists []. done.
  - destruct (handler_logs e
                (mkState (self st) (calls st ++ [HostCall h c (Raised e)])))
      as [msg Hmsg].
    exists [Logger ERROR msg]. rewrite Hmsg. simpl.
    rewrite <- app_assoc. eauto.
Qed.

Lemma ARP_subscript_run k st :
  ARP_subscript k st =
    match ARP (self st) !! k with
    | Some h => (Ok h, st)
    | None => (Raise KeyError, st)
    end.
Proof.
  unfold ARP_subscript, bind, get_self. simpl. by destruct (_ !! _).
Qed.

(** The [try] block of a packet that has no QUANTUM payload. *)
Lemma process_packet_guarded peers packet st route :
  packet_payload_type packet ≠ QUANTUM →
  (resolve_route packet st).1 = Ok route →
  process_packet peers packet st =
    try_except (dispatch peers packet route) handler st.
Proof.
  intros Hq Hroute. unfold process_packet, quantum_prepass, bind at 1.
  rewrite decide_False by done. simpl.
  unfold try_except, bind. by rewrite (resolve_route_run _ _ _ Hroute).
Qed.

(** X8.  A packet whose route has exactly two hosts, that is not a request
    for an EPR pair and has no QUANTUM payload, makes the loop call the
    inbound handler of the host registered under the receiver of the
    packet exactly once, and nothing else: with the packet itself,
    unchanged, or, when the packet is a relay envelope, with the payload
    of the envelope.  The hosts named by the route are not looked at.  An
    exception of the handler is logged.  When no host is registered under
    the receiver, nothing is handed to anyone and an error is logged. *)
Theorem X8_two_hosts (peers : Peers) (packet : packet_dict) (st : state)
    (route : list string) :
  packet_payload_type packet ≠ QUANTUM →
  packet_protocol packet ≠ REC_EPR →
  (resolve_route packet st).1 = Ok route →
  length route = 2 →
  let delivered :=
    if decide (packet_protocol packet = RELAY) then packet_payload packet
    else BPacket packet in
  match ARP (self st) !! packet_receiver packet with
  | Some hr =>
      let r := peers (calls st) hr (Host_rec_packet delivered) in
      ∃ tail,
        process_packet peers packet st =
          (Ok tt,
           mkState (self st)
             (calls st ++ HostCall hr (Host_rec_packet delivered) r :: tail))
        ∧ caught r tail
  | None =>
      ∃ msg,
        process_packet peers packet st =
          (Ok tt, mkState (self st) (calls st ++ [Logger ERROR msg]))
  end.
Proof.
  intros Hq Hproto Hroute Hlen delivered.
  rewrite (process_packet_guarded _ _ _ _ Hq Hroute).
  unfold dispatch. rewrite decide_False by lia. rewrite decide_True by done.
  unfold delivered. clear delivered.
  destruct (ARP (self st) !! packet_receiver packet) as [hr|] eqn:Hr.
  - destruct (decide (packet_protocol packet = RELAY)) as [Hrelay|Hrelay].
    + rewrite decide_False by tauto.
      destruct (guarded_last_call peers hr
                  (Host_rec_packet (packet_payload packet)) st)
        as (tail & Hrun & Htail).
      exists tail. split; [|done].
      unfold try_except, bind in *. by rewrite ARP_subscript_run, Hr.
    + rewrite decide_True by done. rewrite decide_False by done.
      destruct (guarded_last_call peers hr
                  (Host_rec_packet (BPacket packet)) st)
        as (tail & Hrun & Htail).
      exists tail. split; [|done].
      unfold try_except, bind in *. unfold ret at 1.
      by rewrite ARP_subscript_run, Hr.
  - destruct (handler_logs KeyError st) as [msg Hmsg]. exists msg.
    rewrite <- Hmsg.
    destruct (decide (packet_protocol packet = RELAY)) as [Hrelay|Hrelay].
    + rewrite decide_False by tauto.
      unfold try_except, bind. by rewrite ARP_subscript_run, Hr.
    + rewrite decide_True by done. rewrite decide_False by done.
      unfold try_except, bind. unfold ret at 1.
      by rewrite ARP_subscript_run, Hr.
Qed.

Lemma X8_two_hosts_witness :
  ∃ tail,
    process_packet obliging greeting pair =
      (Ok tt,
       mkState (self pair)
         (calls pair
          ++ HostCall Bob (Host_rec_packet (BPacket greeting))
               (Returned VNone) :: tail))
    ∧ caught (Returned VNone) tail.
Proof.
  apply (X8_two_hosts obliging greeting pair ["Alice"; "Bob"]).
  - discriminate.
  - discriminate.
  - reflexivity.
  - reflexivity.
Defined.

Lemma encode_run route payload ttl st r1 r2 r_last :
  route !! 1 = Some r1 → route !! 2 = Some r2 → last route = Some r_last →
  _encode route payload ttl st =
    (Ok (Packet r1 (if use_hop_by_hop (self st) then r_last else r2)
           RELAY SIGNAL payload (Some (default 10%Z ttl)) (Some route)),
     st).
Proof.
  intros H1 H2 Hlast.
  unfold _encode, bind, subscript, subscript_last, get_self, ret.
  rewrite H1. simpl. destruct (use_hop_by_hop (self st)).
  - by rewrite Hlast.
  - by rewrite H2.
Qed.

Lemma long_route (route : list string) :
  2 < length route →
  ∃ r1 r2 r_last,
    route !! 1 = Some r1 ∧ route !! 2 = Some r2 ∧ last route = Some r_last.
Proof.
  intros Hlen. destruct route as [|r0 [|r1 [|r2 rest]]]; simpl in Hlen;
    try lia.
  destruct (last (r0 :: r1 :: r2 :: rest)) as [r_last|] eqn:Hlast.
  - by exists r1, r2, r_last.
  - by apply last_None in Hlast.
Qed.

(** X9.  A packet whose route has more than two hosts, that is not a
    request for an EPR pair and has no QUANTUM payload, is wrapped and
    passed to the next hop: the loop calls the inbound handler of the host
    registered under [route[1]] exactly once, and nothing else, with a
    relay envelope of payload type SIGNAL and TTL 10 whose payload is the
    packet, unchanged, whose route is the whole route, whose sender is
    [route[1]], and whose receiver is the last host of the route (hop by
    hop) or [route[2]].  The receiver of the packet need not be
    registered.  An exception of the handler is logged.  When no host is
    registered under [route[1]], nothing is handed to anyone and an error
    is logged. *)
Theorem X9_relay (peers : Peers) (packet : packet_dict) (st : state)
    (route : list string) :
  packet_payload_type packet ≠ QUANTUM →
  packet_protocol packet ≠ REC_EPR →
  (resolve_route packet st).1 = Ok route →
  2 < length route →
  ∃ r1 r2 r_last,
    route !! 1 = Some r1 ∧ route !! 2 = Some r2 ∧ last route = Some r_last
    ∧ let envelope :=
        Packet r1 (if use_hop_by_hop (self st) then r_last else r2)
               RELAY SIGNAL (BPacket packet) (Some 10%Z) (Some route) in
      match ARP (self st) !! r1 with
      | Some h =>
          let r := peers (calls st) h (Host_rec_packet (BPacket envelope)) in
          ∃ tail,
            process_packet peers packet st =
              (Ok tt,
               mkState (self st)
                 (calls st
                  ++ HostCall h (Host_rec_packet (BPacket envelope)) r
                  :: tail))
            ∧ caught r tail
      | None =>
          ∃ msg,
            process_packet peers packet st =
              (Ok tt, mkState (self st) (calls st ++ [Logger ERROR msg]))
      end.
Proof.
  intros Hq Hproto Hroute Hlen.
  destruct (long_route route Hlen) as (r1 & r2 & r_last & H1 & H2 & Hlast).
  exists r1, r2, r_last. split_and!; try done. intros envelope.
  rewrite (process_packet_guarded _ _ _ _ Hq Hroute).
  unfold dispatch. rewrite !decide_False by (done || lia).
  destruct (ARP (self st) !! r1) as [h|] eqn:Hh.
  - destruct (guarded_last_call peers h
                (Host_rec_packet (BPacket envelope)) st)
      as (tail & Hrun & Htail).
    exists tail. split; [|done].
    unfold try_except, bind in *.
    rewrite (encode_run _ _ _ _ _ _ _ H1 H2 Hlast).
    unfold subscript. rewrite H1. unfold ret at 1.
    by rewrite ARP_subscript_run, Hh.
  - destruct (handler_logs KeyError st) as [msg Hmsg]. exists msg.
    rewrite <- Hmsg.
    unfold try_except, bind.
    rewrite (encode_run _ _ _ _ _ _ _ H1 H2 Hlast).
    unfold subscript. rewrite H1. unfold ret at 1.
    by rewrite ARP_subscript_run, Hh.
Qed.

Lemma X9_relay_witness :
  ∃ r1 r2 r_last,
    ["Alice"; "Bob"; "Charlie"] !! 1 = Some r1
    ∧ ["Alice"; "Bob"; "Charlie"] !! 2 = Some r2
    ∧ last ["Alice"; "Bob"; "Charlie"] = Some r_last
    ∧ let envelope :=
        Packet r1 (if use_hop_by_hop (self line) then r_last else r2)
               RELAY SIGNAL (BPacket far_greeting) (Some 10%Z)
               (Some ["Alice"; "Bob"; "Charlie"]) in
      match ARP (self line) !! r1 with
      | Some h =>
          let r := obliging (calls line) h
                     (Host_rec_packet (BPacket envelope)) in
          ∃ tail,
            process_packet obliging far_greeting line =
              (Ok tt,
               mkState (self line)
                 (calls line
                  ++ HostCall h (Host_rec_packet (BPacket envelope)) r
                  :: tail))
            ∧ caught r tail
      | None =>
          ∃ msg,
            process_packet obliging far_greeting line =
              (Ok tt, mkState (self line) (calls line ++ [Logger ERROR msg]))
      end.
Proof.
  apply (X9_relay obliging far_greeting line ["Alice"; "Bob"; "Charlie"]).
  - discriminate.
  - discriminate.
  - reflexivity.
  - simpl. lia.
Defined.

(** X10.  A request for an EPR pair whose route has more than two hosts
    starts one entanglement swap in a thread of its own, for the sender,
    the receiver and the route of the packet and the id found in its
    payload; the loop hands nothing to any host and goes on without
    waiting for the swap.  Here the payload must hold an id: a request
    without payload, which a route of two hosts accepts, is dropped with a
    logged error, and so is a payload without ['q_id']. *)
Theorem X10_swap_request (peers : Peers) (packet : packet_dict)
    (st : state) (route : list string) :
  packet_payload_type packet ≠ QUANTUM →
  packet_protocol packet = REC_EPR →
  (resolve_route packet st).1 = Ok route →
  2 < length route →
  match packet_payload packet with
  | BDict d =>
      match d !! "q_id" with
      | Some q_id =>
          process_packet peers packet st =
            (Ok tt,
             mkState (self st)
               (calls st
                ++ [DaemonThread_entanglement_swap (packet_sender packet)
                      (packet_receiver packet) route q_id]))
      | None =>
          ∃ msg,
            process_packet peers packet st =
              (Ok tt, mkState (self st) (calls st ++ [Logger ERROR msg]))
      end
  | _ =>
      ∃ msg,
        process_packet peers packet st =
          (Ok tt, mkState (self st) (calls st ++ [Logger ERROR msg]))
  end.
Proof.
  intros Hq Hproto Hroute Hlen.
  rewrite (process_packet_guarded _ _ _ _ Hq Hroute).
  unfold dispatch. rewrite !decide_False by lia.
  rewrite decide_True by done.
  unfold try_except, bind, payload_q_id.
  destruct (packet_payload packet) as [|s|d|qs|p]; simpl;
    try (eexists; reflexivity).
  destruct (d !! "q_id"); simpl; [done|eexists; reflexivity].
Qed.

Lemma X10_swap_request_witness :
  process_packet obliging far_epr_request line =
    (Ok tt,
     mkState (self line)
       (calls line
        ++ [DaemonThread_entanglement_swap "Alice" "Charlie"
              ["Alice"; "Bob"; "Charlie"] (VStr "q-42")])).
Proof.
  apply (X10_swap_request obliging far_epr_request line
           ["Alice"; "Bob"; "Charlie"]).
  - discriminate.
  - reflexivity.
  - reflexivity.
  - simpl. lia.
Defined.

(** X11.  A request for an EPR pair on a route of two hosts, when one end
    is not registered.  Without a host under the sender nothing is called
    and an error is logged.  With a host under the sender but none under
    the receiver, the pair is created all the same, with no backend name
    for the other side, and filed by the sender's host; only then does the
    delivery fail, and the error is logged: the sender's host is left with
    a pair for a request that was never delivered. *)
Theorem X11_rec_epr_unregistered (peers : Peers) (packet : packet_dict)
    (st : state) (route : list string) :
  packet_protocol packet = REC_EPR →
  packet_payload_type packet ≠ QUANTUM →
  (resolve_route packet st).1 = Ok route →
  length route = 2 →
  (ARP (self st) !! packet_sender packet = None →
   ∃ msg,
     process_packet peers packet st =
       (Ok tt, mkState (self st) (calls st ++ [Logger ERROR msg])))
  ∧ (∀ hs q q_id,
       ARP (self st) !! packet_sender packet = Some hs →
       ARP (self st) !! packet_receiver packet = None →
       (packet_payload packet = BNone
        ∨ ∃ d, packet_payload packet = BDict d ∧ is_Some (d !! "q_id")) →
       let given := match packet_payload packet with
                    | BDict d => d !! "q_id"
                    | _ => None
                    end in
       let create := cqc_createEPR None in
       let add := Host_add_epr (packet_receiver packet) q given in
       peers (calls st) hs create = Returned q →
       peers (calls st ++ [HostCall hs create (Returned q)]) hs add
         = Returned q_id →
       ∃ msg,
         process_packet peers packet st =
           (Ok tt,
            mkState (self st)
              (calls st
               ++ [HostCall hs create (Returned q);
                   HostCall hs add (Returned q_id);
                   Logger ERROR msg]))).
Proof.
  intros Hproto Hq Hroute Hlen.
  rewrite (process_packet_guarded _ _ _ _ Hq Hroute).
  unfold dispatch. rewrite decide_False by lia. rewrite decide_True by done.
  rewrite decide_True by (rewrite Hproto; done).
  rewrite decide_True by done.
  split.
  - intros Hs. destruct (handler_logs AttributeError st) as [msg Hmsg].
    exists msg. rewrite <- Hmsg.
    unfold try_except. run_monad. rewrite Hs. reflexivity.
  - intros hs q q_id Hs Hr Hpl Hcreate Hadd. eexists.
    unfold try_except.
    destruct Hpl as [Hpl|(d & Hpl & [v Hv])]; rewrite Hpl in *;
      rewrite ?Hv in *;
      repeat (run_monad;
              first [rewrite Hs|rewrite Hr|rewrite Hcreate|rewrite Hadd
                    |rewrite Hv]);
      unfold handler; run_monad; rewrite <- ?app_assoc; reflexivity.
Qed.

Lemma X11_rec_epr_unregistered_witness :
  (∃ msg,
     process_packet obliging epr_request_back alone =
       (Ok tt, mkState (self alone) (calls alone ++ [Logger ERROR msg])))
  ∧ (∃ msg,
       process_packet obliging epr_request alone =
         (Ok tt,
          mkState (self alone)
            (calls alone
             ++ [HostCall Alice (cqc_createEPR None) (Returned (VQubit 5%N));
                 HostCall Alice
                   (Host_add_epr "Bob" (VQubit 5%N) (Some (VStr "q-42")))
                   (Returned (VStr "q-42"));
                 Logger ERROR msg]))).
Proof.
  split.
  - apply (X11_rec_epr_unregistered obliging epr_request_back alone
             ["Bob"; "Alice"]); reflexivity || discriminate.
  - apply (X11_rec_epr_unregistered obliging epr_request alone
             ["Alice"; "Bob"]); try (reflexivity || discriminate).
    right. eexists. split; [reflexivity|]. eexists. reflexivity.
Defined.

(** *** The relay encoder and the recorded route *)

(** X12.  [_encode] at the bounds.  A route of fewer than two hosts makes
    it fail with an index error, in either mode.  A route of exactly two
    hosts gives, hop by hop, an envelope whose sender and receiver are
    both the second host; otherwise it fails with an index error, at
    [route[2]].  The network is not changed in any case. *)
Theorem X12_encode_short (route : list string) (payload : body)
    (ttl : option Z) (st : state) :
  length route ≤ 2 →
  _encode route payload ttl st =
    match route with
    | [r0; r1] =>
        if use_hop_by_hop (self st) then
          (Ok (Packet r1 r1 RELAY SIGNAL payload (Some (default 10%Z ttl))
                 (Some route)), st)
        else (Raise IndexError, st)
    | _ => (Raise IndexError, st)
    end.
Proof.
  intros Hlen.
  destruct route as [|r0 [|r1 [|r2 rest]]]; simpl in Hlen; try lia;
    try done.
  unfold _encode, bind, subscript, subscript_last, get_self, ret. simpl.
  by destruct (use_hop_by_hop (self st)).
Qed.

Lemma X12_encode_short_witness :
  _encode ["Alice"; "Bob"] (BPacket greeting) None line =
    (Ok (Packet "Bob" "Bob" RELAY SIGNAL (BPacket greeting) (Some 10%Z)
           (Some ["Alice"; "Bob"])), line)
  ∧ _encode ["Alice"] (BPacket greeting) None line = (Raise IndexError, line).
Proof.
  split.
  - apply (X12_encode_short ["Alice"; "Bob"] (BPacket greeting) None line).
    simpl. lia.
  - apply (X12_encode_short ["Alice"] (BPacket greeting) None line).
    simpl. lia.
Defined.

Lemma list_index_split x xs i :
  list_index x xs = Some i →
  ∃ rest, xs = take i xs ++ x :: rest ∧ drop i xs = x :: rest
          ∧ x ∉ take i xs.
Proof.
  revert i. induction xs as [|y ys IH]; intros i; simpl; [done|].
  case_decide as Hy.
  - intros [= <-]. subst y. exists ys. simpl. split_and!; try done.
    apply not_elem_of_nil.
  - destruct (list_index x ys) as [j|] eqn:Hj; simpl; [|done].
    intros [= <-]. destruct (IH j eq_refl) as (rest & H1 & H2 & H3).
    exists rest. simpl. split_and!; [by f_equal|done|].
    apply not_elem_of_cons. done.
Qed.

Lemma list_index_None x xs : list_index x xs = None ↔ x ∉ xs.
Proof.
  induction xs as [|y ys IH]; simpl.
  - split; [intros _; apply not_elem_of_nil|done].
  - case_decide as Hy.
    + subst y. split; [done|]. intros H. destruct H. by left.
    + rewrite not_elem_of_cons, <- IH.
      destruct (list_index x ys); simpl; naive_solver.
Qed.

(** X13.  When the network does not route hop by hop, the route of a
    relay packet is read from the packet: it is what is left of the
    recorded route from the first occurrence of the sender on, and
    neither the graph nor the routing algorithm is asked.  A relay packet
    whose sender is not in its recorded route, or that records no route,
    is dropped with a logged error. *)
Theorem X13_recorded_route (peers : Peers) (packet : packet_dict)
    (st : state) :
  use_hop_by_hop (self st) = false →
  packet_protocol packet = RELAY →
  let sender := packet_sender packet in
  match packet_route packet with
  | Some full =>
      (sender ∈ full →
       ∃ before rest,
         full = before ++ sender :: rest
         ∧ (sender ∉ before)
         ∧ resolve_route packet st = (Ok (sender :: rest), st))
      ∧ (sender ∉ full →
         resolve_route packet st = (Raise ValueError, st)
         ∧ (packet_payload_type packet ≠ QUANTUM →
            process_packet peers packet st =
              (Ok tt,
               mkState (self st)
                 (calls st
                  ++ [Logger ERROR
                        "route couldn't be calculated, value error"]))))
  | None =>
      resolve_route packet st = (Raise KeyError, st)
      ∧ (packet_payload_type packet ≠ QUANTUM →
         ∃ msg,
           process_packet peers packet st =
             (Ok tt, mkState (self st) (calls st ++ [Logger ERROR msg])))
  end.
Proof.
  intros Hmode Hproto sender.
  assert (∀ e, resolve_route packet st = (Raise e, st) →
               packet_payload_type packet ≠ QUANTUM →
               process_packet peers packet st = handler e st) as Hdrop.
  { intros e He Hq. unfold process_packet, quantum_prepass, bind at 1.
    rewrite decide_False by done. simpl.
    unfold try_except, bind. by rewrite He. }
  assert (resolve_route packet st =
            match packet_route packet with
            | Some full =>
                match list_index sender full with
                | Some i => (Ok (drop i full), st)
                | None => (Raise ValueError, st)
                end
            | None => (Raise KeyError, st)
            end) as Hrun.
  { unfold resolve_route, bind, get_self. simpl. rewrite Hmode.
    rewrite decide_True by done. fold sender.
    destruct (packet_route packet) as [full|]; simpl; [|done].
    by destruct (list_index sender full). }
  rewrite Hrun in *. clear Hrun.
  destruct (packet_route packet) as [full|].
  - destruct (list_index sender full) as [i|] eqn:Hi.
    + split.
      * intros _.
        destruct (list_index_split _ _ _ Hi) as (rest & H1 & H2 & H3).
        exists (take i full), rest. by rewrite H2.
      * intros Hout. by apply list_index_None in Hout; simplify_eq.
    + split.
      * intros Hin. by apply list_index_None in Hi.
      * intros _. split; [done|]. intros Hq.
        by rewrite (Hdrop ValueError).
  - split; [done|]. intros Hq. rewrite (Hdrop KeyError) by done.
    apply handler_logs.
Qed.

Lemma X13_recorded_route_witness :
  ∃ before rest,
    ["Alice"; "Bob"; "Charlie"] = before ++ "Bob" :: rest
    ∧ ("Bob" ∉ before)
    ∧ resolve_route recorded source_routed
      = (Ok ("Bob" :: rest), source_routed).
Proof.
  destruct (X13_recorded_route obliging recorded source_routed) as [H _].
  - reflexivity.
  - reflexivity.
  - apply H. apply list_elem_of_In. simpl. auto.
Defined.

(** *** Moving the qubits of a QUANTUM payload *)

Section Mover_returned.

Context (peers : Peers) (net : Network).

Lemma transfer_qubit_returned s r store origin q q' st1 st2 :
  self st1 = net →
  transfer_qubit peers s r store origin q st1 = (Ok q', st2) →
  ∃ group,
    qubit_hop net s r (if store then origin else None) q q' group
    ∧ st2 = mkState (self st1) (calls st1 ++ group).
Proof.
  intros Hst1. unfold transfer_qubit. run_monad. rewrite ?Hst1.
  destruct (ARP net !! s) as [hs|] eqn:Hs; [|done].
  destruct (ARP net !! r) as [hr|] eqn:Hr; run_monad.
  2:{ destruct (peers _ hs (cqc_sendQubit _ _)); [|done].
      run_monad. by rewrite ?Hst1, ?Hr. }
  destruct (peers _ hs (cqc_sendQubit _ _)) as [sent|e] eqn:Hsent; [|done].
  run_monad. rewrite ?Hst1, ?Hr. run_monad.
  destruct (peers _ hr cqc_recvQubit) as [got|e] eqn:Hgot; [|done].
  run_monad.
  destruct store, origin as [o|]; run_monad; rewrite ?Hst1, ?Hr; run_monad.
  - destruct (peers _ hr (Host_add_data_qubit _ _ _)) as [v|e] eqn:Hv;
      [|done].
    intros [= <- <-]. eexists. split.
    + exists hs, hr, sent, got. eexists. split_and!; try done.
      by exists v.
    + rewrite <- !app_assoc. done.
  - intros [= <- <-]. eexists. split.
    + exists hs, hr, sent, got, []. split_and!; done.
    + rewrite <- !app_assoc. done.
  - intros [= <- <-]. eexists. split.
    + exists hs, hr, sent, got, []. split_and!; done.
    + rewrite <- !app_assoc. done.
  - intros [= <- <-]. eexists. split.
    + exists hs, hr, sent, got, []. split_and!; done.
    + rewrite <- !app_assoc. done.
Qed.

Lemma transfer_entries_returned s r store origin qs :
  ∀ qs' st1 st2,
    self st1 = net →
    transfer_entries peers s r store origin qs st1 = (Ok qs', st2) →
    ∃ new,
      hop_qubits net s r (if store then origin else None) qs qs' new
      ∧ st2 = mkState (self st1) (calls st1 ++ new).
Proof.
  induction qs as [|q qs IH]; intros qs' st1 st2 Hst1; simpl.
  - intros [= <- <-]. exists []. split; [constructor|].
    rewrite app_nil_r. by destruct st1.
  - unfold bind at 1.
    destruct (transfer_qubit peers s r store origin q st1)
      as [[q'| |] st1'] eqn:Hq; try done.
    apply transfer_qubit_returned in Hq as (group & Hgroup & ->); [|done].
    unfold bind at 1.
    destruct (transfer_entries peers s r store origin qs _)
      as [[rest| |] st1''] eqn:Hrest; try done.
    apply IH in Hrest as (new & Hnew & ->); [|done].
    intros [= <- <-]. exists (group ++ new). split; [by constructor|].
    simpl. by rewrite <- app_assoc.
Qed.

Lemma hops_returned route indices :
  ∀ qs b st1 st2,
    self st1 = net →
    hops peers route indices (BQubits qs) st1 = (Ok b, st2) →
    ∃ qs' new,
      b = BQubits qs'
      ∧ relayed net route indices qs qs' new
      ∧ st2 = mkState (self st1) (calls st1 ++ new).
Proof.
  induction indices as [|i rest IH]; intros qs b st1 st2 Hst1; simpl.
  - intros [= <- <-]. exists qs, []. split_and!; [done|constructor|].
    rewrite app_nil_r. by destruct st1.
  - run_monad.
    destruct (route !! i) as [ri|] eqn:Hri; [|done]. run_monad.
    destruct (route !! (i + 1)) as [ri1|] eqn:Hri1; [|done]. run_monad.
    case_decide as Hlast.
    + destruct (transfer_entries peers ri ri1 false None qs _)
        as [[qs1| |] st1'] eqn:Hhop; try done.
      apply transfer_entries_returned in Hhop as (new1 & Hnew1 & ->);
        [|done].
      simpl. intros Hrest.
      apply IH in Hrest as (qs2 & new2 & -> & Hnew2 & ->); [|done].
      exists qs2, (Logger LOG ("sending qubits from " +:+ ri +:+ " to "
                               +:+ ri1) :: new1 ++ new2).
      split_and!; [done| |].
      * econstructor; try done. by rewrite decide_False.
      * simpl. rewrite <- !app_assoc. done.
    + destruct (route !! 0) as [r0|] eqn:Hr0; [|done]. run_monad.
      destruct (transfer_entries peers ri ri1 true (Some r0) qs _)
        as [[qs1| |] st1'] eqn:Hhop; try done.
      apply transfer_entries_returned in Hhop as (new1 & Hnew1 & ->);
        [|done].
      simpl. intros Hrest.
      apply IH in Hrest as (qs2 & new2 & -> & Hnew2 & ->); [|done].
      exists qs2, (Logger LOG ("sending qubits from " +:+ ri +:+ " to "
                               +:+ ri1) :: new1 ++ new2).
      split_and!; [done| |].
      * econstructor; try done.
        rewrite decide_True by done. by rewrite Hr0.
      * simpl. rewrite <- !app_assoc. done.
Qed.

End Mover_returned.

Section Mover_runs.

Context (peers : Peers) (net : Network).

Lemma transfer_qubit_run s r (store : bool) (origin : option string) q
    hs hr st1 :
  self st1 = net →
  ARP net !! s = Some hs → carries peers hs →
  ARP net !! r = Some hr → carries peers hr →
  ∃ q' group,
    qubit_hop net s r (if store then origin else None) q q' group
    ∧ transfer_qubit peers s r store origin q st1 =
        (Ok q', mkState (self st1) (calls st1 ++ group)).
Proof.
  intros Hst1 Hs Hcs Hr Hcr.
  set (log1 := Logger LOG ("transfer qubits - sending qubit " +:+ qe_q_id q)).
  set (log2 := Logger LOG ("transfer qubits - waiting to receive "
                           +:+ qe_q_id q)).
  set (log3 := Logger LOG ("transfer qubits - received " +:+ qe_q_id q)).
  destruct (Hcs (cqc_sendQubit (qe_q q) (Some (cqc_name hr)))
              (calls st1 ++ [log1])) as [sent Hsent].
  set (e1 := HostCall hs (cqc_sendQubit (qe_q q) (Some (cqc_name hr)))
               (Returned sent)).
  destruct (Hcr cqc_recvQubit (calls st1 ++ [log1; e1; log2]))
    as [got Hgot].
  set (e2 := HostCall hr cqc_recvQubit (Returned got)).
  assert (∀ o, ∃ v,
            peers (calls st1 ++ [log1; e1; log2; e2; log3]) hr
              (Host_add_data_qubit o got (qe_q_id q)) = Returned v)
    as Hstored.
  { intros o. apply (Hcr (Host_add_data_qubit o got (qe_q_id q))). }
  assert (∀ tail,
            transfer_qubit peers s r store origin q st1 =
              (Ok (QubitEntry got (qe_q_id q) false),
               mkState (self st1)
                 (calls st1 ++ [log1; e1; log2; e2; log3] ++ tail))
            → match (if store then origin else None) with
              | Some o =>
                  ∃ v, tail = [HostCall hr
                                 (Host_add_data_qubit o got (qe_q_id q))
                                 (Returned v)]
              | None => tail = []
              end
            → ∃ q' group,
                qubit_hop net s r (if store then origin else None) q q' group
                ∧ transfer_qubit peers s r store origin q st1 =
                    (Ok q', mkState (self st1) (calls st1 ++ group)))
    as Hdone.
  { intros tail Hrun Htail. eexists _, _. split; [|exact Hrun].
    exists hs, hr, sent, got, tail. split_and!; done. }
  unfold transfer_qubit in *. fold log1 log2 log3 in Hdone |- *.
  subst e1 e2.
  destruct store, origin as [o|].
  1: destruct (Hstored o) as [v Hv];
     apply (Hdone [HostCall hr (Host_add_data_qubit o got (qe_q_id q))
                     (Returned v)]); [|by exists v].
  2-4: apply (Hdone []); [|done].
  all: repeat (run_monad; rewrite <- ?app_assoc; cbn [app];
               first [rewrite Hst1|rewrite Hs|rewrite Hr|rewrite Hsent
                     |rewrite Hgot|rewrite Hv]).
  all: run_monad; rewrite <- ?app_assoc; cbn [app]; rewrite <- ?Hst1; done.
Qed.

Lemma transfer_entries_run s r (store : bool) (origin : option string)
    hs hr qs :
  ARP net !! s = Some hs → carries peers hs →
  ARP net !! r = Some hr → carries peers hr →
  ∀ st1, self st1 = net →
    ∃ qs' new,
      hop_qubits net s r (if store then origin else None) qs qs' new
      ∧ transfer_entries peers s r store origin qs st1 =
          (Ok qs', mkState (self st1) (calls st1 ++ new)).
Proof.
  intros Hs Hcs Hr Hcr.
  induction qs as [|q qs IH]; intros st1 Hst1; simpl.
  - exists [], []. split; [constructor|]. rewrite app_nil_r.
    by destruct st1.
  - destruct (transfer_qubit_run s r store origin q hs hr st1)
      as (q' & group & Hgroup & Hrun); try done.
    destruct (IH (mkState (self st1) (calls st1 ++ group)))
      as (qs' & new & Hnew & Hruns); [done|].
    exists (q' :: qs'), (group ++ new). split; [by constructor|].
    unfold bind. rewrite Hrun, Hruns. simpl. by rewrite <- app_assoc.
Qed.

Lemma hops_run route indices :
  (∀ x, x ∈ route → ∃ h, ARP net !! x = Some h ∧ carries peers h) →
  (∀ i, i ∈ indices → i + 1 < length route) →
  ∀ qs st1, self st1 = net →
    ∃ qs' new,
      relayed net route indices qs qs' new
      ∧ hops peers route indices (BQubits qs) st1 =
          (Ok (BQubits qs'), mkState (self st1) (calls st1 ++ new)).
Proof.
  intros Hreg. induction indices as [|i rest IH]; intros Hind qs st1 Hst1.
  - exists qs, []. split; [constructor|]. simpl. rewrite app_nil_r.
    by destruct st1.
  - assert (i + 1 < length route) as Hi by (apply Hind; left).
    destruct (lookup_lt_is_Some_2 route i) as [ri Hri]; [lia|].
    destruct (lookup_lt_is_Some_2 route (i + 1)) as [ri1 Hri1]; [lia|].
    destruct (lookup_lt_is_Some_2 route 0) as [r0 Hr0]; [lia|].
    destruct (Hreg ri) as (hs & Hs & Hcs); [by eapply list_elem_of_lookup_2|].
    destruct (Hreg ri1) as (hr & Hr & Hcr);
      [by eapply list_elem_of_lookup_2|].
    set (log := Logger LOG ("sending qubits from " +:+ ri +:+ " to "
                            +:+ ri1)).
    assert (∃ (store : bool) (origin : option string),
              (if store then origin else None)
              = (if decide (length (drop i route) = 2) then route !! 0
                 else None)
              ∧ ∀ qs st,
                  (if decide (length (drop i route) ≠ 2) then
                     let* ri := subscript route i in
                     let* ri1 := subscript route (i + 1) in
                     transfer_qubits peers ri ri1 false None (BQubits qs)
                   else
                     let* ri := subscript route i in
                     let* ri1 := subscript route (i + 1) in
                     let* r0 := subscript route 0 in
                     transfer_qubits peers ri ri1 true (Some r0) (BQubits qs))
                    st
                  = (let* qs' := transfer_entries peers ri ri1 store origin qs
                     in ret (BQubits qs')) st)
      as (store & origin & Hstore & Hbranch).
    { destruct (decide (length (drop i route) = 2)) as [Hlast|Hlast].
      - exists true, (Some r0). split; [by rewrite Hr0|]. intros qs' st.
        rewrite decide_False by (intros H; by apply H).
        run_monad. rewrite Hri. run_monad. rewrite Hri1. run_monad.
        rewrite Hr0. by run_monad.
      - exists false, None. split; [done|]. intros qs' st.
        rewrite decide_True by done.
        run_monad. rewrite Hri. run_monad. rewrite Hri1. by run_monad. }
    destruct (transfer_entries_run ri ri1 store origin hs hr qs Hs Hcs Hr Hcr
                (mkState (self st1) (calls st1 ++ [log])))
      as (qs1 & new1 & Hnew1 & Hrun1); [done|].
    destruct (IH (λ j Hj, Hind j (list_elem_of_further _ _ _ Hj)) qs1
                (mkState (self st1) (calls st1 ++ [log] ++ new1)))
      as (qs2 & new2 & Hnew2 & Hrun2); [done|].
    exists qs2, (log :: new1 ++ new2). split.
    + econstructor; try done. by rewrite <- Hstore.
    + simpl. unfold bind at 1, subscript at 1. rewrite Hri.
      unfold ret at 1. unfold bind at 1, subscript at 1. rewrite Hri1.
      unfold ret at 1. unfold bind at 1, emit at 1. fold log.
      simpl in Hbranch. unfold bind at 1. rewrite Hbranch.
      unfold bind at 1. simpl in Hrun1. rewrite Hrun1. unfold ret at 1.
      rewrite <- app_assoc. rewrite Hrun2. simpl.
      by rewrite <- !app_assoc.
Qed.

End Mover_runs.

(** A run of the mover that returns has made the calls of the hops of its
    route, whatever the hosts are. *)
Lemma route_quantum_info_returned peers sender receiver qs b st st' :
  _route_quantum_info peers sender receiver (BQubits qs) st = (Ok b, st') →
  ∃ route qs' new,
    (get_route sender receiver st).1 = Ok route
    ∧ b = BQubits qs'
    ∧ st' = mkState (self st) (calls st ++ new)
    ∧ relayed (self st) route (seq 0 (length route - 1)) qs qs' new.
Proof.
  unfold _route_quantum_info, bind at 1.
  pose proof (tame_silent any (get_route sender receiver) st
                (tame_get_route (λ _, False) sender receiver)) as Hsilent.
  destruct (get_route sender receiver st) as [[route| |] st1]; try done.
  simpl in Hsilent. subst st1. intros Hrun.
  apply (hops_returned peers (self st)) in Hrun
    as (qs' & new & -> & Hnew & ->); [|done].
  by exists route, qs', new.
Qed.

(** With hosts that carry qubits, the mover returns. *)
Lemma route_quantum_info_completes peers sender receiver qs st route :
  (get_route sender receiver st).1 = Ok route →
  (∀ x, x ∈ route → ∃ h, ARP (self st) !! x = Some h ∧ carries peers h) →
  ∃ qs' new,
    relayed (self st) route (seq 0 (length route - 1)) qs qs' new
    ∧ _route_quantum_info peers sender receiver (BQubits qs) st =
        (Ok (BQubits qs'), mkState (self st) (calls st ++ new)).
Proof.
  intros Hroute Hreg.
  destruct (hops_run peers (self st) route (seq 0 (length route - 1)) Hreg)
    with (qs := qs) (st1 := st) as (qs' & new & Hnew & Hrun); [|done|].
  { intros i Hi. apply elem_of_seq in Hi. lia. }
  exists qs', new. split; [done|].
  unfold _route_quantum_info, bind at 1.
  pose proof (tame_silent any (get_route sender receiver) st
                (tame_get_route (λ _, False) sender receiver)) as Hsilent.
  destruct (get_route sender receiver st) as [o st1]. simpl in *.
  by subst.
Qed.

(** X14.  The calls of [_route_quantum_info] on a list of qubits.  The
    route is asked for once.  Then, hop after hop along the route, the hop
    is announced in the log and every qubit of the payload, in the order
    of the payload, is sent by the backend of the host at the near end to
    the backend of the host at the far end, and received there; the entry
    of the qubit then holds the received qubit and is unblocked.  On the
    last hop, and only there, the receiving host is also told to store
    each qubit as a data qubit from the first host of the route.  Every
    run that returns has made exactly these calls and has left the network
    object as it was; and the mover does return when the hosts of the
    route are registered and their backends send, receive and store
    whenever asked. *)
Theorem X14_route_quantum_info (peers : Peers) (sender receiver : string)
    (qs : list qubit_entry) (st : state) :
  (∀ b st',
     _route_quantum_info peers sender receiver (BQubits qs) st = (Ok b, st') →
     ∃ route qs' new,
       (get_route sender receiver st).1 = Ok route
       ∧ b = BQubits qs'
       ∧ st' = mkState (self st) (calls st ++ new)
       ∧ relayed (self st) route (seq 0 (length route - 1)) qs qs' new)
  ∧ (∀ route,
       (get_route sender receiver st).1 = Ok route →
       (∀ x, x ∈ route →
          ∃ h, ARP (self st) !! x = Some h ∧ carries peers h) →
       ∃ qs' new,
         relayed (self st) route (seq 0 (length route - 1)) qs qs' new
         ∧ _route_quantum_info peers sender receiver (BQubits qs) st =
             (Ok (BQubits qs'), mkState (self st) (calls st ++ new))).
Proof.
  split.
  - intros b st'. apply route_quantum_info_returned.
  - intros route. apply route_quantum_info_completes.
Qed.

Lemma obliging_carries h : carries obliging h.
Proof. intros []; try done; intros history; eexists; reflexivity. Qed.

Lemma X14_route_quantum_info_witness :
  ∃ qs' new,
    relayed (self line) ["Alice"; "Bob"; "Charlie"] [0; 1] [held_qubit]
      qs' new
    ∧ _route_quantum_info obliging "Alice" "Charlie" (BQubits [held_qubit])
        line =
        (Ok (BQubits qs'), mkState (self line) (calls line ++ new)).
Proof.
  destruct (X14_route_quantum_info obliging "Alice" "Charlie" [held_qubit]
              line) as [_ Hruns].
  apply (Hruns ["Alice"; "Bob"; "Charlie"]); [reflexivity|].
  intros x Hx.
  apply list_elem_of_In in Hx. simpl in Hx.
  destruct Hx as [<-|[<-|[<-|[]]]].
  - exists Alice. split; [reflexivity|apply obliging_carries].
  - exists Bob. split; [reflexivity|apply obliging_carries].
  - exists Charlie. split; [reflexivity|apply obliging_carries].
Defined.

Lemma hop_qubits_kept net s r store qs qs' new :
  hop_qubits net s r store qs qs' new →
  qe_q_id <$> qs' = qe_q_id <$> qs
  ∧ Forall (λ q, qe_blocked q = false) qs'.
Proof.
  induction 1 as [|q q' group qs qs' new Hq _ [IH1 IH2]]; [done|].
  destruct Hq as (hs & hr & sent & got & tail & _ & _ & -> & _).
  simpl. split; [by f_equal|by constructor].
Qed.

Lemma hop_qubits_stored net s r origin qs qs' new hr :
  hop_qubits net s r (Some origin) qs qs' new →
  ARP net !! r = Some hr →
  omap stored new = (λ q, (hr, origin, qe_q q, qe_q_id q)) <$> qs'.
Proof.
  intros Hhop Hr. remember (Some origin) as store eqn:Hstore.
  induction Hhop as [|q q' group qs qs' new Hq _ IH]; [done|].
  destruct Hq as (hs & hr' & sent & got & tail & _ & Hr' & -> & -> & Htail).
  assert (hr' = hr) as -> by congruence.
  rewrite omap_app, IH by done. subst store.
  destruct Htail as [v ->]. done.
Qed.

Lemma hop_qubits_unstored net s r qs qs' new :
  hop_qubits net s r None qs qs' new → omap stored new = [].
Proof.
  intros Hhop. remember None as store eqn:Hstore.
  induction Hhop as [|q q' group qs qs' new Hq _ IH]; [done|].
  destruct Hq as (hs & hr' & sent & got & tail & _ & Hr' & -> & -> & Htail).
  rewrite omap_app, IH by done. subst store. by subst tail.
Qed.

Lemma relayed_kept net route indices qs qs' new :
  relayed net route indices qs qs' new →
  qe_q_id <$> qs' = qe_q_id <$> qs
  ∧ (indices ≠ [] → Forall (λ q, qe_blocked q = false) qs').
Proof.
  induction 1 as [|i rest ri ri1 qs qs1 qs2 new1 new2 _ _ Hhop Hrest
                    [IH1 IH2]]; [done|].
  apply hop_qubits_kept in Hhop as [Hids Hfree].
  split; [congruence|]. intros _.
  destruct rest as [|j rest]; [|by apply IH2].
  by inversion Hrest; subst.
Qed.

Lemma relayed_stored net route k :
  ∀ a qs qs' new r0 r_last hr,
    relayed net route (seq a k) qs qs' new →
    0 < k →
    a + k + 1 = length route →
    route !! 0 = Some r0 →
    last route = Some r_last →
    ARP net !! r_last = Some hr →
    omap stored new = (λ q, (hr, r0, qe_q q, qe_q_id q)) <$> qs'.
Proof.
  induction k as [|k IH]; intros a qs qs' new r0 r_last hr Hrel Hk Hlen
    Hr0 Hlast Hhr; [lia|].
  simpl in Hrel.
  inversion Hrel as [|i rest ri ri1 qs0 qs1 qs2 new1 new2 Hri Hri1 Hhop
                      Hrest]; subst.
  assert (length (drop a route) = S (S k)) as Hdrop.
  { rewrite length_drop. lia. }
  rewrite Hdrop in Hhop. simpl. rewrite omap_app.
  destruct k as [|k].
  - simpl in Hrest. inversion Hrest; subst. rewrite app_nil_r.
    rewrite decide_True in Hhop by done. rewrite Hr0 in Hhop.
    assert (ri1 = r_last) as ->.
    { rewrite last_lookup in Hlast.
      replace (pred (length route)) with (a + 1) in Hlast by lia.
      congruence. }
    by rewrite (hop_qubits_stored _ _ _ _ _ _ _ hr Hhop Hhr).
  - rewrite decide_False in Hhop by lia.
    rewrite (hop_qubits_unstored _ _ _ _ _ _ Hhop). simpl.
    replace (a + 1) with (S a) in * by lia.
    by apply (IH (S a) qs1 qs' new2 r0 r_last hr); try lia.
Qed.

(** X15.  What a run of [_route_quantum_info] that returns has done to a
    list of qubits.  The payload has as many entries as before, with the
    same ids in the same order.  On a route of fewer than two hosts
    nothing is called or logged and the entries are untouched.  On a
    longer route every entry is unblocked, and the data qubits stored are
    exactly the qubits the payload ends with, one per entry and in the
    order of the payload, all stored by the host of the last name of the
    route, as qubits from the first name of the route. *)
Theorem X15_qubits_delivered (peers : Peers) (sender receiver : string)
    (qs : list qubit_entry) (b : body) (st st' : state) :
  _route_quantum_info peers sender receiver (BQubits qs) st = (Ok b, st') →
  ∃ route qs',
    (get_route sender receiver st).1 = Ok route
    ∧ b = BQubits qs'
    ∧ self st' = self st
    ∧ qe_q_id <$> qs' = qe_q_id <$> qs
    ∧ (length route < 2 → qs' = qs ∧ st' = st)
    ∧ (2 ≤ length route →
       Forall (λ q, qe_blocked q = false) qs'
       ∧ ∃ r0 r_last,
           route !! 0 = Some r0 ∧ last route = Some r_last
           ∧ ∀ hr, ARP (self st) !! r_last = Some hr →
               omap stored (new_calls st st') =
                 (λ q, (hr, r0, qe_q q, qe_q_id q)) <$> qs').
Proof.
  intros Hrun.
  apply route_quantum_info_returned in Hrun
    as (route & qs' & new & Hroute & -> & -> & Hnew).
  exists route, qs'.
  destruct (relayed_kept _ _ _ _ _ _ Hnew) as [Hids Hfree].
  split_and!; try done.
  - intros Hlen.
    replace (length route - 1) with 0 in Hnew by lia. simpl in Hnew.
    inversion Hnew; subst. rewrite app_nil_r. by destruct st.
  - intros Hlen. split.
    { apply Hfree. destruct (length route - 1) eqn:E; [lia|done]. }
    destruct (lookup_lt_is_Some_2 route 0) as [r0 Hr0]; [lia|].
    destruct (last route) as [r_last|] eqn:Hlast.
    2:{ apply last_None in Hlast. subst route. simpl in Hlen. lia. }
    exists r0, r_last. split_and!; try done. intros hr Hhr.
    unfold new_calls. simpl. rewrite drop_app_length.
    apply (relayed_stored (self st) route (length route - 1) 0 qs qs' new
             r0 r_last hr); try done; lia.
Qed.

Lemma X15_qubits_delivered_witness :
  let st' := (_route_quantum_info obliging "Alice" "Bob"
                (BQubits [held_qubit]) pair).2 in
  ∃ route qs',
    (get_route "Alice" "Bob" pair).1 = Ok route
    ∧ BQubits [QubitEntry (VQubit 6%N) "q-1" false] = BQubits qs'
    ∧ self st' = self pair
    ∧ qe_q_id <$> qs' = qe_q_id <$> [held_qubit]
    ∧ (length route < 2 → qs' = [held_qubit] ∧ st' = pair)
    ∧ (2 ≤ length route →
       Forall (λ q, qe_blocked q = false) qs'
       ∧ ∃ r0 r_last,
           route !! 0 = Some r0 ∧ last route = Some r_last
           ∧ ∀ hr, ARP (self pair) !! r_last = Some hr →
               omap stored (new_calls pair st') =
                 (λ q, (hr, r0, qe_q q, qe_q_id q)) <$> qs').
Proof.
  apply (X15_qubits_delivered obliging "Alice" "Bob" [held_qubit]
           (BQubits [QubitEntry (VQubit 6%N) "q-1" false]) pair
           (_route_quantum_info obliging "Alice" "Bob"
              (BQubits [held_qubit]) pair).2).
  vm_compute. reflexivity.
Defined.

(** *** QUANTUM packets in the loop *)

(** X16.  The qubits of a QUANTUM packet are moved before the [try]
    block is entered, so whatever [_route_quantum_info] raises (the route
    cannot be computed, a host of the route is not registered, a backend
    fails, the payload is not a list) leaves [_process_queue] with it: the
    loop ends, the packet is lost without having been handed to anyone,
    and the packets behind it stay in the queue. *)
Theorem X16_prepass_fault (peers : Peers) (st : state)
    (packet : packet_dict) (rest : list packet_dict) (e : exn)
    (st1 : state) (fuel : nat) :
  _stop_thread (self st) = false →
  _packet_queue (self st) = packet :: rest →
  packet_payload_type packet = QUANTUM →
  _route_quantum_info peers (packet_sender packet) (packet_receiver packet)
    (packet_payload packet) (dequeued st rest) = (Raise e, st1) →
  _process_queue peers (S fuel) st = (Raise e, st1)
  ∧ _packet_queue (self st1) = rest
  ∧ Forall (λ ev, is_delivery ev = false) (new_calls st st1).
Proof.
  intros Hstop Hq Hquantum Hrun.
  assert (quantum_prepass peers packet (dequeued st rest) = (Raise e, st1))
    as Hpre.
  { unfold quantum_prepass. rewrite decide_True by done.
    unfold bind. by rewrite Hrun. }
  split_and!.
  - simpl. unfold bind at 1, get_self. simpl. rewrite Hstop, Hq.
    unfold bind at 1, emit. simpl. unfold bind at 1, modify_self. simpl.
    unfold bind at 1, process_packet, bind at 1. fold (dequeued st rest).
    by rewrite Hpre.
  - pose proof (steady_route_quantum_info peers (packet_sender packet)
                  (packet_receiver packet) (packet_payload packet)
                  (dequeued st rest)) as Hself.
    rewrite Hrun in Hself. simpl in Hself. by rewrite Hself.
  - destruct (tame_quantum_prepass peers (λ ev, is_delivery ev = false))
      with (packet := packet) (st := dequeued st rest)
      as (_ & _ & (new & Hcalls & Hnew) & _); try done.
    rewrite Hpre in Hcalls. simpl in Hcalls.
    unfold new_calls. rewrite Hcalls, <- app_assoc, drop_app_length.
    apply Forall_app. split; [by apply Forall_singleton|done].
Qed.

Lemma X16_prepass_fault_witness :
  let st := queued pair [stray_qubits; greeting] in
  _process_queue obliging 1 st = (Raise NodeNotFound, dequeued st [greeting])
  ∧ _packet_queue (self (dequeued st [greeting])) = [greeting]
  ∧ Forall (λ ev, is_delivery ev = false)
           (new_calls st (dequeued st [greeting])).
Proof.
  apply (X16_prepass_fault obliging (queued pair [stray_qubits; greeting])
           stray_qubits [greeting] NodeNotFound _ 0); reflexivity.
Defined.

Lemma get_route_run source dest st route :
  (get_route source dest st).1 = Ok route →
  ∀ st', self st' = self st → get_route source dest st' = (Ok route, st').
Proof.
  unfold get_route, bind, get_self, lift. simpl. intros Hrun st' ->.
  destruct (routing_algo _ _ _ _); simpl in *; by simplify_eq.
Qed.

(** X17.  A QUANTUM packet between two hosts next to each other, when the
    hosts of the route are registered and their backends carry qubits: the
    loop first moves every qubit of the payload over the hop and has it
    stored, and then hands the packet to the inbound handler of the
    receiver's host, once; the packet it hands over is the packet that was
    queued, with the entries of its payload holding the received qubits.
    An exception of the handler is logged. *)
Theorem X17_quantum_delivery (peers : Peers) (packet : packet_dict)
    (qs : list qubit_entry) (st : state) (route : list string) (hr : Host) :
  packet_payload_type packet = QUANTUM →
  packet_payload packet = BQubits qs →
  packet_protocol packet ≠ RELAY →
  packet_protocol packet ≠ REC_EPR →
  (get_route (packet_sender packet) (packet_receiver packet) st).1
    = Ok route →
  length route = 2 →
  (∀ x, x ∈ route → ∃ h, ARP (self st) !! x = Some h ∧ carries peers h) →
  ARP (self st) !! packet_receiver packet = Some hr →
  ∃ qs' new tail,
    relayed (self st) route [0] qs qs' new
    ∧ let delivered :=
        BPacket (Packet (packet_sender packet) (packet_receiver packet)
                   (packet_protocol packet) QUANTUM (BQubits qs')
                   (packet_TTL packet) (packet_route packet)) in
      let r := peers (calls st ++ new) hr (Host_rec_packet delivered) in
      process_packet peers packet st =
        (Ok tt,
         mkState (self st)
           (calls st ++ new
            ++ HostCall hr (Host_rec_packet delivered) r :: tail))
      ∧ caught r tail.
Proof.
  intros Hquantum Hpl Hrelay Hepr Hroute Hlen Hreg Hhr.
  destruct (route_quantum_info_completes peers (packet_sender packet)
              (packet_receiver packet) qs st route Hroute Hreg)
    as (qs' & new & Hnew & Hrun).
  rewrite Hlen in Hnew. simpl in Hnew.
  set (st1 := mkState (self st) (calls st ++ new)) in *.
  set (packet' := set_payload (BQubits qs') packet).
  destruct (guarded_last_call peers hr (Host_rec_packet (BPacket packet'))
              st1) as (tail & Hlast & Htail).
  assert (Packet (packet_sender packet) (packet_receiver packet)
            (packet_protocol packet) QUANTUM (BQubits qs')
            (packet_TTL packet) (packet_route packet) = packet') as Hshape.
  { unfold packet'. rewrite <- Hquantum. by destruct packet. }
  exists qs', new, tail. split; [done|]. simpl. rewrite Hshape.
  split; [|done].
  unfold process_packet, bind at 1, quantum_prepass.
  rewrite decide_True by done. unfold bind at 1. rewrite Hpl, Hrun.
  unfold ret at 1. fold packet' st1.
  assert (resolve_route packet' st1 = (Ok route, st1)) as Hres.
  { unfold resolve_route, bind at 1, get_self. simpl.
    assert (packet_sender packet' = packet_sender packet
            ∧ packet_receiver packet' = packet_receiver packet
            ∧ packet_protocol packet' = packet_protocol packet)
      as (-> & -> & ->) by (by destruct packet).
    rewrite decide_False by done.
    destruct (use_hop_by_hop (self st));
      by apply (get_route_run _ _ st route Hroute st1). }
  unfold try_except in *. unfold bind at 1. rewrite Hres.
  unfold dispatch. rewrite decide_False by lia. rewrite decide_True by done.
  assert (packet_protocol packet' = packet_protocol packet
          ∧ packet_receiver packet' = packet_receiver packet)
    as (-> & ->) by (by destruct packet).
  rewrite decide_True by done. rewrite decide_False by done.
  unfold bind in *. unfold ret at 1.
  rewrite ARP_subscript_run. simpl. rewrite Hhr.
  rewrite Hlast. simpl. by rewrite <- app_assoc.
Qed.

Lemma X17_quantum_delivery_witness :
  ∃ qs' new tail,
    relayed (self pair) ["Alice"; "Bob"] [0] [held_qubit] qs' new
    ∧ let delivered :=
        BPacket (Packet "Alice" "Bob" (OtherProtocol "send_qubit") QUANTUM
                   (BQubits qs') None None) in
      let r := obliging (calls pair ++ new) Bob (Host_rec_packet delivered) in
      process_packet obliging qubit_packet pair =
        (Ok tt,
         mkState (self pair)
           (calls pair ++ new
            ++ HostCall Bob (Host_rec_packet delivered) r :: tail))
      ∧ caught r tail.
Proof.
  apply (X17_quantum_delivery obliging qubit_packet [held_qubit] pair
           ["Alice"; "Bob"] Bob); try (reflexivity || discriminate).
  intros x Hx.
  apply list_elem_of_In in Hx. simpl in Hx.
  destruct Hx as [<-|[<-|[]]].
  - exists Alice. split; [reflexivity|apply obliging_carries].
  - exists Bob. split; [reflexivity|apply obliging_carries].
Defined.

(** *** The pace of the loop *)




